(** * EMDR bilateral-stimulation metronome: motion envelope, waveform, audio sync

    A shallow embedding of the motion/timing engine of [src/app.js] (the last,
    most advanced copy of the engine in that file, lines 2718-3409) and of
    [src/reverb-worker.js].

    The numbers of the motion engine, of the audio parameters and of the
    reverb samples are continuous quantities; they are modelled as the real
    numbers [R] of the Standard Library, every arithmetic operation being the
    exact one, so rounding, NaN and the infinities of IEEE doubles are outside
    that part of the model.  Where the sign of such a quantity is tested at a
    point at which it is zero up to rounding (a centre crossing, a peak of
    the wave), the code's answer is decided by the rounding; the statements
    about those tests keep away from these points.  The length of a reverb
    impulse is an integer cut out of a product of doubles, and is computed in
    IEEE binary64.  Exceptions are values of an error type.  Page-level
    mutable globals become fields of explicit state records that are threaded
    through the functions. *)

From Stdlib Require Import Floats Reals Lra Lia List String Ascii Bool ZArith Sorted.
Import ListNotations.

Open Scope R_scope.

(** ** JavaScript number primitives over [R] *)

Module Js.

(** Comparison operators [<], [<=], [>], [>=] as booleans. *)
Definition ltb (a b : R) : bool := if Rlt_dec a b then true else false.
Definition leb (a b : R) : bool := if Rle_dec a b then true else false.
Definition gtb (a b : R) : bool := ltb b a.
Definition geb (a b : R) : bool := leb b a.

(** Truncation toward zero of a real, as performed by the [%] operator. *)
Definition trunc (r : R) : Z :=
  if Rle_dec 0 r then Int_part r else (- Int_part (- r))%Z.

(** [x % y] on numbers: the remainder has the sign of the dividend. *)
Definition fmod (x y : R) : R := x - y * IZR (trunc (x / y)).

(** [Math.floor]. *)
Definition floor (r : R) : Z := Int_part r.

(** Truthiness of a number: [0] is falsy. *)
Definition truthy (r : R) : bool := if Req_dec_T r 0 then false else true.

(** Coercion of a nullable number in an arithmetic context: [null] is 0. *)
Definition num (o : option R) : R :=
  match o with Some x => x | None => 0 end.

End Js.

(** ** Settings and motion state (app.js 2226-2257, 2718-2734) *)

Record Settings := mkSettings {
  cyclesPerMinute : R;
  motionType : string
}.

Definition defaultSettings : Settings :=
  {| cyclesPerMinute := 40; motionType := "sine" |}.

Inductive RampDirection := Up | Down.

Record State := mkState {
  ballPosition : R;
  isPlaying : bool;
  speedMultiplier : R;
  lastTimestamp : option R;
  virtualTime : R;
  rampStartTime : option R;
  rampDirection : option RampDirection;
  rampStartSpeed : R;
  isDecelerating : bool;
  decelStartPosition : R;
  waitingForEdge : bool
}.

(** The values of the globals when the page loads. *)
Definition initialState : State :=
  {| ballPosition := 0;
     isPlaying := false;
     speedMultiplier := 0;
     lastTimestamp := None;
     virtualTime := 0;
     rampStartTime := None;
     rampDirection := None;
     rampStartSpeed := 0;
     isDecelerating := false;
     decelStartPosition := 0;
     waitingForEdge := false |}.

Definition RAMP_DURATION : R := 800.

(** [rampDirection === 'up'] *)
Definition isUp (d : option RampDirection) : bool :=
  match d with Some Up => true | _ => false end.

(** [rampDirection !== null] *)
Definition notNull (d : option RampDirection) : bool :=
  match d with Some _ => true | None => false end.

(** [settings.motionType === 'sine'] *)
Definition isSine (cfg : Settings) : bool := String.eqb (motionType cfg) "sine".

(** ** Waveform (app.js 3179-3195, repeated at 3021-3036) *)

(** [period = 1000 / (settings.cyclesPerMinute / 60)] *)
Definition period (cfg : Settings) : R := 1000 / (cyclesPerMinute cfg / 60).

(** [((virtualTime % period) + period) % period / period] *)
Definition cycleProgress (cfg : Settings) (vt : R) : R :=
  Js.fmod (Js.fmod vt (period cfg) + period cfg) (period cfg) / period cfg.

Definition sinePosition (cfg : Settings) (vt : R) : R :=
  sin ((vt / period cfg) * PI * 2).

Definition trianglePosition (cfg : Settings) (vt : R) : R :=
  let cp := cycleProgress cfg vt in
  if Js.ltb cp 0.25 then cp * 4
  else if Js.ltb cp 0.75 then 1 - ((cp - 0.25) * 4)
  else -1 + ((cp - 0.75) * 4).

(** The position derived from virtual time. *)
Definition wavePosition (cfg : Settings) (vt : R) : R :=
  if isSine cfg then sinePosition cfg vt else trianglePosition cfg vt.

(** ** Easing and velocity (app.js 3087-3115) *)

Definition easeInOutCubic (t : R) : R :=
  if Js.ltb t 0.5 then 4 * t * t * t else 1 - (-2 * t + 2) ^ 3 / 2.

Definition getVelocityDirection (cfg : Settings) (s : State) : R :=
  if isSine cfg then cos ((virtualTime s / period cfg) * PI * 2)
  else
    let cp := cycleProgress cfg (virtualTime s) in
    if Js.ltb cp 0.25 || Js.geb cp 0.75 then 1 else -1.

(** The direction test of the pause handler.  At a centre crossing the
    position, and at a peak of the sine the velocity, is zero here and a
    rounding residue of either sign in the code ([Math.sin(Math.PI)] is
    1.2e-16), so that the code's answer at these points is not the one
    computed here. *)
Definition isHeadingTowardZero (cfg : Settings) (s : State) : bool :=
  let vel := getVelocityDirection cfg s in
  (Js.gtb (ballPosition s) 0 && Js.ltb vel 0)
  || (Js.ltb (ballPosition s) 0 && Js.gtb vel 0).

(** ** Field updates of the motion state *)

Definition set_ballPosition (v : R) (s : State) : State :=
  mkState v (isPlaying s) (speedMultiplier s) (lastTimestamp s) (virtualTime s)
          (rampStartTime s) (rampDirection s) (rampStartSpeed s)
          (isDecelerating s) (decelStartPosition s) (waitingForEdge s).

Definition set_isPlaying (v : bool) (s : State) : State :=
  mkState (ballPosition s) v (speedMultiplier s) (lastTimestamp s) (virtualTime s)
          (rampStartTime s) (rampDirection s) (rampStartSpeed s)
          (isDecelerating s) (decelStartPosition s) (waitingForEdge s).

Definition set_speedMultiplier (v : R) (s : State) : State :=
  mkState (ballPosition s) (isPlaying s) v (lastTimestamp s) (virtualTime s)
          (rampStartTime s) (rampDirection s) (rampStartSpeed s)
          (isDecelerating s) (decelStartPosition s) (waitingForEdge s).

Definition set_lastTimestamp (v : option R) (s : State) : State :=
  mkState (ballPosition s) (isPlaying s) (speedMultiplier s) v (virtualTime s)
          (rampStartTime s) (rampDirection s) (rampStartSpeed s)
          (isDecelerating s) (decelStartPosition s) (waitingForEdge s).

Definition set_virtualTime (v : R) (s : State) : State :=
  mkState (ballPosition s) (isPlaying s) (speedMultiplier s) (lastTimestamp s) v
          (rampStartTime s) (rampDirection s) (rampStartSpeed s)
          (isDecelerating s) (decelStartPosition s) (waitingForEdge s).

Definition set_rampStartTime (v : option R) (s : State) : State :=
  mkState (ballPosition s) (isPlaying s) (speedMultiplier s) (lastTimestamp s)
          (virtualTime s) v (rampDirection s) (rampStartSpeed s)
          (isDecelerating s) (decelStartPosition s) (waitingForEdge s).

Definition set_rampDirection (v : option RampDirection) (s : State) : State :=
  mkState (ballPosition s) (isPlaying s) (speedMultiplier s) (lastTimestamp s)
          (virtualTime s) (rampStartTime s) v (rampStartSpeed s)
          (isDecelerating s) (decelStartPosition s) (waitingForEdge s).

Definition set_rampStartSpeed (v : R) (s : State) : State :=
  mkState (ballPosition s) (isPlaying s) (speedMultiplier s) (lastTimestamp s)
          (virtualTime s) (rampStartTime s) (rampDirection s) v
          (isDecelerating s) (decelStartPosition s) (waitingForEdge s).

Definition set_isDecelerating (v : bool) (s : State) : State :=
  mkState (ballPosition s) (isPlaying s) (speedMultiplier s) (lastTimestamp s)
          (virtualTime s) (rampStartTime s) (rampDirection s) (rampStartSpeed s)
          v (decelStartPosition s) (waitingForEdge s).

Definition set_decelStartPosition (v : R) (s : State) : State :=
  mkState (ballPosition s) (isPlaying s) (speedMultiplier s) (lastTimestamp s)
          (virtualTime s) (rampStartTime s) (rampDirection s) (rampStartSpeed s)
          (isDecelerating s) v (waitingForEdge s).

Definition set_waitingForEdge (v : bool) (s : State) : State :=
  mkState (ballPosition s) (isPlaying s) (speedMultiplier s) (lastTimestamp s)
          (virtualTime s) (rampStartTime s) (rampDirection s) (rampStartSpeed s)
          (isDecelerating s) (decelStartPosition s) v.

(** ** The frame tick: [calculateBallPosition] (app.js 3117-3212) *)

(** Lines 3119-3124: the capped delta time and the new [lastTimestamp]. *)
Definition frameDelta (timestamp : R) (s : State) : R :=
  let last := match lastTimestamp s with None => timestamp | Some l => l end in
  Rmin (timestamp - last) 50.

(** Lines 3128-3177: the four envelope branches. *)
Definition advanceEnvelope (cfg : Settings) (timestamp deltaTime : R) (s : State)
  : State :=
  if waitingForEdge s then
    let s := set_virtualTime (virtualTime s + deltaTime * speedMultiplier s) s in
    let newPos := sin ((virtualTime s / period cfg) * PI * 2) in
    if Js.geb (Rabs newPos) 0.99 then
      set_decelStartPosition newPos (set_isDecelerating true (set_waitingForEdge false s))
    else s
  else if isDecelerating s then
    let distanceFromZero := Rabs (ballPosition s) in
    let startDistance := Rabs (decelStartPosition s) in
    let s :=
      if Js.gtb startDistance 0.01 then
        let ratio := distanceFromZero / startDistance in
        set_speedMultiplier (Rmax 0.08 (sqrt ratio)) s
      else set_speedMultiplier 0 s in
    set_virtualTime (virtualTime s + deltaTime * speedMultiplier s) s
  else if isUp (rampDirection s) then
    let rampElapsed := timestamp - Js.num (rampStartTime s) in
    let rampProgress := Rmin (rampElapsed / RAMP_DURATION) 1 in
    let easedProgress := easeInOutCubic rampProgress in
    let s := set_speedMultiplier
               (rampStartSpeed s + (1 - rampStartSpeed s) * easedProgress) s in
    let s := if Js.geb rampProgress 1 then set_rampDirection None s else s in
    set_virtualTime (virtualTime s + deltaTime * speedMultiplier s) s
  else
    set_virtualTime (virtualTime s + deltaTime * speedMultiplier s) s.

(** Lines 3197-3208: the zero-crossing test that ends a deceleration. *)
Definition crossedZero (prevPosition pos : R) : bool :=
  (Js.gtb prevPosition 0 && Js.leb pos 0) || (Js.ltb prevPosition 0 && Js.geb pos 0).

Definition finishDeceleration (prevPosition : R) (s : State) : State :=
  if isDecelerating s then
    if crossedZero prevPosition (ballPosition s) then
      set_ballPosition 0
        (set_speedMultiplier 0
          (set_virtualTime 0
            (set_rampDirection None
              (set_waitingForEdge false (set_isDecelerating false s)))))
    else s
  else s.

(** The motion part of [calculateBallPosition]: everything up to, and not
    including, the final call of [updateMusicPlaybackRate]. *)
Definition tickMotion (cfg : Settings) (timestamp : R) (s : State) : State :=
  let deltaTime := frameDelta timestamp s in
  let prevPosition := ballPosition s in
  let s := set_lastTimestamp (Some timestamp) s in
  let s := advanceEnvelope cfg timestamp deltaTime s in
  let s := set_ballPosition (wavePosition cfg (virtualTime s)) s in
  finishDeceleration prevPosition s.

(** ** Music rate slaving (app.js 2745-2752, 2913-2927) *)

Record Music := mkMusic {
  musicBuffer : option R;           (* duration of the decoded buffer, or null *)
  musicSource : option R;           (* playbackRate.value of the source, or null *)
  musicPausedAt : R;
  musicIsPlaying : bool;
  lastMusicUpdateTime : R
}.

(** [now] is [audioContext.currentTime]. *)
Definition updateMusicPlaybackRate (now rate : R) (m : Music) : Music :=
  match musicSource m, musicIsPlaying m, musicBuffer m with
  | Some playbackRate, true, Some duration =>
      let deltaTime :=
        if Js.truthy (lastMusicUpdateTime m) then now - lastMusicUpdateTime m else 0 in
      {| musicBuffer := musicBuffer m;
         musicSource := Some rate;
         musicPausedAt := Js.fmod (musicPausedAt m + deltaTime * playbackRate) duration;
         musicIsPlaying := true;
         lastMusicUpdateTime := now |}
  | _, _, _ => m
  end.

(** The whole page state touched by a frame. *)
Record App := mkApp { motion : State; music : Music }.

Definition calculateBallPosition (cfg : Settings) (timestamp audioNow : R) (a : App)
  : App :=
  let s := tickMotion cfg timestamp (motion a) in
  {| motion := s;
     music := updateMusicPlaybackRate audioNow (speedMultiplier s) (music a) |}.

(** [animate] (app.js 3399-3409), without the drawing calls. *)
Definition needsTick (s : State) : bool :=
  isPlaying s || notNull (rampDirection s) || isDecelerating s || waitingForEdge s
  || Js.gtb (speedMultiplier s) 0.

Definition animate (cfg : Settings) (timestamp audioNow : R) (a : App) : App :=
  if needsTick (motion a) then calculateBallPosition cfg timestamp audioNow a else a.

(** The interval callback of [startAudioLoop] (app.js 3066-3077), without the
    audio-graph update; [hidden] is [document.hidden].  Returns the new
    [lastAudioTime] and the motion state. *)
Definition audioLoopTick (hidden : bool) (now lastAudioTime : R) (s : State)
  : R * State :=
  let dt := Rmin (now - lastAudioTime) 100 in
  (now,
   if hidden && isPlaying s && Js.gtb (speedMultiplier s) 0
   then set_virtualTime (virtualTime s + dt * speedMultiplier s) s
   else s).

(** ** Play / pause: the motion part of [togglePlayPause] (app.js 3332-3397)

    [now] is [performance.now()].  The calls that start or stop audio nodes
    and fade gains do not touch the motion globals and are left out. *)
Definition togglePlayPause (cfg : Settings) (now : R) (s : State) : State :=
  let s := set_isPlaying (negb (isPlaying s)) s in
  if isPlaying s then
    let s := set_waitingForEdge false (set_isDecelerating false s) in
    set_rampStartSpeed (speedMultiplier s)
      (set_rampStartTime (Some now) (set_rampDirection (Some Up) s))
  else
    if isHeadingTowardZero cfg s then
      set_decelStartPosition (ballPosition s) (set_isDecelerating true s)
    else
      set_speedMultiplier 1 (set_rampDirection None (set_waitingForEdge true s)).

(** ** Phases of the envelope

    The source keeps three flags; the five phase names are those of the
    branches of [advanceEnvelope], tested in the order the tick tests them.
    The last branch (normal playback) is [Steady] while the oscillator moves
    and [Idle] once it is stopped. *)

Inductive Phase := Idle | RampingUp | Steady | WaitingForEdge | Decelerating.

Definition phaseState (s : State) : Phase :=
  if waitingForEdge s then WaitingForEdge
  else if isDecelerating s then Decelerating
  else if isUp (rampDirection s) then RampingUp
  else if Js.gtb (speedMultiplier s) 0 then Steady
  else Idle.

(** ** Runs of the engine *)

(** Ticks at the given frame timestamps, in order. *)
Fixpoint runTicks (cfg : Settings) (ts : list R) (s : State) : State :=
  match ts with
  | [] => s
  | t :: ts' => runTicks cfg ts' (tickMotion cfg t s)
  end.

(** The speed multiplier observed after each of those ticks. *)
Fixpoint speedTrace (cfg : Settings) (ts : list R) (s : State) : list R :=
  match ts with
  | [] => []
  | t :: ts' =>
      let s' := tickMotion cfg t s in
      speedMultiplier s' :: speedTrace cfg ts' s'
  end.

(** [n] ticks, each [dt] milliseconds after the previous frame timestamp. *)
Fixpoint tickFixed (cfg : Settings) (dt : R) (n : nat) (s : State) : State :=
  match n with
  | O => s
  | S n' => tickFixed cfg dt n' (tickMotion cfg (Js.num (lastTimestamp s) + dt) s)
  end.

(** User and clock events.  [Press now] is a click on the play/pause button at
    [performance.now() = now]; [Frame t] is an animation frame with timestamp
    [t], which ticks only when [animate] lets it. *)
Inductive Event :=
| Press (now : R)
| Frame (timestamp : R).

Definition eventTime (e : Event) : R :=
  match e with Press now => now | Frame t => t end.

Definition step (cfg : Settings) (e : Event) (s : State) : State :=
  match e with
  | Press now => togglePlayPause cfg now s
  | Frame t => if needsTick s then tickMotion cfg t s else s
  end.

Fixpoint run (cfg : Settings) (es : list Event) (s : State) : State :=
  match es with
  | [] => s
  | e :: es' => run cfg es' (step cfg e s)
  end.

(** ** Numbers that decide a length, and exceptions

    The length of a reverb impulse is an integer cut out of a product of
    doubles by [Math.floor]: one unit in the last place of the product can move
    it by a whole sample.  That computation is therefore modelled in IEEE
    binary64, with the primitive floats of the Standard Library; a decimal
    literal such as [0.7%float] denotes the nearest double, as it does in
    JavaScript.  The samples themselves are continuous quantities and stay
    exact reals, computed from the real numbers the doubles denote. *)

Set Warnings "-inexact-float".

Inductive Error := RangeError | TypeError | NotSupportedError | IndexSizeError.

(** The completion of a call: a value, or an exception thrown. *)
Inductive Completion (A : Type) : Type :=
| Normal (a : A)
| Throw (e : Error).

Arguments Normal {A} a.
Arguments Throw {A} e.

Definition bind {A B : Type} (c : Completion A) (k : A -> Completion B)
  : Completion B :=
  match c with
  | Normal a => k a
  | Throw e => Throw e
  end.

Notation "'do' x <- c ; k" := (bind c (fun x => k))
  (at level 10, x name, c at level 100, k at level 200).

(** An exception that escapes an event handler ends the handler; the page's
    variables stay as they were when it was thrown. *)
Definition settle {A : Type} (before : A) (c : Completion A) : A :=
  match c with
  | Normal a => a
  | Throw _ => before
  end.

Module Double.

(** The rational number a finite double denotes, as numerator and positive
    denominator; NaN and the infinities, which denote none, are given 0. *)
Definition toRatio (x : float) : Z * Z :=
  match Prim2SF x with
  | S754_finite s m e =>
      let v := if s then Z.neg m else Z.pos m in
      if (0 <=? e)%Z then ((v * 2 ^ e)%Z, 1%Z) else (v, (2 ^ (- e))%Z)
  | _ => (0%Z, 1%Z)
  end.

Definition toR (x : float) : R := IZR (fst (toRatio x)) / IZR (snd (toRatio x)).

(** [Math.min(a, b)]: NaN if either is NaN; [-0] is smaller than [+0]. *)
Definition Math_min (a b : float) : float :=
  if is_nan a || is_nan b then nan
  else if PrimFloat.ltb a b then a
  else if PrimFloat.ltb b a then b
  else if get_sign a then a else b.

(** The value of [Math.floor(x)]: an integer, an infinity or NaN.  (The sign
    of a zero result is dropped; nothing downstream reads it.) *)
Inductive Floor := NotANumber | Infinite (negative : bool) | Integer (z : Z).

Definition Math_floor (x : float) : Floor :=
  match Prim2SF x with
  | S754_nan => NotANumber
  | S754_infinity s => Infinite s
  | S754_zero _ => Integer 0
  | S754_finite s m e => Integer (Z.shiftl (if s then Z.neg m else Z.pos m) e)
  end.

(** [ToIndex], applied by [new Float32Array(length)]: NaN counts as 0; a
    negative, infinite or too large length is a RangeError.  (An engine's own
    lower limit on the size of an array is not modelled; six seconds of audio,
    the longest impulse, stay far below it at the rates of an audio
    context.) *)
Definition toIndex (x : Floor) : Completion Z :=
  match x with
  | NotANumber => Normal 0%Z
  | Infinite _ => Throw RangeError
  | Integer z =>
      if ((0 <=? z) && (z <=? 2 ^ 53 - 1))%Z then Normal z else Throw RangeError
  end.

(** Conversion to the [unsigned long] of a Web Audio argument: NaN and the
    infinities become 0, an integer is reduced modulo 2^32. *)
Definition toUnsignedLong (x : Floor) : Z :=
  match x with
  | Integer z => (z mod 2 ^ 32)%Z
  | _ => 0%Z
  end.

(** The number of turns of [for (let i = 0; i < length; i++)] that end. *)
Definition iterations (x : Floor) : nat :=
  match x with
  | Integer z => Z.to_nat z
  | _ => O
  end.

(** The value as a real, where it is a divisor inside the loop. *)
Definition number (x : Floor) : R :=
  match x with
  | Integer z => IZR z
  | _ => 0
  end.

End Double.

(** ** Reverb impulse generation: [src/reverb-worker.js] *)

Record Preset := mkPreset {
  durationMult : float;
  earlyDelay : float;
  diffusion : float;
  damping : float
}.

Definition PRESETS_room : Preset := mkPreset 0.7 0.01 0.7 0.3.
Definition PRESETS_hall : Preset := mkPreset 1.2 0.03 0.85 0.15.
Definition PRESETS_plate : Preset := mkPreset 0.9 0.005 0.95 0.1.
Definition PRESETS_cathedral : Preset := mkPreset 1.5 0.05 0.9 0.08.

(** What a property read [table[key]] finds on an object literal: an own
    property, a member inherited from [Object.prototype], or nothing. *)
Inductive Property (A : Type) : Type :=
| Own (a : A)
| Inherited
| Missing.

Arguments Own {A} a.
Arguments Inherited {A}.
Arguments Missing {A}.

(** The property names every object literal inherits. *)
Definition objectPrototypeKeys : list string :=
  ["constructor"; "hasOwnProperty"; "isPrototypeOf"; "propertyIsEnumerable";
   "toLocaleString"; "toString"; "valueOf"; "__proto__";
   "__defineGetter__"; "__defineSetter__"; "__lookupGetter__";
   "__lookupSetter__"]%string.

(** [table[key]] for a literal with the keys room, hall, plate, cathedral. *)
Definition lookup {A : Type} (room hall plate cathedral : A) (key : string)
  : Property A :=
  if String.eqb key "room" then Own room
  else if String.eqb key "hall" then Own hall
  else if String.eqb key "plate" then Own plate
  else if String.eqb key "cathedral" then Own cathedral
  else if existsb (String.eqb key) objectPrototypeKeys then Inherited
  else Missing.

(** [PRESETS[type]] *)
Definition PRESETS (type : string) : Property Preset :=
  lookup PRESETS_room PRESETS_hall PRESETS_plate PRESETS_cathedral type.

(** An inherited member is a function or an object: truthy, and every preset
    field read from it is [undefined], which is NaN in arithmetic and false in
    a comparison. *)
Definition inheritedMember : Preset := mkPreset nan nan nan nan.

(** [PRESETS[type] || PRESETS.room] *)
Definition presetFor (type : string) : Preset :=
  match PRESETS type with
  | Own p => p
  | Inherited => inheritedMember
  | Missing => PRESETS_room
  end.

(** [Math.random] is a stream of draws; a counter says which draw is next. *)
Definition Noise := nat -> R.

(** One iteration of the inner loop (worker lines 28-53): from the index [i],
    the previous sample [data[i-1]] and the draw counter, the sample stored at
    [data[i]] and the new counter. *)
Definition workerSample (rnd : Noise) (preset : Preset) (sampleRate decay : R)
           (length : R) (stereoOffset : R) (i : nat) (prev : R) (c : nat)
  : R * nat :=
  let earlyThreshold := Double.toR (earlyDelay preset) * 3 in
  let diffusionMult := Double.toR (diffusion preset) * 0.3 in
  let oneMinusDiffusion := 1 - diffusionMult in
  let invDecayHalf := 1 / (decay * 0.5) in
  let invLength := 1 / length in
  let t := INR i / sampleRate in
  let progress := INR i * invLength in
  let envelope := exp (- t * invDecayHalf) in
  let dampingFactor := 1 - (progress * Double.toR (damping preset)) in
  let sample := rnd c * 2 - 1 in
  let c := S c in
  let '(sample, c) :=
    if Js.ltb t earlyThreshold then
      let earlyAmp := exp (- t / Double.toR (earlyDelay preset)) * 0.5 in
      (sample + (rnd c * 2 - 1) * earlyAmp, S c)
    else (sample, c) in
  let sample :=
    if Js.gtb (Double.toR (diffusion preset)) 0.5 && Nat.ltb 0 i
    then sample * oneMinusDiffusion + prev * diffusionMult
    else sample in
  (sample * envelope * dampingFactor * stereoOffset, c).

(** The loop [for (i = 0; i < length; i++)] over [n] remaining indices,
    appending to the samples written so far. *)
Fixpoint fillChannel (sample : nat -> R -> nat -> R * nat)
         (n i : nat) (prev : R) (c : nat) : list R * nat :=
  match n with
  | O => ([], c)
  | S n' =>
      let '(x, c) := sample i prev c in
      let '(rest, c) := fillChannel sample n' (S i) x c in
      (x :: rest, c)
  end.

Record Impulse := mkImpulse {
  channels : list (list R);
  length : Double.Floor;
  sampleRate : float
}.

Definition generateImpulse (rnd : Noise) (sampleRate : float) (type : string)
           (decay : float) : Completion Impulse :=
  let preset := presetFor type in
  let duration := Double.Math_min (durationMult preset * decay) 6 in
  let length := Double.Math_floor (sampleRate * duration) in
  (* both [new Float32Array(length)] *)
  do size <- Double.toIndex length;
  let n := Z.to_nat size in
  let sampleAt :=
    workerSample rnd preset (Double.toR sampleRate) (Double.toR decay)
                 (Double.number length) in
  let '(data0, c) := fillChannel (sampleAt 1) n 0 0 0 in
  let '(data1, _) := fillChannel (sampleAt 0.97) n 0 0 c in
  Normal {| channels := [data0; data1]; length := length; sampleRate := sampleRate |}.

(** The worker's [onmessage] (worker lines 59-74): request in, response out;
    the response carries the request's [id] back.  When [generateImpulse]
    throws, nothing is posted. *)
Record Request := mkRequest {
  req_id : nat;
  req_sampleRate : float;
  req_type : string;
  req_decay : float
}.

Record Response := mkResponse {
  resp_id : nat;
  resp_channels : list (list R);
  resp_length : Double.Floor;
  resp_sampleRate : float
}.

Definition workerOnMessage (rnd : Noise) (q : Request) : Completion Response :=
  do result <- generateImpulse rnd (req_sampleRate q) (req_type q) (req_decay q);
  Normal {| resp_id := req_id q;
            resp_channels := channels result;
            resp_length := length result;
            resp_sampleRate := sampleRate result |}.

(** ** Reverb on the main thread (app.js 2754-2847) *)

(** The audio context: its sample rate, and the buffers its implementation
    grants: [ctx_supports frames rate] says whether a buffer of [frames >= 1]
    sample frames at [rate] is within the implementation's nominal range of
    rates (single-precision values, as the rate of a context is) and within
    its memory. *)
Record AudioContext := mkAudioContext {
  ctx_sampleRate : float;
  ctx_supports : Z -> float -> bool
}.

Record AudioBuffer := mkAudioBuffer {
  buf_length : Z;
  buf_sampleRate : float;
  buf_data : list (list R)
}.

(** [audioContext.createBuffer(numberOfChannels, length, sampleRate)]: a
    rate that is not finite is a TypeError; no channel, no frame (a length of
    0 or NaN) or an unsupported size or rate is a NotSupportedError; otherwise
    silent channels of the requested length. *)
Definition createBuffer (ctx : AudioContext) (numberOfChannels : nat)
           (length : Double.Floor) (sampleRate : float) : Completion AudioBuffer :=
  let frames := Double.toUnsignedLong length in
  if negb (is_finite sampleRate) then Throw TypeError
  else if (numberOfChannels =? 0)%nat || (frames =? 0)%Z
          || negb (ctx_supports ctx frames sampleRate)
  then Throw NotSupportedError
  else Normal {| buf_length := frames;
                 buf_sampleRate := sampleRate;
                 buf_data := repeat (repeat 0 (Z.to_nat frames)) numberOfChannels |}.

(** Overwrite the beginning of [dst] with [src], keeping the size of [dst]. *)
Definition overwrite (src dst : list R) : list R :=
  firstn (List.length dst) src ++ skipn (List.length src) dst.

Fixpoint updateNth {A} (f : A -> A) (n : nat) (l : list A) : list A :=
  match l, n with
  | [], _ => []
  | x :: l', O => f x :: l'
  | x :: l', S n' => x :: updateNth f n' l'
  end.

(** [buffer.copyToChannel(source, channelNumber)]: [source] must be an
    array (a missing one is a TypeError) and the channel must exist. *)
Definition copyToChannel (source : option (list R)) (channelNumber : nat)
           (b : AudioBuffer) : Completion AudioBuffer :=
  match source with
  | None => Throw TypeError
  | Some src =>
      if (channelNumber <? List.length (buf_data b))%nat then
        Normal {| buf_length := buf_length b;
                  buf_sampleRate := buf_sampleRate b;
                  buf_data := updateNth (overwrite src) channelNumber (buf_data b) |}
      else Throw IndexSizeError
  end.

Record Reverb := mkReverb {
  audioContext : option AudioContext;            (* the context, or null *)
  reverbConvolver : option (option AudioBuffer); (* the node and its buffer *)
  reverbWorker : bool;                           (* a worker is installed *)
  reverbRequestId : nat
}.

(** [channels[k]] of a response. *)
Definition channelOf (e : Response) (k : nat) : option (list R) :=
  nth_error (resp_channels e) k.

(** The buffer built by the handler from a response (lines 2775-2777). *)
Definition impulseOfResponse (ctx : AudioContext) (e : Response)
  : Completion AudioBuffer :=
  do impulse <- createBuffer ctx 2 (resp_length e) (resp_sampleRate e);
  do impulse <- copyToChannel (channelOf e 0) 0 impulse;
  copyToChannel (channelOf e 1) 1 impulse.

(** The assignment [reverbConvolver.buffer = impulse]: the convolver, a
    node of the context, takes a buffer of 1, 2 or 4 channels at the sample
    rate of its context; any other is a NotSupportedError. *)
Definition setBuffer (ctx : AudioContext) (impulse : AudioBuffer)
  : Completion (option AudioBuffer) :=
  let n := List.length (buf_data impulse) in
  if ((n =? 1) || (n =? 2) || (n =? 4))%nat
     && PrimFloat.eqb (buf_sampleRate impulse) (ctx_sampleRate ctx)
  then Normal (Some impulse)
  else Throw NotSupportedError.

(** [reverbWorker.onmessage] (lines 2769-2780). *)
Definition reverbOnMessage (e : Response) (r : Reverb) : Completion Reverb :=
  match audioContext r, reverbConvolver r with
  | Some ctx, Some _ =>
      do impulse <- impulseOfResponse ctx e;
      do buffer <- setBuffer ctx impulse;
      Normal {| audioContext := audioContext r;
                reverbConvolver := Some buffer;
                reverbWorker := reverbWorker r;
                reverbRequestId := reverbRequestId r |}
  | _, _ => Normal r
  end.

(** Responses delivered one after the other. *)
Definition deliver (es : list Response) (r : Reverb) : Reverb :=
  fold_left (fun r e => settle r (reverbOnMessage e r)) es r.

(** One iteration of the fallback's inner loop (lines 2811-2826). *)
Definition fallbackSample (rnd : Noise) (earlyDelay diffusion damping : float)
           (sampleRate decay : R) (length : R) (stereoOffset : R)
           (i : nat) (prev : R) (c : nat) : R * nat :=
  let t := INR i / sampleRate in
  let progress := INR i / length in
  let envelope := exp (- t / (decay * 0.5)) in
  let dampingFactor := 1 - (progress * Double.toR damping) in
  let sample := rnd c * 2 - 1 in
  let c := S c in
  let '(sample, c) :=
    if Js.ltb t (Double.toR earlyDelay * 3) then
      (sample + (rnd c * 2 - 1) * exp (- t / Double.toR earlyDelay) * 0.5, S c)
    else (sample, c) in
  let sample :=
    if Js.gtb (Double.toR diffusion) 0.5 && Nat.ltb 0 i
    then sample * (1 - Double.toR diffusion * 0.3)
         + prev * Double.toR diffusion * 0.3
    else sample in
  (sample * envelope * dampingFactor * stereoOffset, c).

(** The table local to the fallback (lines 2795-2800): durations are already
    scaled by [decay]. *)
Record FallbackPreset := mkFallbackPreset {
  duration : float;
  fb_earlyDelay : float;
  fb_diffusion : float;
  fb_damping : float
}.

Definition presets (decay : float) (type : string) : Property FallbackPreset :=
  lookup (mkFallbackPreset (decay * 0.7) 0.01 0.7 0.3)
         (mkFallbackPreset (decay * 1.2) 0.03 0.85 0.15)
         (mkFallbackPreset (decay * 0.9) 0.005 0.95 0.1)
         (mkFallbackPreset (decay * 1.5) 0.05 0.9 0.08)
         type.

(** [presets[type] || presets.room] (line 2802) *)
Definition fallbackPreset (type : string) (decay : float) : FallbackPreset :=
  match presets decay type with
  | Own p => p
  | Inherited => mkFallbackPreset nan nan nan nan
  | Missing => mkFallbackPreset (decay * 0.7) 0.01 0.7 0.3
  end.

(** [createReverbImpulseFallback(audioCtx, type, decay)] (lines 2793-2829).
    The loops write through [getChannelData]; a write past the end of a
    channel is dropped, which is what [overwrite] keeps of the samples. *)
Definition createReverbImpulseFallback (rnd : Noise) (audioCtx : AudioContext)
           (type : string) (decay : float) : Completion AudioBuffer :=
  let sampleRate := ctx_sampleRate audioCtx in
  let preset := fallbackPreset type decay in
  let duration := Double.Math_min (duration preset) 6 in
  let length := Double.Math_floor (sampleRate * duration) in
  do impulse <- createBuffer audioCtx 2 length sampleRate;
  let n := Double.iterations length in
  let sampleAt :=
    fallbackSample rnd (fb_earlyDelay preset) (fb_diffusion preset) (fb_damping preset)
                   (Double.toR sampleRate) (Double.toR decay) (Double.number length) in
  let '(data0, c) := fillChannel (sampleAt 1) n 0 0 0 in
  let '(data1, _) := fillChannel (sampleAt 0.97) n 0 0 c in
  do impulse <- copyToChannel (Some data0) 0 impulse;
  copyToChannel (Some data1) 1 impulse.

(** [updateReverbImpulse] (lines 2831-2847): post a request to the worker, or
    generate on the main thread when there is no worker.  Returns the request
    posted, if any. *)
Definition updateReverbImpulse (rnd : Noise) (type : string) (decay : float)
           (r : Reverb) : Completion (Reverb * option Request) :=
  match audioContext r, reverbConvolver r with
  | Some ctx, Some _ =>
      if reverbWorker r then
        let id := S (reverbRequestId r) in
        Normal
          ({| audioContext := audioContext r;
              reverbConvolver := reverbConvolver r;
              reverbWorker := true;
              reverbRequestId := id |},
           Some {| req_id := id; req_sampleRate := ctx_sampleRate ctx;
                   req_type := type; req_decay := decay |})
      else
        do impulse <- createReverbImpulseFallback rnd ctx type decay;
        do buffer <- setBuffer ctx impulse;
        Normal
          ({| audioContext := audioContext r;
              reverbConvolver := Some buffer;
              reverbWorker := false;
              reverbRequestId := reverbRequestId r |},
           None)
  | _, _ => Normal (r, None)
  end.

(** ** The impulse length as the specification words it *)

(** The duration multiplier the specification gives for a reverb type, an
    unrecognized one taking the room value. *)
Definition presetDurationMultiplier (type : string) : float :=
  if String.eqb type "room" then 0.7
  else if String.eqb type "hall" then 1.2
  else if String.eqb type "plate" then 0.9
  else if String.eqb type "cathedral" then 1.5
  else 0.7.

(** [floor(min(presetDurationMultiplier * decay, 6) * sampleRate)], each
    operation being the one of JavaScript on doubles. *)
Definition specifiedLength (sampleRate : float) (type : string) (decay : float)
  : Double.Floor :=
  Double.Math_floor
    (Double.Math_min (presetDurationMultiplier type * decay) 6 * sampleRate).

(** The same formula in exact arithmetic. *)
Definition exactLength (sampleRate multiplier decay : R) : Z :=
  Js.floor (Rmin (multiplier * decay) 6 * sampleRate).

(** ** Vocabulary of the statements *)

(** The speed the ramp branch assigns at frame timestamp [t], for a ramp that
    started at [t0] from speed 0. *)
Definition rampSpeed (t0 t : R) : R :=
  easeInOutCubic (Rmin ((t - t0) / RAMP_DURATION) 1).

(** The states in which the tick takes the ramp branch, for a ramp started at
    [t0] from speed 0. *)
Definition Ramping (t0 : R) (s : State) : Prop :=
  waitingForEdge s = false /\ isDecelerating s = false
  /\ rampDirection s = Some Up /\ rampStartTime s = Some t0
  /\ rampStartSpeed s = 0.

(** The states in which the tick takes the normal-playback branch at full speed. *)
Definition FullSpeed (s : State) : Prop :=
  waitingForEdge s = false /\ isDecelerating s = false
  /\ rampDirection s = None /\ speedMultiplier s = 1.

(** The outcome of the zero-crossing reset (app.js 3200-3206). *)
Definition Finished (s : State) : Prop :=
  isDecelerating s = false /\ waitingForEdge s = false /\ rampDirection s = None
  /\ virtualTime s = 0 /\ speedMultiplier s = 0 /\ ballPosition s = 0.

(** Waiting for the edge at full speed, with no deceleration begun. *)
Definition WaitingAtFullSpeed (s : State) : Prop :=
  waitingForEdge s = true /\ isDecelerating s = false
  /\ rampDirection s = None /\ speedMultiplier s = 1.

(** The oscillator moves away from the centre: the sign of the velocity
    agrees with the sign of the position. *)
Definition HeadingTowardEdge (cfg : Settings) (s : State) : Prop :=
  let vel := getVelocityDirection cfg s in
  (0 < ballPosition s /\ 0 < vel) \/ (ballPosition s < 0 /\ vel < 0).


(** The default speed with the triangle shape selected. *)
Definition triangleSettings : Settings :=
  {| cyclesPerMinute := 40; motionType := "triangle" |}.

(** A session on the default settings: play at 0 with the first frame only
    800 ms later (a backgrounded tab delivers no frames), six frames 50 ms
    apart at full speed, pause at 1110 while the ball moves right, and three
    more frames. *)
Definition overshootSession : list Event :=
  [Press 0; Frame 800; Frame 850; Frame 900; Frame 950; Frame 1000; Frame 1050;
   Frame 1100; Press 1110; Frame 1150; Frame 1175; Frame 1191].


(** What every state reached by [now] satisfies: the speed and the captured
    ramp start speed are not negative, and a ramp in progress began in the
    past. *)
Definition SpeedInv (now : R) (s : State) : Prop :=
  0 <= speedMultiplier s /\ 0 <= rampStartSpeed s
  /\ (isUp (rampDirection s) = true -> Js.num (rampStartTime s) <= now).

(** ** Vocabulary of the further properties *)

(** The stored position is the waveform's value at the stored virtual time. *)
Definition InSync (cfg : Settings) (s : State) : Prop :=
  ballPosition s = wavePosition cfg (virtualTime s).

(** The sign of the default sine wave in its [m]-th half period. *)
Definition halfSign (m : nat) : R := if Nat.even m then 1 else -1.

(** The states in which the tick takes the ramp branch, for a ramp started at
    [t0] from speed [r0]. *)
Definition RampingFrom (r0 t0 : R) (s : State) : Prop :=
  waitingForEdge s = false /\ isDecelerating s = false
  /\ rampDirection s = Some Up /\ rampStartTime s = Some t0
  /\ rampStartSpeed s = r0.

(** ** The trail history: [class CircularBuffer] (app.js 2331-2373)

    Indices and sizes are integers.  A JavaScript array is a map from integer
    indices to items, [None] being a hole (reads as [undefined]).  The [%] of
    the source is [Z.rem], the remainder that takes the sign of the dividend.
    With [maxSize = 0] the source computes [NaN] for [head]; the statements
    below are about positive capacities. *)

Module CircularBuffer.
Section Items.
Variable A : Type.

Record t := mk {
  maxSize : Z;
  buffer : Z -> option A;
  head : Z;
  size : Z
}.

(** [arr[i] = x]. *)
Definition store (arr : Z -> option A) (i : Z) (x : option A) : Z -> option A :=
  fun k => if Z.eqb k i then x else arr k.

Definition constructor (maxSize : Z) : t :=
  mk maxSize (fun _ => None) 0 0.

Definition push (item : A) (b : t) : t :=
  mk (maxSize b)
     (store (buffer b) (head b) (Some item))
     (Z.rem (head b + 1) (maxSize b))
     (if Z.ltb (size b) (maxSize b) then (size b + 1)%Z else size b).

Definition length (b : t) : Z := size b.

Definition get (index : Z) (b : t) : option A :=
  if Z.geb index (size b) then None
  else buffer b (Z.rem (head b - size b + index + maxSize b) (maxSize b)).

Definition clear (b : t) : t := mk (maxSize b) (buffer b) 0 0.

(** The loop counter values [0, 1, ..., n-1]. *)
Definition upto (n : Z) : list Z := map Z.of_nat (seq 0 (Z.to_nat n)).

Definition resize (newMaxSize : Z) (b : t) : t :=
  if Z.eqb newMaxSize (maxSize b) then b
  else
    let copyCount := Z.min (size b) newMaxSize in
    let newBuffer :=
      fold_left (fun nb i => store nb i (get (size b - copyCount + i) b))
                (upto copyCount) (fun _ => None) in
    mk newMaxSize newBuffer (Z.rem copyCount newMaxSize) copyCount.

(** The items produced by the iterator, oldest first. *)
Definition iterate (b : t) : list (option A) :=
  map (fun i => get i b) (upto (size b)).

(** The calls made on a buffer. *)
Inductive Op := Push (item : A) | Clear | Resize (newMaxSize : Z).

Definition apply (b : t) (op : Op) : t :=
  match op with
  | Push item => push item b
  | Clear => clear b
  | Resize n => resize n b
  end.

(** The reference the buffer replaces: a plain list that is appended to and
    trimmed from the front ([array.push] and [array.shift]), paired with its
    capacity. *)
Definition lastN (n : Z) (l : list A) : list A :=
  skipn (List.length l - Z.to_nat n) l.

Definition applyQueue (q : Z * list A) (op : Op) : Z * list A :=
  match op with
  | Push item => (fst q, lastN (fst q) (snd q ++ [item]))
  | Clear => (fst q, [])
  | Resize n => (n, lastN n (snd q))
  end.

Definition positiveResize (op : Op) : Prop :=
  match op with Resize n => (0 < n)%Z | _ => True end.

(** The buffer [b] holds exactly the items of [l], oldest first. *)
Definition Holds (b : t) (l : list A) : Prop :=
  (0 < maxSize b)%Z
  /\ size b = Z.of_nat (List.length l)
  /\ (size b <= maxSize b)%Z
  /\ (0 <= head b < maxSize b)%Z
  /\ forall i, (i < List.length l)%nat ->
       buffer b (Z.rem (head b - size b + Z.of_nat i + maxSize b) (maxSize b))
       = nth_error l i.

End Items.
End CircularBuffer.

(** [Math.round]: the nearest integer, halves upward. *)
Definition Math_round (x : R) : Z := Js.floor (x + 0.5).

(** ** Colours: [hexToRgb] (app.js 3215-3222) and the colour wheel's
    [hslToHex] and [hexToHsl] (app.js 2177-2214)

    Strings are byte strings.  [parseInt] and [Math.round] return integers;
    a component is an [option Z], [None] standing for [NaN]. *)

Module Color.

(** The character class [[a-f\d]] under the flag [i]. *)
Definition isHexChar (c : ascii) : bool :=
  let n := Z.of_N (N_of_ascii c) in
  (Z.leb 48 n && Z.leb n 57) || (Z.leb 97 n && Z.leb n 102)
  || (Z.leb 65 n && Z.leb n 70).

(** The six characters after the optional [#], anchored at both ends, as
    the three captured groups. *)
Definition sixHex (s : string) : option (string * string * string) :=
  match s with
  | String c1 (String c2 (String c3 (String c4 (String c5 (String c6 EmptyString))))) =>
      if forallb isHexChar [c1; c2; c3; c4; c5; c6]
      then Some (String c1 (String c2 EmptyString),
                 String c3 (String c4 EmptyString),
                 String c5 (String c6 EmptyString))
      else None
  | _ => None
  end.

(** [/^#?([a-f\d]{2})([a-f\d]{2})([a-f\d]{2})$/i.exec(hex)]: the optional [#]
    is tried first, and given up when the rest does not match. *)
Definition execHex (hex : string) : option (string * string * string) :=
  let withHash :=
    match hex with
    | String c rest => if Ascii.eqb c "#" then sixHex rest else None
    | EmptyString => None
    end in
  match withHash with
  | Some groups => Some groups
  | None => sixHex hex
  end.

(** The value of a digit in radix 16, as [parseInt] reads it. *)
Definition digitValue (c : ascii) : option Z :=
  let n := Z.of_N (N_of_ascii c) in
  if Z.leb 48 n && Z.leb n 57 then Some (n - 48)%Z
  else if Z.leb 97 n && Z.leb n 102 then Some (n - 87)%Z
  else if Z.leb 65 n && Z.leb n 70 then Some (n - 55)%Z
  else None.

(** [parseInt(s, 16)] on a string without sign, blanks or prefix: the longest
    run of leading digits, [NaN] when there is none. *)
Fixpoint parseDigits (s : string) (acc : option Z) : option Z :=
  match s with
  | EmptyString => acc
  | String c rest =>
      match digitValue c with
      | Some d =>
          parseDigits rest
            (Some (16 * match acc with Some a => a | None => 0 end + d)%Z)
      | None => acc
      end
  end.

Definition parseInt16 (s : string) : option Z := parseDigits s None.

Record Rgb := mkRgb { r : option Z; g : option Z; b : option Z }.

Definition hexToRgb (hex : string) : Rgb :=
  match execHex hex with
  | Some (g1, g2, g3) => mkRgb (parseInt16 g1) (parseInt16 g2) (parseInt16 g3)
  | None => mkRgb (Some 255%Z) (Some 255%Z) (Some 255%Z)
  end.

(** [Number.prototype.toString(16)] on an integer. *)
Definition hexDigitChar (d : Z) : ascii :=
  nth (Z.to_nat d) (list_ascii_of_string "0123456789abcdef") "0"%char.

Fixpoint digits16 (fuel : nat) (n : Z) : string :=
  match fuel with
  | O => EmptyString
  | S fuel' =>
      if Z.ltb n 16 then String (hexDigitChar n) EmptyString
      else append (digits16 fuel' (n / 16)) (String (hexDigitChar (n mod 16)) EmptyString)
  end.

Definition toString16 (n : Z) : string :=
  if Z.ltb n 0 then String "-" (digits16 (S (Z.to_nat (- n))) (- n))
  else digits16 (S (Z.to_nat n)) n.

(** [padStart(2, '0')]. *)
Definition padStart2 (s : string) : string :=
  match String.length s with
  | O => "00"
  | S O => String "0" s
  | _ => s
  end.

(** The colour value computed by the inner function [f] of [hslToHex], before
    it is scaled and printed. *)
Definition hslChannel (h s l n : R) : R :=
  let s := s / 100 in
  let l := l / 100 in
  let a := s * Rmin l (1 - l) in
  let k := Js.fmod (n + h / 30) 12 in
  l - a * Rmax (Rmin (Rmin (k - 3) (9 - k)) 1) (-1).

Definition hslByte (h s l n : R) : Z := Math_round (255 * hslChannel h s l n).

Definition hslToHex (h s l : R) : string :=
  let f := fun n => padStart2 (toString16 (hslByte h s l n)) in
  String "#" (append (f 0) (append (f 8) (f 4))).

Record Hsl := mkHsl { hue : R; saturation : R; lightness : R }.

(** [===] on numbers. *)
Definition eqb (x y : R) : bool := if Req_dec_T x y then true else false.

(** The arithmetic of [hexToHsl] on the three components already divided by
    255. *)
Definition rgbToHsl (r g b : R) : Hsl :=
  let max := Rmax (Rmax r g) b in
  let min := Rmin (Rmin r g) b in
  let l := (max + min) / 2 in
  if eqb max min then mkHsl 0 (0 * 100) (l * 100)
  else
    let d := max - min in
    let s := if Js.gtb l 0.5 then d / (2 - max - min) else d / (max + min) in
    let h :=
      if eqb max r then ((g - b) / d + (if Js.ltb g b then 6 else 0)) / 6
      else if eqb max g then ((b - r) / d + 2) / 6
      else ((r - g) / d + 4) / 6 in
    mkHsl (h * 360) (s * 100) (l * 100).

Definition hexToHsl (hex : string) : option Hsl :=
  match execHex hex with
  | None => None
  | Some (g1, g2, g3) =>
      match parseInt16 g1, parseInt16 g2, parseInt16 g3 with
      | Some r, Some g, Some b =>
          Some (rgbToHsl (IZR r / 255) (IZR g / 255) (IZR b / 255))
      | _, _, _ => None
      end
  end.

(** [{ r: 255, g: 255, b: 255 }]. *)
Definition white : Rgb := mkRgb (Some 255%Z) (Some 255%Z) (Some 255%Z).

(** Both directions of the text form of one byte, checked on one value. *)
Definition byteRoundTrips (v : Z) : bool :=
  match padStart2 (toString16 v) with
  | String c1 (String c2 EmptyString) =>
      isHexChar c1 && isHexChar c2
      && match parseInt16 (String c1 (String c2 EmptyString)) with
         | Some w => Z.eqb w v
         | None => false
         end
  | _ => false
  end.

End Color.

(** ** The frequency slider (app.js 1803-1812) *)

Definition FREQ_MIN : Z := 20.
Definition FREQ_MAX : Z := 220.

Definition sliderToFreq (sliderVal : R) : Z := Math_round sliderVal.

Definition freqToSlider (freq : R) : Z :=
  Z.max FREQ_MIN (Z.min FREQ_MAX (Math_round freq)).

(** ** Reverb mix: [updateReverbMix] (app.js 2850-2860)

    The targets handed to the dry and to the wet gain; [nodes] says that the
    two gains and the audio context exist. *)
Definition updateReverbMix (nodes : bool) (reverbMix : R) : option (R * R) :=
  if nodes then
    let mixRatio := reverbMix / 100 in
    let dry := cos (mixRatio * PI / 2) in
    let wet := sin (mixRatio * PI / 2) * 1.5 in
    Some (dry, wet)
  else None.

(** ** The audio update: [updateAudio] (app.js 3017-3057)

    The targets given to the audio parameters by one call; [None] is a
    parameter the call does not touch. *)
Record AudioSettings := mkAudioSettings {
  audioEnabled : bool;
  toneVolume : R;
  tonePanAmount : R;
  frequency : R;
  musicPanAmount : R
}.

Record AudioTargets := mkAudioTargets {
  gainTarget : option R;
  panTarget : option R;
  frequencyTarget : option R;
  musicPanTarget : option R
}.

Definition updateAudio (cfg : Settings) (a : AudioSettings)
           (hasContext hasGainNode hasMusicPanner : bool) (s : State)
  : AudioTargets :=
  if negb hasContext then mkAudioTargets None None None None
  else
    let audioPosition := wavePosition cfg (virtualTime s) in
    let '(gain, pan, freq) :=
      if hasGainNode then
        if audioEnabled a && Js.gtb (speedMultiplier s) 0 then
          let toneVol := (toneVolume a / 100) * speedMultiplier s in
          let scaledTonePan := audioPosition * (tonePanAmount a / 100) in
          let freq := Rmax 20 (frequency a) in
          (Some toneVol, Some scaledTonePan, Some freq)
        else (Some 0, None, None)
      else (None, None, None) in
    let musicPan :=
      if hasMusicPanner && Js.gtb (speedMultiplier s) 0
      then Some (audioPosition * (musicPanAmount a / 100))
      else None in
    mkAudioTargets gain pan freq musicPan.

(** ** Drawing: the ball and its trail in [draw] (app.js 3225-3277) *)

Record DrawSettings := mkDrawSettings {
  ballSize : R;
  trailStyle : string;
  trailLength : Z
}.

Definition ballX (d : DrawSettings) (width position : R) : R :=
  let ballRadius := ballSize d in
  let padding := ballRadius + 50 in
  let travelWidth := width - (padding * 2) in
  padding + ((position + 1) / 2) * travelWidth.

Definition ballY (height : R) : R := height / 2.

(** Lines 3246-3252: the update of [trailHistory] by one call of [draw]. *)
Definition updateTrail (d : DrawSettings) (width height position : R)
           (trailHistory : CircularBuffer.t (R * R)) : CircularBuffer.t (R * R) :=
  if negb (String.eqb (trailStyle d) "none") then
    CircularBuffer.push (R * R) (ballX d width position, ballY height)
      (CircularBuffer.resize (R * R) (trailLength d) trailHistory)
  else CircularBuffer.clear (R * R) trailHistory.

(** [const trailHistory = new CircularBuffer(50)] *)
Definition trailHistory0 : CircularBuffer.t (R * R) :=
  CircularBuffer.constructor (R * R) 50.

(** What every state reached by [now] satisfies besides [SpeedInv]: the last
    frame is not in the future and virtual time is not negative. *)
Definition TimeInv (now : R) (s : State) : Prop :=
  SpeedInv now s
  /\ (forall l, lastTimestamp s = Some l -> l <= now)
  /\ 0 <= virtualTime s.

(** Animation frames in a row: each carries its timestamp and the reading of
    [audioContext.currentTime] at that frame. *)
Definition runFrames (cfg : Settings) (frames : list (R * R)) (a : App) : App :=
  fold_left (fun a f => animate cfg (fst f) (snd f) a) frames a.

(** The music bookkeeping is sound at audio time [now]: the playback rate is
    not negative, the last update is not in the future, and the position lies
    inside the track. *)
Definition MusicInv (now : R) (m : Music) : Prop :=
  (forall rate, musicSource m = Some rate -> 0 <= rate)
  /\ lastMusicUpdateTime m <= now
  /\ (forall d, musicBuffer m = Some d -> 0 < d /\ 0 <= musicPausedAt m < d).

(** The time the frame path credits to a run of frames at timestamps [ts]
    after a frame at [last]: each gap counts for at most 50 ms. *)
Fixpoint creditedTime (last : R) (ts : list R) : R :=
  match ts with
  | [] => 0
  | t :: ts' => Rmin (t - last) 50 + creditedTime t ts'
  end.

(** ** Track frequencies: [setFrequencyForTrack] (app.js 1825-1883)

    [Object.entries] lists the keys of the table in insertion order. *)
Definition MUSIC_FREQUENCY_MAP : list (string * R) :=
  [ ("Music From The Sun"%string, 65);
    ("Imagine With Me (Day Mix)"%string, 97);
    ("Imagine With Me"%string, 57);
    ("Birth of the Evening Star"%string, 56.75);
    ("Synthesized Ocean"%string, 40);
    ("Electric Cello Improv"%string, 66);
    ("Re_Entry_Music"%string, 66);
    ("Eternal You"%string, 66);
    ("Cello_and_Childrens_Choir"%string, 74);
    ("HARP_Promo_Video_Subtle_Audio_Layers"%string, 74);
    ("Life in a Moment"%string, 66);
    ("Shepard's Rise"%string, 48);
    ("Shepards_Rise"%string, 48);
    ("Lullaby for the Heart"%string, 71.5);
    ("Hero's Journey"%string, 65);
    ("All Objects Foreground"%string, 87);
    ("Mist"%string, 74);
    ("passages"%string, 75);
    ("Speed of Thought"%string, 68);
    ("Dream"%string, 65);
    ("Cyberworld"%string, 67);
    ("Bless Me Now"%string, 53);
    ("Frozen Memories"%string, 40);
    ("Through the Storm"%string, 67);
    ("Sam Brown Rmx"%string, 50);
    ("New Year"%string, 80);
    ("Total Praise"%string, 49);
    ("Holiday"%string, 78) ].

(** [s.includes(sub)] *)
Fixpoint includes (s sub : string) : bool :=
  String.prefix sub s
  || match s with
     | EmptyString => false
     | String _ rest => includes rest sub
     end.

(** What one call writes: the frequency setting, the slider value, and
    whether the tone is switched on. *)
Record TrackEffect := mkTrackEffect {
  newFrequency : R;
  newSliderValue : Z;
  enablesAudio : bool
}.

(** The first entry of the table whose name occurs in [trackSrc]. *)
Definition matchingTrack (trackSrc : string) : option (string * R) :=
  find (fun entry => includes trackSrc (fst entry)) MUSIC_FREQUENCY_MAP.

(** [None]: nothing is written (an empty source, or no entry matches). *)
Definition setFrequencyForTrack (trackSrc : string) : option TrackEffect :=
  if String.eqb trackSrc EmptyString then None
  else
    match matchingTrack trackSrc with
    | Some (trackName, frequency) =>
        Some (mkTrackEffect frequency (freqToSlider frequency)
                (String.eqb trackName "Birth of the Evening Star"))
    | None => None
    end.

(** The moves between phases that a frame can make. *)
Definition frameMayMove (p q : Phase) : bool :=
  match p, q with
  | Idle, Idle => true
  | Steady, Steady => true
  | RampingUp, RampingUp | RampingUp, Steady => true
  | WaitingForEdge, WaitingForEdge | WaitingForEdge, Decelerating
  | WaitingForEdge, Idle => true
  | Decelerating, Decelerating | Decelerating, Idle => true
  | _, _ => false
  end.

(** Half a period: the time between two centre crossings at full speed. *)
Definition halfPeriod (cfg : Settings) : R := period cfg / 2.

(** Decelerating under any settings, [u] milliseconds into the [m]-th half
    period, with the position in sync and a captured start position outside
    the guard's 0.01 dead zone. *)
Definition DecelInHalfOf (cfg : Settings) (m : nat) (u : R) (s : State) : Prop :=
  isDecelerating s = true /\ waitingForEdge s = false
  /\ 0.01 < Rabs (decelStartPosition s)
  /\ (exists l, lastTimestamp s = Some l)
  /\ virtualTime s = u + halfPeriod cfg * INR m
  /\ 0 <= u < halfPeriod cfg
  /\ InSync cfg s.

(** The velocity direction as a function of virtual time alone. *)
Definition velocityAt (cfg : Settings) (vt : R) : R :=
  getVelocityDirection cfg (set_virtualTime vt initialState).

(** In the second half of a half period, [u] milliseconds after a centre
    crossing: past the peak for the sine, at or past it for the triangle. *)
Definition towardCentre (cfg : Settings) (u : R) : bool :=
  if isSine cfg then Js.gtb u (halfPeriod cfg / 2) else Js.geb u (halfPeriod cfg / 2).

(** Waiting for the edge at full speed at virtual time [x], with the position
    in sync. *)
Definition WaitingAtOf (cfg : Settings) (x : R) (s : State) : Prop :=
  waitingForEdge s = true /\ isDecelerating s = false
  /\ speedMultiplier s = 1
  /\ (exists l, lastTimestamp s = Some l)
  /\ virtualTime s = x
  /\ InSync cfg s.

(** The tick that found the edge: the wait is over, the deceleration has begun
    from a captured value of magnitude at least 0.99, and the speed is
    still 1. *)
Definition EdgeFoundOf (cfg : Settings) (x : R) (s : State) : Prop :=
  isDecelerating s = true /\ waitingForEdge s = false
  /\ speedMultiplier s = 1
  /\ 0.99 <= Rabs (decelStartPosition s)
  /\ decelStartPosition s = sinePosition cfg x
  /\ (exists l, lastTimestamp s = Some l)
  /\ virtualTime s = x
  /\ InSync cfg s.
(** * Properties *)

(** ** Comparisons *)

Lemma ltb_true (a b : R) : Js.ltb a b = true <-> a < b.
Proof. unfold Js.ltb; destruct (Rlt_dec a b); split; intros; congruence || lra. Qed.

Lemma ltb_false (a b : R) : Js.ltb a b = false <-> b <= a.
Proof. unfold Js.ltb; destruct (Rlt_dec a b); split; intros; congruence || lra. Qed.

Lemma leb_true (a b : R) : Js.leb a b = true <-> a <= b.
Proof. unfold Js.leb; destruct (Rle_dec a b); split; intros; congruence || lra. Qed.

Lemma leb_false (a b : R) : Js.leb a b = false <-> b < a.
Proof. unfold Js.leb; destruct (Rle_dec a b); split; intros; congruence || lra. Qed.

Lemma gtb_true (a b : R) : Js.gtb a b = true <-> b < a.
Proof. apply ltb_true. Qed.

Lemma gtb_false (a b : R) : Js.gtb a b = false <-> a <= b.
Proof. apply ltb_false. Qed.

Lemma geb_true (a b : R) : Js.geb a b = true <-> b <= a.
Proof. apply leb_true. Qed.

Lemma geb_false (a b : R) : Js.geb a b = false <-> a < b.
Proof. apply leb_false. Qed.

Lemma ltb_eq_true (a b : R) : a < b -> Js.ltb a b = true.
Proof. intros; apply ltb_true; assumption. Qed.

Lemma ltb_eq_false (a b : R) : b <= a -> Js.ltb a b = false.
Proof. intros; apply ltb_false; assumption. Qed.

Lemma leb_eq_true (a b : R) : a <= b -> Js.leb a b = true.
Proof. intros; apply leb_true; assumption. Qed.

Lemma leb_eq_false (a b : R) : b < a -> Js.leb a b = false.
Proof. intros; apply leb_false; assumption. Qed.

Lemma gtb_eq_true (a b : R) : b < a -> Js.gtb a b = true.
Proof. intros; apply gtb_true; assumption. Qed.

Lemma gtb_eq_false (a b : R) : a <= b -> Js.gtb a b = false.
Proof. intros; apply gtb_false; assumption. Qed.

Lemma geb_eq_true (a b : R) : b <= a -> Js.geb a b = true.
Proof. intros; apply geb_true; assumption. Qed.

Lemma geb_eq_false (a b : R) : a < b -> Js.geb a b = false.
Proof. intros; apply geb_false; assumption. Qed.

(** Case analysis on a comparison that occurs in the goal, leaving the order
    fact in the context. *)
Ltac cmp_cases a b :=
  let H := fresh "Hcmp" in
  unfold Js.geb, Js.gtb;
  match goal with
  | |- context [Js.ltb a b] =>
      destruct (Js.ltb a b) eqn:H; [apply ltb_true in H | apply ltb_false in H]
  | |- context [Js.leb a b] =>
      destruct (Js.leb a b) eqn:H; [apply leb_true in H | apply leb_false in H]
  end.

Ltac break_if :=
  match goal with
  | |- context [if Js.geb ?a ?b then _ else _] => destruct (Js.geb a b) eqn:?
  | |- context [if Js.gtb ?a ?b then _ else _] => destruct (Js.gtb a b) eqn:?
  | |- context [if Js.leb ?a ?b then _ else _] => destruct (Js.leb a b) eqn:?
  | |- context [if Js.ltb ?a ?b then _ else _] => destruct (Js.ltb a b) eqn:?
  | |- context [if crossedZero ?a ?b then _ else _] =>
      destruct (crossedZero a b) eqn:?
  | |- context [if isUp ?d then _ else _] => destruct (isUp d) eqn:?
  | |- context [if ?b then _ else _] => is_var b; destruct b eqn:?
  end.

(** ** Remainder and floor *)

Lemma Int_part_bounds (r : R) : IZR (Int_part r) <= r < IZR (Int_part r) + 1.
Proof. destruct (base_Int_part r); lra. Qed.

Lemma Int_part_unique (r : R) (z : Z) : IZR z <= r < IZR z + 1 -> Int_part r = z.
Proof.
  intros [Hlo Hhi]. pose proof (Int_part_bounds r) as [Ilo Ihi].
  assert (H1 : IZR (Int_part r) < IZR z + 1) by lra.
  assert (H2 : IZR z < IZR (Int_part r) + 1) by lra.
  rewrite <- (plus_IZR z 1) in H1. rewrite <- (plus_IZR _ 1) in H2.
  apply lt_IZR in H1, H2. lia.
Qed.

Lemma fmod_nonneg (x y : R) : 0 <= x -> 0 < y -> 0 <= Js.fmod x y < y.
Proof.
  intros Hx Hy. unfold Js.fmod, Js.trunc.
  assert (Hq : 0 <= x / y).
  { unfold Rdiv. apply Rmult_le_pos; [assumption|].
    left; apply Rinv_0_lt_compat; assumption. }
  destruct (Rle_dec 0 (x / y)) as [_|n]; [|contradiction].
  pose proof (Int_part_bounds (x / y)) as [Hlo Hhi].
  set (k := IZR (Int_part (x / y))) in *.
  assert (Hxy : x = y * (x / y)) by (field; lra).
  split; nra.
Qed.

Lemma fmod_neg (x y : R) : x < 0 -> 0 < y -> - y < Js.fmod x y <= 0.
Proof.
  intros Hx Hy. unfold Js.fmod, Js.trunc.
  assert (Hq : x / y < 0).
  { unfold Rdiv. rewrite <- (Rmult_0_l (/ y)).
    apply Rmult_lt_compat_r; [apply Rinv_0_lt_compat|]; assumption. }
  destruct (Rle_dec 0 (x / y)) as [Hc|_]; [lra|].
  pose proof (Int_part_bounds (- (x / y))) as [Hlo Hhi].
  rewrite opp_IZR.
  set (k := IZR (Int_part (- (x / y)))) in *.
  assert (Hxy : x = y * (x / y)) by (field; lra).
  split; nra.
Qed.

Lemma fmod_range (x y : R) : 0 < y -> - y < Js.fmod x y < y.
Proof.
  intros Hy. destruct (Rle_lt_dec 0 x) as [Hx|Hx].
  - pose proof (fmod_nonneg x y Hx Hy). lra.
  - pose proof (fmod_neg x y Hx Hy). lra.
Qed.

Lemma fmod_small (x y : R) : 0 <= x < y -> Js.fmod x y = x.
Proof.
  intros [Hx Hy]. unfold Js.fmod, Js.trunc.
  assert (Hq : 0 <= x / y < 1).
  { split.
    - unfold Rdiv. apply Rmult_le_pos; [lra|]. left. apply Rinv_0_lt_compat. lra.
    - apply Rmult_lt_reg_r with y; [lra|]. unfold Rdiv.
      rewrite Rmult_assoc, Rinv_l by lra. lra. }
  destruct (Rle_dec 0 (x / y)) as [_|Hn]; [|lra].
  rewrite (Int_part_unique (x / y) 0) by (cbn; lra). cbn. ring.
Qed.

Lemma fmod_one_period (x y : R) : 0 <= x < y -> Js.fmod (x + y) y = x.
Proof.
  intros [Hx Hy]. unfold Js.fmod, Js.trunc.
  assert (Hq : 0 <= x / y < 1).
  { split.
    - unfold Rdiv. apply Rmult_le_pos; [lra|]. left. apply Rinv_0_lt_compat. lra.
    - apply Rmult_lt_reg_r with y; [lra|]. unfold Rdiv.
      rewrite Rmult_assoc, Rinv_l by lra. lra. }
  assert (He : (x + y) / y = x / y + 1) by (field; lra).
  rewrite He.
  destruct (Rle_dec 0 (x / y + 1)) as [_|Hn]; [|lra].
  rewrite (Int_part_unique (x / y + 1) 1) by (cbn; lra). cbn. ring.
Qed.

Lemma floor_nonneg (r : R) : 0 <= r -> (0 <= Js.floor r)%Z.
Proof.
  intros Hr. unfold Js.floor.
  pose proof (Int_part_bounds r) as [_ Hhi].
  assert (H : -1 < IZR (Int_part r)) by lra.
  apply lt_IZR in H. lia.
Qed.

(** ** The waveform *)

Lemma period_pos (cfg : Settings) : 0 < cyclesPerMinute cfg -> 0 < period cfg.
Proof.
  intros H. unfold period.
  apply Rdiv_lt_0_compat; [lra|]. apply Rdiv_lt_0_compat; lra.
Qed.

Lemma cycleProgress_range (cfg : Settings) (vt : R) :
  0 < cyclesPerMinute cfg -> 0 <= cycleProgress cfg vt < 1.
Proof.
  intros Hc. pose proof (period_pos cfg Hc) as Hp.
  unfold cycleProgress.
  pose proof (fmod_range vt (period cfg) Hp) as Hin.
  assert (H0 : 0 <= Js.fmod vt (period cfg) + period cfg) by lra.
  pose proof (fmod_nonneg _ _ H0 Hp) as [Hlo Hhi].
  set (m := Js.fmod (Js.fmod vt (period cfg) + period cfg) (period cfg)) in *.
  split.
  - unfold Rdiv. apply Rmult_le_pos; [assumption|].
    left; apply Rinv_0_lt_compat; assumption.
  - apply (Rmult_lt_reg_r (period cfg)); [assumption|].
    unfold Rdiv. rewrite Rmult_assoc, Rinv_l by lra. lra.
Qed.

Lemma trianglePosition_range (cfg : Settings) (vt : R) :
  0 < cyclesPerMinute cfg -> -1 <= trianglePosition cfg vt <= 1.
Proof.
  intros Hc. pose proof (cycleProgress_range cfg vt Hc) as [Hlo Hhi].
  unfold trianglePosition. cbv zeta.
  set (cp := cycleProgress cfg vt) in *.
  cmp_cases cp 0.25; [lra|].
  cmp_cases cp 0.75; lra.
Qed.

Lemma wavePosition_range (cfg : Settings) (vt : R) :
  0 < cyclesPerMinute cfg -> -1 <= wavePosition cfg vt <= 1.
Proof.
  intros Hc. unfold wavePosition.
  destruct (isSine cfg).
  - apply SIN_bound.
  - apply trianglePosition_range; assumption.
Qed.

Lemma period_default : period defaultSettings = 1500.
Proof. unfold period. cbn. field. Qed.

Lemma period_triangle : period triangleSettings = 1500.
Proof. unfold period. cbn. field. Qed.

Lemma sine_default (vt : R) :
  sinePosition defaultSettings vt = sin (vt * (PI / 750)).
Proof.
  unfold sinePosition. rewrite period_default. f_equal. field.
Qed.

Lemma wave_default (vt : R) :
  wavePosition defaultSettings vt = sin (vt * (PI / 750)).
Proof.
  unfold wavePosition.
  replace (isSine defaultSettings) with true by reflexivity.
  apply sine_default.
Qed.

Lemma velocity_default bp ip sp lt vt rst rd rss dec dsp w :
  getVelocityDirection defaultSettings (mkState bp ip sp lt vt rst rd rss dec dsp w)
  = cos (vt * (PI / 750)).
Proof.
  unfold getVelocityDirection.
  replace (isSine defaultSettings) with true by reflexivity.
  cbn [virtualTime]. rewrite period_default. f_equal. field.
Qed.

Lemma triangle_rising (vt : R) :
  0 <= vt < 375 -> wavePosition triangleSettings vt = vt / 375.
Proof.
  intros Hvt. unfold wavePosition.
  replace (isSine triangleSettings) with false by reflexivity.
  unfold trianglePosition, cycleProgress. rewrite period_triangle. cbv zeta.
  rewrite (fmod_small vt 1500), (fmod_one_period vt 1500) by lra.
  rewrite ltb_eq_true by lra. field.
Qed.


(** ** Values of the default sine wave (period 1500 ms) *)

Lemma cos_near_zero (x : R) :
  0 < x -> x < PI -> 1 - 2 * x * x < cos (2 * x) < 1.
Proof.
  intros H0 Hpi. rewrite cos_2a_sin.
  pose proof (sin_gt_0 x H0 Hpi) as Hs. pose proof (sin_lt_x x H0) as Hx.
  split; nra.
Qed.

Lemma sin_PI6_default : sin (125 * (PI / 750)) = 1 / 2.
Proof.
  replace (125 * (PI / 750)) with (PI / 6) by field. apply sin_PI6.
Qed.

Lemma sin_5PI6 : sin (625 * (PI / 750)) = 1 / 2.
Proof.
  replace (625 * (PI / 750)) with (PI - PI / 6) by field.
  rewrite sin_PI_x. apply sin_PI6.
Qed.




Lemma sin_300_pos : 0 < sin (300 * (PI / 750)).
Proof. pose proof PI_RGT_0. apply sin_gt_0; lra. Qed.

Lemma cos_300_pos : 0 < cos (300 * (PI / 750)).
Proof. pose proof PI_RGT_0. apply cos_gt_0; lra. Qed.

Lemma sin_350_range : 0.99 <= sin (350 * (PI / 750)) < 1.
Proof.
  pose proof PI_RGT_0 as Hpi. pose proof PI_4 as Hpi4.
  rewrite <- cos_shift.
  replace (PI / 2 - 350 * (PI / 750)) with (2 * (PI / 60)) by field.
  assert (H0 : 0 < PI / 60) by lra. assert (H1 : PI / 60 < PI) by lra.
  destruct (cos_near_zero (PI / 60) H0 H1) as [Hlo Hhi].
  split; [|exact Hhi]. nra.
Qed.

Lemma sin_360_range : 0.99 <= sin (360 / 1500 * PI * 2) < 1.
Proof.
  pose proof PI_RGT_0 as Hpi. pose proof PI_4 as Hpi4.
  rewrite <- cos_shift.
  replace (PI / 2 - 360 / 1500 * PI * 2) with (2 * (PI / 100)) by field.
  assert (H0 : 0 < PI / 100) by lra. assert (H1 : PI / 100 < PI) by lra.
  destruct (cos_near_zero (PI / 100) H0 H1) as [Hlo Hhi].
  split; [|exact Hhi]. nra.
Qed.

Lemma sin_375 : sin (375 * (PI / 750)) = 1.
Proof. rewrite <- sin_PI2. f_equal. field. Qed.

Lemma sin_749_pos : 0 < sin (749 * (PI / 750)).
Proof. pose proof PI_RGT_0. apply sin_gt_0; lra. Qed.

Lemma sin_749_small : sin (749 * (PI / 750)) < 0.01.
Proof.
  pose proof PI_RGT_0. pose proof PI_4.
  replace (749 * (PI / 750)) with (PI - PI / 750) by field.
  rewrite sin_PI_x.
  apply Rlt_trans with (PI / 750); [apply sin_lt_x; lra | lra].
Qed.

Lemma cos_749_neg : cos (749 * (PI / 750)) < 0.
Proof. pose proof PI_RGT_0. apply cos_lt_0; lra. Qed.

Lemma sin_1100_neg : sin (1100 * (PI / 750)) < 0.
Proof. pose proof PI_RGT_0. apply sin_lt_0; lra. Qed.

Lemma cos_1100_neg : cos (1100 * (PI / 750)) < 0.
Proof. pose proof PI_RGT_0. apply cos_lt_0; lra. Qed.

Lemma sin_1125 : sin (1125 * (PI / 750)) = -1.
Proof. rewrite <- sin_3PI2. f_equal. field. Qed.

(** ** Easing and the ramp speed *)

Lemma cube_mono (x y : R) : x <= y -> x * x * x <= y * y * y.
Proof.
  intros H.
  assert (Hq : 0 <= x * x + x * y + y * y).
  { replace (x * x + x * y + y * y)
      with ((x + y / 2) * (x + y / 2) + 3 / 4 * (y * y)) by field.
    pose proof (Rle_0_sqr (x + y / 2)) as H1. pose proof (Rle_0_sqr y) as H2.
    unfold Rsqr in *. lra. }
  replace (y * y * y) with (x * x * x + (y - x) * (x * x + x * y + y * y)) by ring.
  assert (0 <= (y - x) * (x * x + x * y + y * y)) by (apply Rmult_le_pos; lra).
  lra.
Qed.

Lemma easeInOutCubic_mono (a b : R) :
  a <= b -> easeInOutCubic a <= easeInOutCubic b.
Proof.
  intros Hab. unfold easeInOutCubic.
  cmp_cases a 0.5; cmp_cases b 0.5.
  - pose proof (cube_mono a b Hab). lra.
  - assert (Ha : a <= 0.5) by lra.
    pose proof (cube_mono a 0.5 Ha) as H1.
    assert (Hb : -2 * b + 2 <= 1) by lra.
    pose proof (cube_mono (-2 * b + 2) 1 Hb) as H2.
    simpl. lra.
  - lra.
  - assert (Hb : -2 * b + 2 <= -2 * a + 2) by lra.
    pose proof (cube_mono _ _ Hb). simpl. lra.
Qed.

Lemma easeInOutCubic_0 : easeInOutCubic 0 = 0.
Proof. unfold easeInOutCubic. cmp_cases 0 0.5; lra. Qed.

Lemma easeInOutCubic_1 : easeInOutCubic 1 = 1.
Proof. unfold easeInOutCubic. cmp_cases 1 0.5; simpl; lra. Qed.

Lemma easeInOutCubic_range (p : R) : 0 <= p <= 1 -> 0 <= easeInOutCubic p <= 1.
Proof.
  intros [H0 H1].
  pose proof (easeInOutCubic_mono 0 p H0) as Hlo.
  pose proof (easeInOutCubic_mono p 1 H1) as Hhi.
  rewrite easeInOutCubic_0 in Hlo. rewrite easeInOutCubic_1 in Hhi.
  split; assumption.
Qed.

Lemma rampProgress_mono (t0 t1 t2 : R) :
  t1 <= t2 ->
  Rmin ((t1 - t0) / RAMP_DURATION) 1 <= Rmin ((t2 - t0) / RAMP_DURATION) 1.
Proof.
  intros H. unfold RAMP_DURATION.
  apply Rle_min_compat_r. lra.
Qed.

Lemma rampSpeed_mono (t0 t1 t2 : R) : t1 <= t2 -> rampSpeed t0 t1 <= rampSpeed t0 t2.
Proof.
  intros H. apply easeInOutCubic_mono, rampProgress_mono, H.
Qed.

Lemma rampSpeed_nonneg (t0 t : R) : t0 <= t -> 0 <= rampSpeed t0 t.
Proof.
  intros H. rewrite <- easeInOutCubic_0. apply easeInOutCubic_mono.
  unfold RAMP_DURATION. apply Rmin_glb; lra.
Qed.

Lemma rampSpeed_le_1 (t0 t : R) : rampSpeed t0 t <= 1.
Proof.
  pose proof (easeInOutCubic_mono _ 1 (Rmin_r ((t - t0) / RAMP_DURATION) 1)) as H.
  rewrite easeInOutCubic_1 in H. exact H.
Qed.

Lemma rampSpeed_done (t0 t : R) : t0 + RAMP_DURATION <= t -> rampSpeed t0 t = 1.
Proof.
  intros H. unfold rampSpeed, RAMP_DURATION in *.
  rewrite Rmin_right by lra. apply easeInOutCubic_1.
Qed.

(** ** One tick, branch by branch, on an explicit state *)

Ltac unfold_tick :=
  unfold tickMotion, advanceEnvelope, finishDeceleration, frameDelta.

Lemma tick_lastTimestamp (cfg : Settings) (t : R) (s : State) :
  lastTimestamp (tickMotion cfg t s) = Some t.
Proof.
  destruct s. unfold_tick. cbn. repeat (break_if; cbn); reflexivity.
Qed.

Lemma tick_isPlaying (cfg : Settings) (t : R) (s : State) :
  isPlaying (tickMotion cfg t s) = isPlaying s.
Proof.
  destruct s. unfold_tick. cbn. repeat (break_if; cbn); reflexivity.
Qed.

Lemma tick_ramp_eq cfg t bp ip sp lt vt rst rss dsp :
  tickMotion cfg t (mkState bp ip sp lt vt rst (Some Up) rss false dsp false) =
  let delta := frameDelta t (mkState bp ip sp lt vt rst (Some Up) rss false dsp false) in
  let p := Rmin ((t - Js.num rst) / RAMP_DURATION) 1 in
  let sp' := rss + (1 - rss) * easeInOutCubic p in
  let vt' := vt + delta * sp' in
  mkState (wavePosition cfg vt') ip sp' (Some t) vt' rst
          (if Js.geb p 1 then None else Some Up) rss false dsp false.
Proof.
  unfold_tick. cbn. repeat (break_if; cbn); reflexivity.
Qed.

Lemma tick_normal_eq cfg t bp ip sp lt vt rst rd rss dsp :
  isUp rd = false ->
  tickMotion cfg t (mkState bp ip sp lt vt rst rd rss false dsp false) =
  let delta := frameDelta t (mkState bp ip sp lt vt rst rd rss false dsp false) in
  let vt' := vt + delta * sp in
  mkState (wavePosition cfg vt') ip sp (Some t) vt' rst rd rss false dsp false.
Proof.
  intros Hrd. unfold_tick. cbn. rewrite Hrd. cbn. reflexivity.
Qed.

Lemma tick_decel_eq cfg t bp ip sp lt vt rst rd rss dsp :
  tickMotion cfg t (mkState bp ip sp lt vt rst rd rss true dsp false) =
  let delta := frameDelta t (mkState bp ip sp lt vt rst rd rss true dsp false) in
  let sp' := if Js.gtb (Rabs dsp) 0.01
             then Rmax 0.08 (sqrt (Rabs bp / Rabs dsp)) else 0 in
  let vt' := vt + delta * sp' in
  let pos := wavePosition cfg vt' in
  if crossedZero bp pos
  then mkState 0 ip 0 (Some t) 0 rst None rss false dsp false
  else mkState pos ip sp' (Some t) vt' rst rd rss true dsp false.
Proof.
  unfold_tick. cbn. repeat (break_if; cbn); reflexivity.
Qed.

Lemma tick_waiting_eq cfg t bp ip sp lt vt rst rd rss dsp :
  tickMotion cfg t (mkState bp ip sp lt vt rst rd rss false dsp true) =
  let delta := frameDelta t (mkState bp ip sp lt vt rst rd rss false dsp true) in
  let vt' := vt + delta * sp in
  let newPos := sin ((vt' / period cfg) * PI * 2) in
  let pos := wavePosition cfg vt' in
  if Js.geb (Rabs newPos) 0.99 then
    if crossedZero bp pos
    then mkState 0 ip 0 (Some t) 0 rst None rss false newPos false
    else mkState pos ip sp (Some t) vt' rst rd rss true newPos false
  else mkState pos ip sp (Some t) vt' rst rd rss false dsp true.
Proof.
  unfold_tick. cbn. repeat (break_if; cbn); reflexivity.
Qed.

Lemma frameDelta_some t bp ip sp l vt rst rd rss dec dsp w :
  frameDelta t (mkState bp ip sp (Some l) vt rst rd rss dec dsp w) = Rmin (t - l) 50.
Proof. reflexivity. Qed.

Lemma frameDelta_none t bp ip sp vt rst rd rss dec dsp w :
  frameDelta t (mkState bp ip sp None vt rst rd rss dec dsp w) = 0.
Proof. unfold frameDelta. cbn. rewrite Rmin_left; lra. Qed.

Lemma crossedZero_same (p : R) : crossedZero p p = false.
Proof.
  unfold crossedZero, Js.gtb, Js.geb.
  destruct (Rlt_le_dec 0 p).
  - rewrite (leb_eq_false p 0), (ltb_eq_false p 0) by lra.
    rewrite andb_false_r. reflexivity.
  - rewrite (ltb_eq_false 0 p) by lra. cbn.
    destruct (Js.ltb p 0) eqn:E; [|reflexivity].
    apply ltb_true in E. rewrite leb_eq_false by lra. reflexivity.
Qed.


Lemma crossedZero_positive (a b : R) : 0 < a -> 0 < b -> crossedZero a b = false.
Proof.
  intros Ha Hb. unfold crossedZero.
  rewrite leb_eq_false, ltb_eq_false by lra.
  rewrite andb_false_r. reflexivity.
Qed.

Lemma Finished_Idle (s : State) : Finished s -> phaseState s = Idle.
Proof.
  intros (Hd & Hw & Hr & _ & Hs & _). unfold phaseState.
  rewrite Hd, Hw, Hr, Hs. cbn. rewrite gtb_eq_false by lra. reflexivity.
Qed.


Lemma tickFixed_add (cfg : Settings) (dt : R) (n m : nat) :
  forall s, tickFixed cfg dt (n + m) s = tickFixed cfg dt m (tickFixed cfg dt n s).
Proof.
  induction n as [|n IH]; intros s; cbn; [reflexivity|apply IH].
Qed.


Lemma runTicks_app (cfg : Settings) (ts1 ts2 : list R) (s : State) :
  runTicks cfg (ts1 ++ ts2) s = runTicks cfg ts2 (runTicks cfg ts1 s).
Proof.
  revert s. induction ts1 as [|t ts1 IH]; intros s; simpl; [reflexivity|apply IH].
Qed.

(** ** Play and pause on an explicit state *)

Lemma play_from_initial (cfg : Settings) (now : R) :
  togglePlayPause cfg now initialState =
  mkState 0 true 0 None 0 (Some now) (Some Up) 0 false 0 false.
Proof. reflexivity. Qed.

Lemma first_frame_of_ramp (cfg : Settings) (now : R) :
  tickMotion cfg now (togglePlayPause cfg now initialState) =
  mkState (wavePosition cfg 0) true 0 (Some now) 0 (Some now) (Some Up) 0
          false 0 false.
Proof.
  rewrite play_from_initial, tick_ramp_eq. cbv zeta.
  rewrite frameDelta_none. cbn [Js.num]. unfold RAMP_DURATION.
  replace (Rmin ((now - now) / 800) 1) with 0 by (rewrite Rmin_left; lra).
  rewrite easeInOutCubic_0, geb_eq_false by lra.
  f_equal; try ring. f_equal; ring.
Qed.

Lemma pause_toward_zero_eq cfg now bp sp lt vt rst rd rss dec dsp w :
  isHeadingTowardZero cfg (mkState bp true sp lt vt rst rd rss dec dsp w) = true ->
  togglePlayPause cfg now (mkState bp true sp lt vt rst rd rss dec dsp w) =
  mkState bp false sp lt vt rst rd rss true bp w.
Proof.
  intros H. unfold togglePlayPause. cbn.
  unfold isHeadingTowardZero, getVelocityDirection in *. cbn in *.
  rewrite H. reflexivity.
Qed.

Lemma pause_toward_edge_eq cfg now bp sp lt vt rst rd rss dec dsp w :
  isHeadingTowardZero cfg (mkState bp true sp lt vt rst rd rss dec dsp w) = false ->
  togglePlayPause cfg now (mkState bp true sp lt vt rst rd rss dec dsp w) =
  mkState bp false 1 lt vt rst None rss dec dsp true.
Proof.
  intros H. unfold togglePlayPause. cbn.
  unfold isHeadingTowardZero, getVelocityDirection in *. cbn in *.
  rewrite H. reflexivity.
Qed.

Lemma heading_toward_edge_not_zero (cfg : Settings) (s : State) :
  HeadingTowardEdge cfg s -> isHeadingTowardZero cfg s = false.
Proof.
  unfold HeadingTowardEdge, isHeadingTowardZero. cbv zeta.
  set (vel := getVelocityDirection cfg s).
  intros [[Hp Hv]|[Hp Hv]].
  - rewrite (ltb_eq_false vel 0), (ltb_eq_false (ballPosition s) 0) by lra.
    rewrite andb_false_r. reflexivity.
  - rewrite (gtb_eq_false (ballPosition s) 0), (gtb_eq_false vel 0) by lra.
    rewrite andb_false_r. reflexivity.
Qed.

Lemma heading_toward_edge_1100 :
  HeadingTowardEdge defaultSettings
    (mkState (wavePosition defaultSettings 1100) true 1 (Some 0) 1100 (Some 0)
             None 0 false 0 false).
Proof.
  unfold HeadingTowardEdge. cbv zeta. rewrite velocity_default. cbn [ballPosition].
  rewrite wave_default. right. split; [apply sin_1100_neg | apply cos_1100_neg].
Qed.

(** ** Ramping up *)

Lemma tick_ramping (cfg : Settings) (t0 t : R) (s : State) :
  Ramping t0 s ->
  let s' := tickMotion cfg t s in
  speedMultiplier s' = rampSpeed t0 t
  /\ (t < t0 + RAMP_DURATION -> Ramping t0 s')
  /\ (t0 + RAMP_DURATION <= t -> FullSpeed s').
Proof.
  intros (Hw & Hd & Hr & Ht & Hs). destruct s; simpl in *; subst.
  unfold tickMotion, advanceEnvelope, finishDeceleration, Ramping, FullSpeed, rampSpeed.
  cbn.
  set (p := Rmin ((t - t0) / RAMP_DURATION) 1).
  assert (Hp : t0 + RAMP_DURATION <= t -> p = 1).
  { intros H. unfold p, RAMP_DURATION in *. apply Rmin_right. lra. }
  assert (Hq : t < t0 + RAMP_DURATION -> p < 1).
  { intros H. unfold p, RAMP_DURATION in *.
    apply Rle_lt_trans with ((t - t0) / 800); [apply Rmin_l | lra]. }
  cmp_cases 1 p; cbn.
  - split; [ring|]. split; [intros H; apply Hq in H; lra|].
    intros H. rewrite (Hp H), easeInOutCubic_1. repeat split; ring.
  - split; [ring|]. split; [intros _; repeat split|].
    intros H. apply Hp in H. lra.
Qed.

Lemma tick_fullSpeed (cfg : Settings) (t : R) (s : State) :
  FullSpeed s -> FullSpeed (tickMotion cfg t s).
Proof.
  intros (Hw & Hd & Hr & Hs). destruct s; simpl in *; subst.
  unfold tickMotion, advanceEnvelope, finishDeceleration, FullSpeed. cbn.
  repeat split; reflexivity.
Qed.

Lemma tick_ramping_or_fullSpeed (cfg : Settings) (t0 t : R) (s : State) :
  Ramping t0 s \/ FullSpeed s ->
  Ramping t0 (tickMotion cfg t s) \/ FullSpeed (tickMotion cfg t s).
Proof.
  intros [H|H].
  - destruct (tick_ramping cfg t0 t s H) as (_ & Hlt & Hge).
    destruct (Rlt_le_dec t (t0 + RAMP_DURATION)); [left|right]; auto.
  - right. apply tick_fullSpeed, H.
Qed.

Lemma runTicks_ramping_or_fullSpeed (cfg : Settings) (t0 : R) (ts : list R) :
  forall s, Ramping t0 s \/ FullSpeed s ->
            Ramping t0 (runTicks cfg ts s) \/ FullSpeed (runTicks cfg ts s).
Proof.
  induction ts as [|t ts IH]; intros s H; simpl; [exact H|].
  apply IH, tick_ramping_or_fullSpeed, H.
Qed.

Lemma speedTrace_fullSpeed (cfg : Settings) (ts : list R) :
  forall s, FullSpeed s -> Sorted Rle (1 :: speedTrace cfg ts s).
Proof.
  induction ts as [|t ts IH]; intros s H; simpl.
  - repeat constructor.
  - pose proof (tick_fullSpeed cfg t s H) as H'.
    assert (Hs : speedMultiplier (tickMotion cfg t s) = 1) by apply H'.
    rewrite Hs. constructor; [apply IH, H'|constructor; lra].
Qed.

Lemma speedTrace_ramping (cfg : Settings) (t0 : R) (ts : list R) :
  forall s v,
    Ramping t0 s -> Sorted Rlt ts ->
    (forall t, In t ts -> v <= rampSpeed t0 t) ->
    Sorted Rle (v :: speedTrace cfg ts s).
Proof.
  induction ts as [|t ts IH]; intros s v Hr Hsort Hv; simpl.
  - repeat constructor.
  - destruct (tick_ramping cfg t0 t s Hr) as (Hs & Hlt & Hge).
    rewrite Hs.
    assert (Hlater : forall t', In t' ts -> t < t').
    { apply Sorted_StronglySorted in Hsort; [|intros x y z; apply Rlt_trans].
      inversion Hsort as [|? ? _ Hall]; subst.
      intros t' Hin. rewrite Forall_forall in Hall. apply Hall, Hin. }
    constructor; [|constructor; apply Hv; left; reflexivity].
    destruct (Rlt_le_dec t (t0 + RAMP_DURATION)) as [Hc|Hc].
    + apply IH; [apply Hlt, Hc | inversion Hsort; assumption |].
      intros t' Hin. apply rampSpeed_mono. left. apply Hlater, Hin.
    + rewrite (rampSpeed_done t0 t Hc). apply speedTrace_fullSpeed, Hge, Hc.
Qed.

Lemma speedTrace_bounds (cfg : Settings) (t0 : R) (ts : list R) :
  forall s, Ramping t0 s \/ FullSpeed s -> Forall (Rle t0) ts ->
            Forall (fun v => 0 <= v <= 1) (speedTrace cfg ts s).
Proof.
  induction ts as [|t ts IH]; intros s Hs Hall; cbn; [constructor|].
  inversion Hall as [|? ? Ht Hall']; subst.
  constructor.
  - destruct Hs as [H|H].
    + destruct (tick_ramping cfg t0 t s H) as (-> & _).
      split; [apply rampSpeed_nonneg, Ht | apply rampSpeed_le_1].
    + destruct (tick_fullSpeed cfg t s H) as (_ & _ & _ & ->). lra.
  - apply IH; [apply tick_ramping_or_fullSpeed, Hs | exact Hall'].
Qed.

Lemma rampSpeed_lt_1 (t0 t : R) : t < t0 + RAMP_DURATION -> rampSpeed t0 t < 1.
Proof.
  intros H. unfold rampSpeed, RAMP_DURATION in *.
  set (p := Rmin ((t - t0) / 800) 1).
  assert (Hp : p < 1).
  { unfold p. apply Rle_lt_trans with ((t - t0) / 800); [apply Rmin_l | lra]. }
  unfold easeInOutCubic. cmp_cases p 0.5.
  - assert (Hc : p <= 0.5) by lra. pose proof (cube_mono p 0.5 Hc). lra.
  - assert (Hq : 0 < -2 * p + 2) by lra.
    assert (0 < (-2 * p + 2) ^ 3) by (apply pow_lt; exact Hq). lra.
Qed.

Lemma runTicks_ramping (cfg : Settings) (t0 : R) (ts : list R) :
  forall s, Ramping t0 s -> Forall (fun t => t < t0 + RAMP_DURATION) ts ->
            Ramping t0 (runTicks cfg ts s).
Proof.
  induction ts as [|t ts IH]; intros s Hr Hall; cbn; [exact Hr|].
  inversion Hall as [|? ? Ht Hall']; subst.
  apply IH; [|exact Hall']. apply (tick_ramping cfg t0 t s Hr), Ht.
Qed.

Lemma sorted_prefix_below (pre : list R) (t : R) (post : list R) :
  Sorted Rlt (pre ++ t :: post) -> Forall (fun x => x < t) pre.
Proof.
  intros Hsort.
  apply Sorted_StronglySorted in Hsort; [|intros x y z; apply Rlt_trans].
  induction pre as [|x pre IH]; [constructor|].
  cbn in Hsort. inversion Hsort as [|? ? Hrest Hall]; subst.
  constructor; [|apply IH, Hrest].
  rewrite Forall_forall in Hall. apply Hall, in_or_app. right. left. reflexivity.
Qed.

(** ** Waiting for the edge *)

Lemma tick_still_waiting (cfg : Settings) (t : R) (u : State) :
  waitingForEdge (tickMotion cfg t u) = true ->
  waitingForEdge u = true
  /\ speedMultiplier (tickMotion cfg t u) = speedMultiplier u.
Proof.
  destruct u. destruct waitingForEdge0, isDecelerating0;
    unfold_tick; cbn; repeat (break_if; cbn);
    intros H; try discriminate H; split; reflexivity.
Qed.

Lemma runTicks_still_waiting (cfg : Settings) (ts : list R) :
  forall u, waitingForEdge (runTicks cfg ts u) = true ->
            speedMultiplier (runTicks cfg ts u) = speedMultiplier u.
Proof.
  induction ts as [|t ts IH] using rev_ind; intros u H; [reflexivity|].
  rewrite runTicks_app in *. cbn in *.
  apply tick_still_waiting in H. destruct H as [Hw Hs].
  rewrite Hs. apply IH, Hw.
Qed.

(** On a triangle wave the edge test still looks at the sine of the phase:
    waiting for the edge at virtualTime 335, the frame that reaches 360 finds
    the sine above 0.99 and starts the deceleration, although the position of
    the triangle is only 0.96, and captures the sine, not that position. *)
Lemma triangle_edge_test_uses_sine :
  let u := mkState (wavePosition triangleSettings 335) false 1 (Some 0) 335 (Some 0)
                   None 0 false 0 true in
  let u' := tickMotion triangleSettings 25 u in
  isDecelerating u' = true /\ waitingForEdge u' = false
  /\ ballPosition u' = 0.96
  /\ 0.99 <= decelStartPosition u'.
Proof.
  cbv zeta. pose proof sin_360_range as Hs.
  rewrite tick_waiting_eq. cbv zeta. rewrite frameDelta_some.
  replace (Rmin (25 - 0) 50) with 25 by (rewrite Rmin_left; lra).
  replace (335 + 25 * 1) with 360 by ring.
  rewrite !triangle_rising by lra. rewrite period_triangle.
  rewrite geb_eq_true by (rewrite Rabs_pos_eq; lra).
  rewrite crossedZero_positive by lra.
  cbn. repeat split; try reflexivity; lra.
Qed.

(** ** Deceleration *)




Lemma decel_guard_stuck (n : nat) :
  forall ip sp l rst rd rss,
    let p := wavePosition defaultSettings 749 in
    let s := tickFixed defaultSettings 16 n
                       (mkState p ip sp (Some l) 749 rst rd rss true p false) in
    isDecelerating s = true /\ virtualTime s = 749 /\ ballPosition s = p.
Proof.
  pose proof sin_749_pos as Hpos. pose proof sin_749_small as Hsmall.
  induction n as [|n IH]; intros ip sp l rst rd rss; cbv zeta.
  - cbn. repeat split; reflexivity.
  - cbn [tickFixed lastTimestamp Js.num].
    rewrite tick_decel_eq. cbv zeta.
    rewrite gtb_eq_false by (rewrite wave_default, Rabs_pos_eq; lra).
    rewrite Rmult_0_r, Rplus_0_r, crossedZero_same.
    apply IH.
Qed.

(** The deceleration branch has no upper clamp: whenever the position is
    farther from the centre than the captured start position, the tick sets a
    speed above 1 (unless that very tick ends the episode). *)
Lemma decel_speed_above_one (cfg : Settings) (t : R) (s : State) :
  isDecelerating s = true -> waitingForEdge s = false ->
  0.01 < Rabs (decelStartPosition s) < Rabs (ballPosition s) ->
  let s' := tickMotion cfg t s in
  Finished s' \/ 1 < speedMultiplier s'.
Proof.
  intros Hd Hw [Hlo Hhi]. destruct s.
  cbn [isDecelerating waitingForEdge decelStartPosition ballPosition] in *. subst.
  cbv zeta. rewrite tick_decel_eq. cbv zeta.
  rewrite gtb_eq_true by assumption.
  destruct (crossedZero _ _).
  - left. unfold Finished. cbn. repeat split; reflexivity.
  - right. cbn [speedMultiplier].
    apply Rlt_le_trans with (sqrt (Rabs ballPosition0 / Rabs decelStartPosition0));
      [|apply Rmax_r].
    rewrite <- sqrt_1 at 1. apply sqrt_lt_1_alt. split; [lra|].
    apply Rmult_lt_reg_r with (Rabs decelStartPosition0); [lra|]. unfold Rdiv.
    rewrite Rmult_assoc, Rinv_l by lra. lra.
Qed.

(** ** A session in which the speed multiplier exceeds 1 *)

Lemma first_frame_after_ramp :
  step defaultSettings (Frame 800) (step defaultSettings (Press 0) initialState) =
  mkState 0 true 1 (Some 800) 0 (Some 0) None 0 false 0 false.
Proof.
  cbn [step]. rewrite play_from_initial. cbn [needsTick isPlaying orb].
  rewrite tick_ramp_eq. cbv zeta. rewrite frameDelta_none.
  cbn [Js.num]. unfold RAMP_DURATION.
  replace (Rmin ((800 - 0) / 800) 1) with 1 by (rewrite Rmin_right; lra).
  rewrite easeInOutCubic_1, geb_eq_true by lra.
  rewrite wave_default.
  replace ((0 + 0 * (0 + (1 - 0) * 1)) * (PI / 750)) with 0 by ring.
  rewrite sin_0. f_equal; ring.
Qed.

Lemma steady_frame (bp l l' vt vt' : R) :
  l' = l + 50 -> vt' = vt + 50 ->
  step defaultSettings (Frame l')
       (mkState bp true 1 (Some l) vt (Some 0) None 0 false 0 false) =
  mkState (sin (vt' * (PI / 750))) true 1 (Some l') vt' (Some 0) None 0 false 0 false.
Proof.
  intros -> ->. cbn [step needsTick isPlaying orb].
  rewrite tick_normal_eq by reflexivity. cbv zeta. rewrite frameDelta_some.
  replace (Rmin (l + 50 - l) 50) with 50 by (rewrite Rmin_left; lra).
  rewrite wave_default. rewrite Rmult_1_r. reflexivity.
Qed.

Lemma pause_step_at_300 :
  step defaultSettings (Press 1110)
       (mkState (sin (300 * (PI / 750))) true 1 (Some 1100) 300 (Some 0) None 0
                false 0 false) =
  mkState (sin (300 * (PI / 750))) false 1 (Some 1100) 300 (Some 0) None 0
          false 0 true.
Proof.
  pose proof sin_300_pos as Hs. pose proof cos_300_pos as Hc.
  cbn [step]. apply pause_toward_edge_eq.
  unfold isHeadingTowardZero. rewrite velocity_default. cbn [ballPosition].
  rewrite (ltb_eq_false (cos _) 0), (ltb_eq_false (sin _) 0) by lra.
  rewrite andb_false_r. reflexivity.
Qed.

Lemma edge_step_at_350 :
  step defaultSettings (Frame 1150)
       (mkState (sin (300 * (PI / 750))) false 1 (Some 1100) 300 (Some 0) None 0
                false 0 true) =
  mkState (sin (350 * (PI / 750))) false 1 (Some 1150) 350 (Some 0) None 0
          true (sin (350 * (PI / 750))) false.
Proof.
  pose proof sin_300_pos as Hs. pose proof sin_350_range as He.
  cbn [step needsTick isPlaying rampDirection notNull isDecelerating
       waitingForEdge orb].
  rewrite tick_waiting_eq. cbv zeta. rewrite frameDelta_some.
  replace (Rmin (1150 - 1100) 50) with 50 by (rewrite Rmin_left; lra).
  replace (300 + 50 * 1) with 350 by ring.
  rewrite wave_default.
  replace (350 / period defaultSettings * PI * 2) with (350 * (PI / 750))
    by (rewrite period_default; field).
  rewrite geb_eq_true by (rewrite Rabs_pos_eq; lra).
  rewrite crossedZero_positive by lra.
  reflexivity.
Qed.

Lemma peak_step_at_375 :
  step defaultSettings (Frame 1175)
       (mkState (sin (350 * (PI / 750))) false 1 (Some 1150) 350 (Some 0) None 0
                true (sin (350 * (PI / 750))) false) =
  mkState 1 false 1 (Some 1175) 375 (Some 0) None 0
          true (sin (350 * (PI / 750))) false.
Proof.
  pose proof sin_350_range as He.
  cbn [step needsTick isPlaying rampDirection notNull isDecelerating
       waitingForEdge orb].
  rewrite tick_decel_eq. cbv zeta. rewrite frameDelta_some.
  replace (Rmin (1175 - 1150) 50) with 25 by (rewrite Rmin_left; lra).
  rewrite gtb_eq_true by (rewrite Rabs_pos_eq; lra).
  replace (Rabs (sin (350 * (PI / 750))) / Rabs (sin (350 * (PI / 750)))) with 1
    by (rewrite Rabs_pos_eq by lra; field; lra).
  rewrite sqrt_1. replace (Rmax 0.08 1) with 1 by (rewrite Rmax_right; lra).
  replace (350 + 25 * 1) with 375 by ring.
  rewrite wave_default, sin_375.
  rewrite crossedZero_positive by lra.
  reflexivity.
Qed.

Lemma overshoot_speed_range (c : R) :
  0.99 <= c < 1 -> 1 < Rmax 0.08 (sqrt (Rabs 1 / Rabs c)) < 2.
Proof.
  intros [Hlo Hhi]. rewrite !Rabs_pos_eq by lra.
  assert (Hr : 1 < 1 / c < 2).
  { split.
    - apply Rmult_lt_reg_r with c; [lra|]. unfold Rdiv.
      rewrite Rmult_assoc, Rinv_l by lra. lra.
    - apply Rmult_lt_reg_r with c; [lra|]. unfold Rdiv.
      rewrite Rmult_assoc, Rinv_l by lra. lra. }
  assert (Hv : 1 < sqrt (1 / c)).
  { rewrite <- sqrt_1 at 1. apply sqrt_lt_1_alt. lra. }
  assert (Hw : sqrt (1 / c) < 1 / c) by (apply sqrt_less; lra).
  rewrite Rmax_right by lra. lra.
Qed.

Lemma overshoot_step_after_peak :
  let s := step defaultSettings (Frame 1191)
                (mkState 1 false 1 (Some 1175) 375 (Some 0) None 0
                         true (sin (350 * (PI / 750))) false) in
  1 < speedMultiplier s /\ isDecelerating s = true.
Proof.
  pose proof sin_350_range as He. pose proof PI_RGT_0 as Hpi.
  cbv zeta.
  cbn [step needsTick isPlaying rampDirection notNull isDecelerating
       waitingForEdge orb].
  rewrite tick_decel_eq. cbv zeta. rewrite frameDelta_some.
  replace (Rmin (1191 - 1175) 50) with 16 by (rewrite Rmin_left; lra).
  rewrite gtb_eq_true by (rewrite Rabs_pos_eq; lra).
  pose proof (overshoot_speed_range _ He) as Hv.
  set (v := Rmax 0.08 (sqrt (Rabs 1 / Rabs (sin (350 * (PI / 750)))))) in *.
  rewrite wave_default.
  assert (Hp : 0 < sin ((375 + 16 * v) * (PI / 750))) by (apply sin_gt_0; nra).
  rewrite crossedZero_positive by lra.
  cbn [speedMultiplier isDecelerating]. split; [lra|reflexivity].
Qed.

(** ** The speed multiplier is never negative *)

Lemma tick_speed_inv (cfg : Settings) (now t : R) (s : State) :
  SpeedInv now s -> now <= t -> SpeedInv t (tickMotion cfg t s).
Proof.
  intros (Hsp & Hrss & Hstart) Ht. destruct s.
  cbn [speedMultiplier rampStartSpeed rampDirection rampStartTime] in *.
  destruct waitingForEdge0.
  { destruct isDecelerating0; unfold_tick; cbn; repeat (break_if; cbn);
      unfold SpeedInv; cbn; repeat split; auto; try lra; try discriminate;
      intros H; apply Hstart in H; lra. }
  destruct isDecelerating0.
  { rewrite tick_decel_eq. cbv zeta.
    assert (Hv : 0 <= (if Js.gtb (Rabs decelStartPosition0) 0.01
                       then Rmax 0.08 (sqrt (Rabs ballPosition0 / Rabs decelStartPosition0))
                       else 0)).
    { break_if; [|lra]. apply Rle_trans with 0.08; [lra | apply Rmax_l]. }
    set (v := if Js.gtb (Rabs decelStartPosition0) 0.01 then _ else _) in *.
    destruct (crossedZero _ _); unfold SpeedInv; cbn;
      repeat split; auto; try lra; try discriminate.
    intros H; apply Hstart in H; lra. }
  destruct (isUp rampDirection0) eqn:Hup.
  - destruct rampDirection0 as [[|]|]; try discriminate.
    rewrite tick_ramp_eq. cbv zeta.
    specialize (Hstart eq_refl).
    set (p := Rmin ((t - Js.num rampStartTime0) / RAMP_DURATION) 1).
    assert (Hp : 0 <= p <= 1).
    { unfold p, RAMP_DURATION. split; [apply Rmin_glb; lra | apply Rmin_r]. }
    pose proof (easeInOutCubic_range p Hp) as He.
    unfold SpeedInv; cbn. repeat split; auto.
    + nra.
    + intros _. lra.
  - rewrite tick_normal_eq by assumption. cbv zeta.
    unfold SpeedInv; cbn. repeat split; auto. rewrite Hup. discriminate.
Qed.

Lemma step_speed_inv (cfg : Settings) (now : R) (e : Event) (s : State) :
  SpeedInv now s -> now <= eventTime e -> SpeedInv (eventTime e) (step cfg e s).
Proof.
  intros Hinv Ht. destruct e as [t|t]; cbn [step eventTime] in *.
  - destruct Hinv as (Hsp & Hrss & Hstart). destruct s.
    cbn [speedMultiplier rampStartSpeed rampDirection rampStartTime] in *.
    unfold togglePlayPause. destruct isPlaying0; cbn.
    + destruct (isHeadingTowardZero _ _); unfold SpeedInv; cbn;
        repeat split; auto; try lra; try discriminate.
      intros H; apply Hstart in H; lra.
    + unfold SpeedInv; cbn. repeat split; auto. intros _. lra.
  - destruct (needsTick s); [apply (tick_speed_inv cfg now); assumption|].
    destruct Hinv as (Hsp & Hrss & Hstart). repeat split; auto.
    intros H; apply Hstart in H; lra.
Qed.

Lemma run_speed_inv (cfg : Settings) (es : list Event) :
  forall now s,
    SpeedInv now s -> Sorted Rle (now :: map eventTime es) ->
    0 <= speedMultiplier (run cfg es s).
Proof.
  induction es as [|e es IH]; intros now s Hinv Hsort; cbn [run].
  - apply Hinv.
  - cbn [map] in Hsort. inversion Hsort as [|? ? Hrest Hhd]; subst.
    inversion Hhd; subst.
    apply (IH (eventTime e)); [apply (step_speed_inv cfg now)|]; assumption.
Qed.

(** In every state reached from the freshly loaded page by presses and frames
    in time order, the speed multiplier is not negative. *)
Lemma speed_nonnegative_when_reachable (cfg : Settings) (es : list Event) :
  Sorted Rle (map eventTime es) ->
  0 <= speedMultiplier (run cfg es initialState).
Proof.
  intros Hsort. destruct es as [|e es]; [cbn; lra|].
  apply (run_speed_inv cfg (e :: es) (eventTime e)).
  - unfold SpeedInv, initialState; cbn. repeat split; try lra; discriminate.
  - cbn [map]. constructor; [exact Hsort | constructor; apply Rle_refl].
Qed.

(** ** Doubles *)

Lemma double_mul_comm (x y : float) : (x * y)%float = (y * x)%float.
Proof.
  apply Prim2SF_inj. rewrite !mul_spec.
  destruct (Prim2SF x) as [sx|sx| |sx mx ex], (Prim2SF y) as [sy|sy| |sy my ey];
    unfold SF64mul, SFmul;
    rewrite ?(xorb_comm sx sy), ?(Pos.mul_comm mx my), ?(Z.add_comm ex ey);
    reflexivity.
Qed.

Lemma double_mul_nan_l (y : float) : (nan * y)%float = nan.
Proof.
  apply Prim2SF_inj. rewrite mul_spec.
  change (Prim2SF nan) with S754_nan. reflexivity.
Qed.

Lemma double_mul_nan_r (x : float) : (x * nan)%float = nan.
Proof. rewrite double_mul_comm. apply double_mul_nan_l. Qed.

Lemma Math_min_nan_l (b : float) : Double.Math_min nan b = nan.
Proof. reflexivity. Qed.

Lemma Math_floor_nan : Double.Math_floor nan = Double.NotANumber.
Proof. reflexivity. Qed.

Lemma toIndex_normal (x : Double.Floor) (n : Z) :
  Double.toIndex x = Normal n ->
  (0 <= n <= 2 ^ 53 - 1)%Z /\ Z.to_nat n = Double.iterations x
  /\ (x = Double.NotANumber /\ n = 0%Z \/ x = Double.Integer n).
Proof.
  destruct x as [|s|z]; cbn [Double.toIndex Double.iterations].
  - intros H. inversion H. repeat split; try lia. left. split; reflexivity.
  - discriminate.
  - destruct ((0 <=? z)%Z && (z <=? 2 ^ 53 - 1)%Z) eqn:E; [|discriminate].
    intros H. inversion H. subst n.
    apply andb_true_iff in E. destruct E as [E1 E2].
    apply Z.leb_le in E1, E2. repeat split; try lia. right. reflexivity.
Qed.

Lemma toIndex_integer (z : Z) :
  (0 <= z <= 2 ^ 53 - 1)%Z -> Double.toIndex (Double.Integer z) = Normal z.
Proof.
  intros [H1 H2]. cbn [Double.toIndex].
  apply Z.leb_le in H1, H2. rewrite H1, H2. reflexivity.
Qed.

Lemma toR_nonfinite (x : float) : is_finite x = false -> Double.toR x = 0.
Proof.
  unfold is_finite, is_infinity, is_nan.
  rewrite !FloatAxioms.eqb_spec, abs_spec.
  unfold Double.toR, Double.toRatio.
  destruct (Prim2SF x) as [s|s| |s m e]; cbn; intros H; try discriminate;
    try (unfold Rdiv; rewrite Rmult_0_l; reflexivity).
  exfalso. revert H.
  unfold SFeqb, SFcompare. cbn.
  rewrite Z.compare_refl, Pos.compare_cont_refl.
  destruct s; cbn; discriminate.
Qed.

(** ** Reverb: the buffers of the context *)

Lemma overwrite_length (src dst : list R) :
  List.length (overwrite src dst) = List.length dst.
Proof.
  unfold overwrite. rewrite length_app, length_firstn, length_skipn. lia.
Qed.

Lemma overwrite_full (src dst : list R) :
  List.length src = List.length dst -> overwrite src dst = src.
Proof.
  intros H. unfold overwrite.
  rewrite <- H, firstn_all, H, skipn_all, app_nil_r. reflexivity.
Qed.

Lemma overwrite_nth (src : list R) (n i : nat) :
  (i < n)%nat ->
  nth i (overwrite src (repeat 0 n)) 0
  = if (i <? List.length src)%nat then nth i src 0 else 0.
Proof.
  intros Hi. unfold overwrite. rewrite repeat_length.
  destruct (Nat.ltb_spec i (List.length src)) as [H|H].
  - rewrite app_nth1 by (rewrite length_firstn; lia).
    rewrite nth_firstn. destruct (Nat.ltb_spec i n); [reflexivity | lia].
  - rewrite app_nth2 by (rewrite length_firstn; lia).
    rewrite length_firstn, nth_skipn. apply nth_repeat.
Qed.

Lemma toUnsignedLong_range (x : Double.Floor) :
  (0 <= Double.toUnsignedLong x < 2 ^ 32)%Z.
Proof.
  destruct x; cbn [Double.toUnsignedLong]; try lia.
  apply Z.mod_pos_bound. lia.
Qed.

Lemma toUnsignedLong_small (z : Z) :
  (0 <= z < 2 ^ 32)%Z -> Double.toUnsignedLong (Double.Integer z) = z.
Proof. intros H. cbn [Double.toUnsignedLong]. apply Z.mod_small, H. Qed.

Lemma createBuffer_normal (ctx : AudioContext) (x : Double.Floor) (rate : float)
      (b : AudioBuffer) :
  createBuffer ctx 2 x rate = Normal b ->
  let frames := Double.toUnsignedLong x in
  b = mkAudioBuffer frames rate
        [repeat 0 (Z.to_nat frames); repeat 0 (Z.to_nat frames)]
  /\ (1 <= frames)%Z /\ is_finite rate = true /\ ctx_supports ctx frames rate = true.
Proof.
  unfold createBuffer. cbv zeta.
  pose proof (toUnsignedLong_range x) as Hr.
  destruct (is_finite rate); cbn [negb]; [|discriminate].
  cbn [Nat.eqb orb].
  destruct (Z.eqb_spec (Double.toUnsignedLong x) 0) as [E|E]; [discriminate|].
  destruct (ctx_supports ctx (Double.toUnsignedLong x) rate); cbn [negb orb];
    [|discriminate].
  intros H. inversion H. repeat split; try reflexivity. lia.
Qed.

Lemma createBuffer_granted (ctx : AudioContext) (x : Double.Floor) (rate : float) :
  let frames := Double.toUnsignedLong x in
  (1 <= frames)%Z -> is_finite rate = true -> ctx_supports ctx frames rate = true ->
  createBuffer ctx 2 x rate
  = Normal (mkAudioBuffer frames rate
              [repeat 0 (Z.to_nat frames); repeat 0 (Z.to_nat frames)]).
Proof.
  cbv zeta. intros Hf Hfin Hs. unfold createBuffer. cbv zeta.
  rewrite Hfin, Hs. cbn [negb Nat.eqb orb].
  destruct (Z.eqb_spec (Double.toUnsignedLong x) 0) as [E|E]; [lia|]. reflexivity.
Qed.

Lemma createBuffer_empty (ctx : AudioContext) (x : Double.Floor) (rate : float) :
  Double.toUnsignedLong x = 0%Z -> is_finite rate = true ->
  createBuffer ctx 2 x rate = Throw NotSupportedError.
Proof.
  intros Hf Hfin. unfold createBuffer. cbv zeta. rewrite Hfin, Hf. reflexivity.
Qed.

(** The two copies into a fresh two-channel buffer. *)
Lemma copy_two_channels (frames : Z) (rate : float) (c0 c1 : list R) :
  let silent := repeat 0 (Z.to_nat frames) in
  (do impulse <- copyToChannel (Some c0) 0 (mkAudioBuffer frames rate [silent; silent]);
   copyToChannel (Some c1) 1 impulse)
  = Normal (mkAudioBuffer frames rate [overwrite c0 silent; overwrite c1 silent]).
Proof. reflexivity. Qed.

Lemma double_eqb_refl (x : float) : is_finite x = true -> PrimFloat.eqb x x = true.
Proof.
  unfold is_finite, is_infinity, is_nan.
  destruct (PrimFloat.eqb x x); [reflexivity | cbn; discriminate].
Qed.

Lemma setBuffer_own_rate (ctx : AudioContext) (frames : Z) (c0 c1 : list R) :
  is_finite (ctx_sampleRate ctx) = true ->
  setBuffer ctx (mkAudioBuffer frames (ctx_sampleRate ctx) [c0; c1])
  = Normal (Some (mkAudioBuffer frames (ctx_sampleRate ctx) [c0; c1])).
Proof.
  intros Hfin. unfold setBuffer. cbv zeta. cbn [buf_data buf_sampleRate List.length].
  rewrite (double_eqb_refl _ Hfin). reflexivity.
Qed.

(** ** Reverb: responses *)

Lemma deliver_app (es1 es2 : list Response) (r : Reverb) :
  deliver (es1 ++ es2) r = deliver es2 (deliver es1 r).
Proof. unfold deliver. apply fold_left_app. Qed.

Lemma reverbOnMessage_keeps_nodes (e : Response) (r : Reverb) :
  let r' := settle r (reverbOnMessage e r) in
  audioContext r' = audioContext r
  /\ (reverbConvolver r <> None -> reverbConvolver r' <> None)
  /\ reverbWorker r' = reverbWorker r
  /\ reverbRequestId r' = reverbRequestId r.
Proof.
  cbv zeta. unfold reverbOnMessage.
  destruct (audioContext r) as [ctx|] eqn:Hc, (reverbConvolver r) as [conv|] eqn:Hv;
    cbn [settle]; rewrite ?Hc, ?Hv; try (repeat split; auto; fail).
  destruct (impulseOfResponse ctx e) as [b|err]; cbn [bind settle];
    rewrite ?Hc, ?Hv; try (repeat split; auto; discriminate).
  destruct (setBuffer ctx b) as [buffer|err]; cbn [bind settle];
    rewrite ?Hc, ?Hv; repeat split; auto; discriminate.
Qed.

Lemma deliver_keeps_nodes (es : list Response) :
  forall r, audioContext (deliver es r) = audioContext r
            /\ (reverbConvolver r <> None -> reverbConvolver (deliver es r) <> None)
            /\ reverbWorker (deliver es r) = reverbWorker r
            /\ reverbRequestId (deliver es r) = reverbRequestId r.
Proof.
  induction es as [|e es IH]; intros r; [cbn; auto|].
  change (deliver (e :: es) r) with (deliver es (settle r (reverbOnMessage e r))).
  destruct (IH (settle r (reverbOnMessage e r))) as (H1 & H2 & H3 & H4).
  destruct (reverbOnMessage_keeps_nodes e r) as (K1 & K2 & K3 & K4).
  rewrite H1, H3, H4, K1, K3, K4. repeat split; auto.
Qed.

Lemma impulseOfResponse_granted (ctx : AudioContext) (e : Response)
      (c0 c1 : list R) (rest : list (list R)) :
  let frames := Double.toUnsignedLong (resp_length e) in
  let silent := repeat 0 (Z.to_nat frames) in
  resp_channels e = c0 :: c1 :: rest ->
  (1 <= frames)%Z -> is_finite (resp_sampleRate e) = true ->
  ctx_supports ctx frames (resp_sampleRate e) = true ->
  impulseOfResponse ctx e
  = Normal (mkAudioBuffer frames (resp_sampleRate e)
              [overwrite c0 silent; overwrite c1 silent]).
Proof.
  cbv zeta. intros Hch Hf Hfin Hs. unfold impulseOfResponse, channelOf.
  rewrite (createBuffer_granted ctx _ _ Hf Hfin Hs), Hch. reflexivity.
Qed.

Lemma impulseOfResponse_refused (ctx : AudioContext) (e : Response) (err : Error) :
  createBuffer ctx 2 (resp_length e) (resp_sampleRate e) = Throw err ->
  impulseOfResponse ctx e = Throw err.
Proof. intros H. unfold impulseOfResponse. rewrite H. reflexivity. Qed.

Lemma reverbOnMessage_granted (e : Response) (r : Reverb) (ctx : AudioContext)
      (conv : option AudioBuffer) (b : AudioBuffer) :
  audioContext r = Some ctx -> reverbConvolver r = Some conv ->
  impulseOfResponse ctx e = Normal b -> setBuffer ctx b = Normal (Some b) ->
  reverbOnMessage e r
  = Normal (mkReverb (Some ctx) (Some (Some b)) (reverbWorker r) (reverbRequestId r)).
Proof.
  intros Hc Hv Hb Hset. unfold reverbOnMessage. rewrite Hc, Hv, Hb. cbn [bind].
  rewrite Hset. reflexivity.
Qed.

Lemma reverbOnMessage_refused (e : Response) (r : Reverb) (ctx : AudioContext)
      (conv : option AudioBuffer) (err : Error) :
  audioContext r = Some ctx -> reverbConvolver r = Some conv ->
  impulseOfResponse ctx e = Throw err ->
  reverbOnMessage e r = Throw err.
Proof.
  intros Hc Hv Hb. unfold reverbOnMessage. rewrite Hc, Hv, Hb. reflexivity.
Qed.

Lemma deliver_last_granted (earlier : list Response) (e : Response) (r : Reverb)
      (ctx : AudioContext) (conv : option AudioBuffer) (b : AudioBuffer) :
  audioContext r = Some ctx -> reverbConvolver r = Some conv ->
  impulseOfResponse ctx e = Normal b -> setBuffer ctx b = Normal (Some b) ->
  deliver (earlier ++ [e]) r
  = mkReverb (Some ctx) (Some (Some b)) (reverbWorker r) (reverbRequestId r).
Proof.
  intros Hc Hv Hb Hset. rewrite deliver_app.
  destruct (deliver_keeps_nodes earlier r) as (H1 & H2 & H3 & H4).
  destruct (reverbConvolver (deliver earlier r)) as [conv'|] eqn:Hd;
    [|exfalso; apply H2; [rewrite Hv; discriminate | reflexivity]].
  cbn [deliver fold_left].
  rewrite (reverbOnMessage_granted e _ ctx conv' b) by (rewrite ?H1; assumption).
  cbn [settle]. rewrite H3, H4. reflexivity.
Qed.

Lemma deliver_last_refused (earlier : list Response) (e : Response) (r : Reverb)
      (ctx : AudioContext) (conv : option AudioBuffer) (err : Error) :
  audioContext r = Some ctx -> reverbConvolver r = Some conv ->
  impulseOfResponse ctx e = Throw err ->
  deliver (earlier ++ [e]) r = deliver earlier r.
Proof.
  intros Hc Hv Hb. rewrite deliver_app.
  destruct (deliver_keeps_nodes earlier r) as (H1 & H2 & H3 & H4).
  destruct (reverbConvolver (deliver earlier r)) as [conv'|] eqn:Hd;
    [|exfalso; apply H2; [rewrite Hv; discriminate | reflexivity]].
  cbn [deliver fold_left].
  rewrite (reverbOnMessage_refused e _ ctx conv' err) by (rewrite ?H1; assumption).
  reflexivity.
Qed.

(** ** Reverb: length and samples of the generated impulse *)

Lemma fillChannel_length (f : nat -> R -> nat -> R * nat) (n : nat) :
  forall i prev c, List.length (fst (fillChannel f n i prev c)) = n.
Proof.
  induction n as [|n IH]; intros i prev c; cbn; [reflexivity|].
  destruct (f i prev c) as [x c1].
  specialize (IH (S i) x c1).
  destruct (fillChannel f n (S i) x c1) as [rest c2]. cbn in *.
  f_equal. exact IH.
Qed.

Lemma fillChannel_ext (f g : nat -> R -> nat -> R * nat) (n : nat) :
  (forall i prev c, f i prev c = g i prev c) ->
  forall i prev c, fillChannel f n i prev c = fillChannel g n i prev c.
Proof.
  intros Hfg. induction n as [|n IH]; intros i prev c; cbn; [reflexivity|].
  rewrite Hfg. destruct (g i prev c) as [x c1]. rewrite IH. reflexivity.
Qed.

Ltac by_preset_key type :=
  unfold PRESETS, presets, lookup;
  repeat (destruct (String.eqb type _); [try reflexivity; try discriminate; try tauto|]);
  destruct (existsb (String.eqb type) objectPrototypeKeys);
  try reflexivity; try discriminate; try tauto.

Lemma presetFor_cases (type : string) :
  presetFor type = PRESETS_room \/ presetFor type = PRESETS_hall
  \/ presetFor type = PRESETS_plate \/ presetFor type = PRESETS_cathedral
  \/ (PRESETS type = Inherited /\ presetFor type = inheritedMember).
Proof. unfold presetFor. by_preset_key type. Qed.

Lemma presetFor_not_inherited (type : string) :
  PRESETS type <> Inherited ->
  presetFor type = PRESETS_room \/ presetFor type = PRESETS_hall
  \/ presetFor type = PRESETS_plate \/ presetFor type = PRESETS_cathedral.
Proof.
  intros H. destruct (presetFor_cases type) as [E|[E|[E|[E|[E _]]]]]; tauto.
Qed.

Lemma durationMult_specified (type : string) :
  PRESETS type <> Inherited ->
  durationMult (presetFor type) = presetDurationMultiplier type.
Proof.
  unfold presetFor, presetDurationMultiplier, PRESETS, lookup.
  repeat (destruct (String.eqb type _); [reflexivity|]).
  destruct (existsb (String.eqb type) objectPrototypeKeys);
    [intros H; exfalso; apply H; reflexivity | reflexivity].
Qed.

Lemma fallbackPreset_eq (type : string) (decay : float) :
  Double.Math_min (duration (fallbackPreset type decay)) 6
  = Double.Math_min (durationMult (presetFor type) * decay) 6
  /\ fb_earlyDelay (fallbackPreset type decay) = earlyDelay (presetFor type)
  /\ fb_diffusion (fallbackPreset type decay) = diffusion (presetFor type)
  /\ fb_damping (fallbackPreset type decay) = damping (presetFor type).
Proof.
  unfold fallbackPreset, presetFor, presets, PRESETS, lookup.
  repeat (destruct (String.eqb type _);
          [cbn [duration fb_earlyDelay fb_diffusion fb_damping
                durationMult earlyDelay diffusion damping
                PRESETS_room PRESETS_hall PRESETS_plate PRESETS_cathedral];
           rewrite (double_mul_comm decay); repeat split; reflexivity|]).
  destruct (existsb (String.eqb type) objectPrototypeKeys);
    cbn [duration fb_earlyDelay fb_diffusion fb_damping
         durationMult earlyDelay diffusion damping PRESETS_room inheritedMember].
  - rewrite double_mul_nan_l. repeat split; reflexivity.
  - rewrite (double_mul_comm decay). repeat split; reflexivity.
Qed.

Lemma fallbackSample_eq rnd preset sampleRate decay length stereoOffset i prev c :
  fallbackSample rnd (earlyDelay preset) (diffusion preset) (damping preset)
                 sampleRate decay length stereoOffset i prev c
  = workerSample rnd preset sampleRate decay length stereoOffset i prev c.
Proof.
  unfold fallbackSample, workerSample. cbv zeta.
  replace (- (INR i / sampleRate) / (decay * 0.5))
    with (- (INR i / sampleRate) * (1 / (decay * 0.5)))
    by (unfold Rdiv; ring).
  replace (INR i / length) with (INR i * (1 / length))
    by (unfold Rdiv; ring).
  destruct (Js.ltb (INR i / sampleRate) (Double.toR (earlyDelay preset) * 3));
    destruct (Js.gtb (Double.toR (diffusion preset)) 0.5 && (0 <? i)%nat);
    f_equal; ring.
Qed.

Lemma impulseLength_specified (rate : float) (type : string) (decay : float) :
  PRESETS type <> Inherited ->
  Double.Math_floor (rate * Double.Math_min (durationMult (presetFor type) * decay) 6)
  = specifiedLength rate type decay.
Proof.
  intros H. unfold specifiedLength.
  rewrite (durationMult_specified type H), double_mul_comm. reflexivity.
Qed.

Lemma impulseLength_inherited (rate : float) (type : string) (decay : float) :
  PRESETS type = Inherited ->
  Double.Math_floor (rate * Double.Math_min (durationMult (presetFor type) * decay) 6)
  = Double.NotANumber.
Proof.
  intros H. unfold presetFor. rewrite H. cbn [durationMult inheritedMember].
  rewrite double_mul_nan_l, Math_min_nan_l, double_mul_nan_r. reflexivity.
Qed.

(** The worker's impulse and the fallback's buffer, side by side. *)
Lemma impulse_and_fallback (rnd : Noise) (ctx : AudioContext) (type : string)
      (decay : float) (n : Z) :
  let rate := ctx_sampleRate ctx in
  let len :=
    Double.Math_floor
      (rate * Double.Math_min (durationMult (presetFor type) * decay) 6) in
  let frames := Double.toUnsignedLong len in
  Double.toIndex len = Normal n ->
  exists c0 c1,
    generateImpulse rnd rate type decay = Normal (mkImpulse [c0; c1] len rate)
    /\ List.length c0 = Z.to_nat n /\ List.length c1 = Z.to_nat n
    /\ createReverbImpulseFallback rnd ctx type decay
       = do silent <- createBuffer ctx 2 len rate;
         Normal (mkAudioBuffer frames rate
                   [overwrite c0 (repeat 0 (Z.to_nat frames));
                    overwrite c1 (repeat 0 (Z.to_nat frames))]).
Proof.
  cbv zeta. intros Hn.
  unfold generateImpulse, createReverbImpulseFallback. cbv zeta.
  destruct (fallbackPreset_eq type decay) as (-> & -> & -> & ->).
  set (len := Double.Math_floor
                (ctx_sampleRate ctx
                 * Double.Math_min (durationMult (presetFor type) * decay) 6)) in *.
  rewrite Hn. cbn [bind].
  destruct (toIndex_normal len n Hn) as (_ & <- & _).
  set (rate := Double.toR (ctx_sampleRate ctx)).
  set (dec := Double.toR decay).
  rewrite (fillChannel_ext _ _ _
             (fun i prev c => fallbackSample_eq rnd (presetFor type) rate dec
                                (Double.number len) 1 i prev c)).
  pose proof (fillChannel_length
                (workerSample rnd (presetFor type) rate dec (Double.number len) 1)
                (Z.to_nat n) 0 0 0) as Hl0.
  destruct (fillChannel (workerSample rnd (presetFor type) rate dec
                                      (Double.number len) 1)
                        (Z.to_nat n) 0 0 0) as [data0 k0].
  rewrite (fillChannel_ext _ _ _
             (fun i prev c => fallbackSample_eq rnd (presetFor type) rate dec
                                (Double.number len) 0.97 i prev c)).
  pose proof (fillChannel_length
                (workerSample rnd (presetFor type) rate dec (Double.number len) 0.97)
                (Z.to_nat n) 0 0 k0) as Hl1.
  destruct (fillChannel (workerSample rnd (presetFor type) rate dec
                                      (Double.number len) 0.97)
                        (Z.to_nat n) 0 0 k0) as [data1 k1].
  cbn [fst] in Hl0, Hl1.
  exists data0, data1. split; [reflexivity|]. split; [exact Hl0|]. split; [exact Hl1|].
  destruct (createBuffer ctx 2 len (ctx_sampleRate ctx)) as [b|err] eqn:Hb;
    [|reflexivity].
  destruct (createBuffer_normal ctx len _ b Hb) as (-> & _).
  cbn [bind]. apply copy_two_channels.
Qed.

Lemma generateImpulse_throws (rnd : Noise) (rate : float) (type : string)
      (decay : float) (err : Error) :
  Double.toIndex
    (Double.Math_floor
       (rate * Double.Math_min (durationMult (presetFor type) * decay) 6))
  = Throw err ->
  generateImpulse rnd rate type decay = Throw err.
Proof. intros H. unfold generateImpulse. cbv zeta. rewrite H. reflexivity. Qed.

(** The fallback's buffer, whatever the worker would do. *)
Lemma fallback_shape (rnd : Noise) (ctx : AudioContext) (type : string)
      (decay : float) :
  let rate := ctx_sampleRate ctx in
  let len :=
    Double.Math_floor
      (rate * Double.Math_min (durationMult (presetFor type) * decay) 6) in
  let frames := Double.toUnsignedLong len in
  match createBuffer ctx 2 len rate with
  | Normal _ =>
      exists d0 d1,
        createReverbImpulseFallback rnd ctx type decay
        = Normal (mkAudioBuffer frames rate [d0; d1])
        /\ List.length d0 = Z.to_nat frames /\ List.length d1 = Z.to_nat frames
  | Throw err => createReverbImpulseFallback rnd ctx type decay = Throw err
  end.
Proof.
  cbv zeta. unfold createReverbImpulseFallback. cbv zeta.
  destruct (fallbackPreset_eq type decay) as (-> & _).
  set (len := Double.Math_floor
                (ctx_sampleRate ctx
                 * Double.Math_min (durationMult (presetFor type) * decay) 6)) in *.
  destruct (createBuffer ctx 2 len (ctx_sampleRate ctx)) as [b|err] eqn:Hb;
    [|reflexivity].
  destruct (createBuffer_normal ctx len _ b Hb) as (-> & _).
  cbn [bind].
  destruct (fillChannel _ (Double.iterations len) 0 0 0) as [data0 k0].
  destruct (fillChannel _ (Double.iterations len) 0 0 k0) as [data1 k1].
  rewrite copy_two_channels.
  eexists _, _. split; [reflexivity|].
  rewrite !overwrite_length, repeat_length. split; reflexivity.
Qed.

Lemma workerOnMessage_normal (rnd : Noise) (q : Request) (e : Response) :
  workerOnMessage rnd q = Normal e ->
  exists imp,
    generateImpulse rnd (req_sampleRate q) (req_type q) (req_decay q) = Normal imp
    /\ e = mkResponse (req_id q) (channels imp) (length imp) (sampleRate imp).
Proof.
  unfold workerOnMessage.
  destruct (generateImpulse rnd (req_sampleRate q) (req_type q) (req_decay q))
    as [imp|err]; cbn [bind]; intros H; inversion H.
  exists imp. split; reflexivity.
Qed.

(** A type that names an inherited member gives a NaN length: the worker
    returns two empty channels and the fallback is refused its buffer. *)
Lemma inherited_type_gives_no_samples (rnd : Noise) (ctx : AudioContext)
      (type : string) (decay : float) :
  PRESETS type = Inherited ->
  generateImpulse rnd (ctx_sampleRate ctx) type decay
  = Normal (mkImpulse [[]; []] Double.NotANumber (ctx_sampleRate ctx))
  /\ exists err, createReverbImpulseFallback rnd ctx type decay = Throw err.
Proof.
  intros H.
  pose proof (impulseLength_inherited (ctx_sampleRate ctx) type decay H) as Hlen.
  destruct (impulse_and_fallback rnd ctx type decay 0) as (c0 & c1 & Hgen & L0 & L1 & Hfb).
  { rewrite Hlen. reflexivity. }
  rewrite Hlen in Hgen, Hfb.
  destruct c0; [|discriminate]. destruct c1; [|discriminate].
  split; [exact Hgen|].
  rewrite Hfb. unfold createBuffer. cbv zeta. cbn [Double.toUnsignedLong].
  destruct (is_finite (ctx_sampleRate ctx)); cbn; eexists; reflexivity.
Qed.

Lemma constructor_type_gives_no_samples (rnd : Noise) :
  let ctx := mkAudioContext 44100 (fun _ _ => true) in
  PRESETS "constructor" = Inherited
  /\ generateImpulse rnd 44100 "constructor" 2
     = Normal (mkImpulse [[]; []] Double.NotANumber 44100)
  /\ createReverbImpulseFallback rnd ctx "constructor" 2 = Throw NotSupportedError.
Proof.
  cbv zeta. split; [reflexivity|].
  destruct (inherited_type_gives_no_samples
              rnd (mkAudioContext 44100 (fun _ _ => true)) "constructor" 2 eq_refl)
    as [Hgen _].
  split; [exact Hgen|].
  pose proof (fallback_shape rnd (mkAudioContext 44100 (fun _ _ => true))
                "constructor" 2) as H.
  cbv zeta in H.
  rewrite (impulseLength_inherited _ "constructor" 2 eq_refl) in H. exact H.
Qed.

(** ** Reverb: from a settings change to the convolver *)

Lemma worker_response_shape (rnd : Noise) (q : Request) (e : Response) :
  workerOnMessage rnd q = Normal e ->
  exists c0 c1 n,
    e = mkResponse (req_id q) [c0; c1] (resp_length e) (req_sampleRate q)
    /\ Double.toIndex (resp_length e) = Normal n
    /\ Z.of_nat (List.length c0) = n /\ Z.of_nat (List.length c1) = n.
Proof.
  intros He. destruct (workerOnMessage_normal rnd q e He) as (imp & Hgen & ->).
  set (ctx := mkAudioContext (req_sampleRate q) (fun _ _ => true)).
  destruct (Double.toIndex
              (Double.Math_floor
                 (ctx_sampleRate ctx
                  * Double.Math_min
                      (durationMult (presetFor (req_type q)) * req_decay q) 6)))
    as [n|err] eqn:Hn.
  - destruct (impulse_and_fallback rnd ctx (req_type q) (req_decay q) n Hn)
      as (c0 & c1 & Hgen' & L0 & L1 & _).
    cbn [ctx_sampleRate ctx] in Hgen'. rewrite Hgen in Hgen'.
    inversion Hgen'; subst imp. cbn [channels length sampleRate resp_length].
    destruct (toIndex_normal _ n Hn) as (Hn0 & _).
    exists c0, c1, n. split; [reflexivity|]. split; [exact Hn|]. split; lia.
  - pose proof (generateImpulse_throws rnd _ _ _ err Hn) as Hthrow.
    cbn [ctx_sampleRate ctx] in Hthrow. rewrite Hgen in Hthrow. discriminate.
Qed.

(** Two settings changes in a row post requests 1 and 2.  If the response to
    request 1 is delivered after the response to request 2, the convolver ends
    up with the impulse of request 1, the superseded one. *)
Lemma stale_response_overwrites
      (rnd1 rnd2 : Noise) (ctx : AudioContext) (conv : option AudioBuffer)
      (type1 type2 : string) (decay1 decay2 : float) (e1 e2 : Response) (n : Z) :
  let rate := ctx_sampleRate ctx in
  let r0 := mkReverb (Some ctx) (Some conv) true 0 in
  let q1 := mkRequest 1 rate type1 decay1 in
  let q2 := mkRequest 2 rate type2 decay2 in
  let r1 := mkReverb (Some ctx) (Some conv) true 1 in
  let r2 := mkReverb (Some ctx) (Some conv) true 2 in
  updateReverbImpulse rnd1 type1 decay1 r0 = Normal (r1, Some q1)
  /\ updateReverbImpulse rnd2 type2 decay2 r1 = Normal (r2, Some q2)
  /\ (workerOnMessage rnd1 q1 = Normal e1 ->
      workerOnMessage rnd2 q2 = Normal e2 ->
      resp_length e1 = Double.Integer n -> (1 <= n < 2 ^ 32)%Z ->
      is_finite rate = true -> ctx_supports ctx n rate = true ->
      resp_id e1 = 1%nat
      /\ deliver [e2; e1] r2
         = mkReverb (Some ctx)
                    (Some (Some (mkAudioBuffer n rate (resp_channels e1)))) true 2).
Proof.
  cbv zeta. split; [reflexivity|]. split; [reflexivity|].
  intros H1 _ Hlen Hn Hfin Hs.
  destruct (worker_response_shape rnd1 _ e1 H1) as (c0 & c1 & m & He1 & Hm & L0 & L1).
  rewrite Hlen in Hm. rewrite toIndex_integer in Hm by lia.
  injection Hm as Hm. subst m.
  destruct e1 as [id1 ch1 len1 rate1].
  cbn [resp_length resp_id resp_channels req_id req_sampleRate] in *.
  injection He1 as -> -> ->. subst len1. split; [reflexivity|].
  set (e := mkResponse 1 [c0; c1] (Double.Integer n) (ctx_sampleRate ctx)).
  assert (Himp : impulseOfResponse ctx e
                 = Normal (mkAudioBuffer n (ctx_sampleRate ctx) [c0; c1])).
  { rewrite (impulseOfResponse_granted ctx e c0 c1 []);
      cbn [e resp_channels resp_length resp_sampleRate];
      rewrite ?toUnsignedLong_small by lia; try assumption; try lia; try reflexivity.
    rewrite !overwrite_full by (rewrite repeat_length; lia). reflexivity. }
  exact (deliver_last_granted [e2] e (mkReverb (Some ctx) (Some conv) true 2) ctx conv
           _ eq_refl eq_refl Himp (setBuffer_own_rate ctx n c0 c1 Hfin)).
Qed.

(** Without a worker the settings change installs the fallback's buffer at
    once, or ends with the exception of the fallback. *)
Lemma update_without_worker (rnd : Noise) (ctx : AudioContext)
      (conv : option AudioBuffer) (type : string) (decay : float) (id : nat) :
  let r := mkReverb (Some ctx) (Some conv) false id in
  match createReverbImpulseFallback rnd ctx type decay with
  | Normal b =>
      updateReverbImpulse rnd type decay r
      = Normal (mkReverb (Some ctx) (Some (Some b)) false id, None)
  | Throw err => updateReverbImpulse rnd type decay r = Throw err
  end.
Proof.
  cbv zeta. unfold updateReverbImpulse. cbn [audioContext reverbConvolver reverbWorker].
  pose proof (fallback_shape rnd ctx type decay) as Hshape. cbv zeta in Hshape.
  destruct (createBuffer ctx 2 _ (ctx_sampleRate ctx)) as [silent|err] eqn:Hb.
  - destruct Hshape as (d0 & d1 & -> & _). cbn [bind].
    destruct (createBuffer_normal ctx _ _ silent Hb) as (_ & _ & Hfin & _).
    rewrite (setBuffer_own_rate ctx _ d0 d1 Hfin). reflexivity.
  - rewrite Hshape. reflexivity.
Qed.

(** * The specification, claim by claim *)



(** C2, amended.  When pause is pressed while the oscillator is heading
    toward an edge (velocity sign agrees with position sign), the system
    enters WaitingForEdge with speedMultiplier forced to 1 and the ramp
    cancelled, and speedMultiplier is still 1 after every run of ticks that
    ends in WaitingForEdge.  For the Sine motion type a tick in WaitingForEdge
    whose new position has magnitude below 0.99 keeps waiting, and a tick that
    leaves the position with magnitude at least 0.99 captures
    decelStartPosition = position (the signed value, so that
    |decelStartPosition| = |position|) and transitions to Decelerating. *)
Theorem pause_toward_edge_waits_for_edge (cfg : Settings) (now : R) (s : State) :
  isPlaying s = true -> isDecelerating s = false ->
  HeadingTowardEdge cfg s ->
  let w := togglePlayPause cfg now s in
  WaitingAtFullSpeed w
  /\ (forall ts, waitingForEdge (runTicks cfg ts w) = true ->
                 speedMultiplier (runTicks cfg ts w) = 1)
  /\ (isSine cfg = true ->
      forall u t,
        waitingForEdge u = true -> isDecelerating u = false ->
        let u' := tickMotion cfg t u in
        let pos :=
          sinePosition cfg (virtualTime u + frameDelta t u * speedMultiplier u) in
        (Rabs pos < 0.99 ->
         waitingForEdge u' = true /\ isDecelerating u' = false
         /\ ballPosition u' = pos
         /\ speedMultiplier u' = speedMultiplier u)
        /\ (0.99 <= Rabs (ballPosition u') ->
            isDecelerating u' = true /\ waitingForEdge u' = false
            /\ decelStartPosition u' = ballPosition u'
            /\ Rabs (decelStartPosition u') = Rabs (ballPosition u')
            /\ speedMultiplier u' = speedMultiplier u
            /\ phaseState u' = Decelerating)).
Proof.
  intros Hplay Hdec Hedge. cbv zeta.
  assert (Hw : WaitingAtFullSpeed (togglePlayPause cfg now s)).
  { pose proof (heading_toward_edge_not_zero cfg s Hedge) as Hz.
    destruct s; cbn in Hplay, Hdec; subst.
    rewrite (pause_toward_edge_eq _ _ _ _ _ _ _ _ _ _ _ _ Hz).
    repeat split; reflexivity. }
  split; [exact Hw|]. split.
  - intros ts Hts. rewrite (runTicks_still_waiting cfg ts _ Hts). apply Hw.
  - intros Hsine u t Hu Hud. destruct u; cbn in Hu, Hud; subst.
    rewrite tick_waiting_eq. cbv zeta.
    unfold wavePosition. rewrite Hsine. unfold sinePosition.
    cbn [virtualTime speedMultiplier].
    set (pos := sin (_ * PI * 2)).
    split.
    + intros Hlt. rewrite geb_eq_false by assumption. cbn.
      repeat split; reflexivity.
    + destruct (Js.geb (Rabs pos) 0.99) eqn:Hge.
      * destruct (crossedZero ballPosition0 pos); cbn; intros H.
        -- rewrite Rabs_R0 in H. lra.
        -- repeat split; reflexivity.
      * cbn. intros H. apply geb_false in Hge. lra.
Qed.

Lemma pause_toward_edge_waits_for_edge_witness :
  let s := mkState (wavePosition defaultSettings 1100) true 1 (Some 0) 1100 (Some 0)
                   None 0 false 0 false in
  HeadingTowardEdge defaultSettings s
  /\ WaitingAtFullSpeed (togglePlayPause defaultSettings 10 s).
Proof.
  cbv zeta. split; [apply heading_toward_edge_1100|].
  apply (pause_toward_edge_waits_for_edge defaultSettings 10
           (mkState (wavePosition defaultSettings 1100) true 1 (Some 0) 1100 (Some 0)
                    None 0 false 0 false) eq_refl eq_refl heading_toward_edge_1100).
Defined.

(** C2 as stated fails at the left edge: with the default sine wave, pause
    pressed at virtualTime 1100 (position negative, moving left) waits for the
    edge; the tick that lands on virtualTime 1125 finds the position at -1 and
    captures decelStartPosition = -1, which is not |position| = 1. *)
Lemma edge_capture_is_signed :
  let s := mkState (wavePosition defaultSettings 1100) true 1 (Some 0) 1100 (Some 0)
                   None 0 false 0 false in
  let w := togglePlayPause defaultSettings 10 s in
  let u' := tickMotion defaultSettings 25 w in
  HeadingTowardEdge defaultSettings s
  /\ waitingForEdge w = true /\ speedMultiplier w = 1
  /\ 0.99 <= Rabs (ballPosition u')
  /\ isDecelerating u' = true
  /\ decelStartPosition u' = -1
  /\ decelStartPosition u' <> Rabs (ballPosition u').
Proof.
  cbv zeta. split; [apply heading_toward_edge_1100|].
  rewrite (pause_toward_edge_eq _ _ _ _ _ _ _ _ _ _ _ _
             (heading_toward_edge_not_zero _ _ heading_toward_edge_1100)).
  rewrite tick_waiting_eq. cbv zeta. rewrite frameDelta_some.
  replace (Rmin (25 - 0) 50) with 25 by (rewrite Rmin_left; lra).
  replace (1100 + 25 * 1) with 1125 by ring.
  rewrite !wave_default.
  replace (1125 / period defaultSettings * PI * 2) with (1125 * (PI / 750))
    by (rewrite period_default; field).
  rewrite sin_1125.
  replace (Rabs (-1)) with 1 by (rewrite Rabs_left; lra).
  rewrite geb_eq_true by lra.
  pose proof sin_1100_neg as Hneg.
  assert (Hc : crossedZero (sin (1100 * (PI / 750))) (-1) = false).
  { unfold crossedZero. rewrite gtb_eq_false, geb_eq_false by lra.
    rewrite andb_false_r. reflexivity. }
  rewrite Hc. cbn.
  replace (Rabs (-1)) with 1 by (rewrite Rabs_left; lra).
  repeat split; try reflexivity; lra.
Qed.

(** C3 fails on the code.  In the session [overshootSession] (default
    settings, event times strictly increasing) the edge is detected at
    position sin(7 pi / 15), a little below the peak; the next frame reaches
    the peak, and the frame after it computes sqrt(1 / sin(7 pi / 15)), so the
    speed multiplier is above 1 in a reachable state. *)
Theorem speed_exceeds_one_after_edge_wait :
  Sorted Rlt (map eventTime overshootSession)
  /\ let s := run defaultSettings overshootSession initialState in
     1 < speedMultiplier s /\ isDecelerating s = true.
Proof.
  split.
  - unfold overshootSession. cbn [map eventTime]. repeat constructor; lra.
  - cbv zeta. unfold overshootSession. cbn [run].
    rewrite first_frame_after_ramp.
    rewrite (steady_frame _ 800 850 0 50) by lra.
    rewrite (steady_frame _ 850 900 50 100) by lra.
    rewrite (steady_frame _ 900 950 100 150) by lra.
    rewrite (steady_frame _ 950 1000 150 200) by lra.
    rewrite (steady_frame _ 1000 1050 200 250) by lra.
    rewrite (steady_frame _ 1050 1100 250 300) by lra.
    rewrite pause_step_at_300, edge_step_at_350, peak_step_at_375.
    apply overshoot_step_after_peak.
Qed.

(** C4, amended.  On a Decelerating tick, if the captured decelStartPosition
    has magnitude at most 0.01, no ratio is computed and speedMultiplier is
    set to 0, so virtualTime does not advance; when the stored position is the
    waveform's value at virtualTime, the position does not move either and the
    state stays Decelerating (the episode does not complete on that tick).
    Otherwise speedMultiplier is set to max(0.08, sqrt(|position| /
    |decelStartPosition|)), virtualTime advances by delta times that speed, and
    the state stays Decelerating unless the new position crosses zero, in
    which case the episode ends. *)
Theorem decel_guard_stops_without_finishing (cfg : Settings) (t : R) (s : State) :
  isDecelerating s = true -> waitingForEdge s = false ->
  let s' := tickMotion cfg t s in
  let startDistance := Rabs (decelStartPosition s) in
  (startDistance <= 0.01 ->
   ballPosition s = wavePosition cfg (virtualTime s) ->
   speedMultiplier s' = 0 /\ virtualTime s' = virtualTime s
   /\ ballPosition s' = ballPosition s /\ isDecelerating s' = true
   /\ phaseState s' = Decelerating)
  /\ (0.01 < startDistance ->
      let v := Rmax 0.08 (sqrt (Rabs (ballPosition s) / startDistance)) in
      let vt' := virtualTime s + frameDelta t s * v in
      if crossedZero (ballPosition s) (wavePosition cfg vt')
      then Finished s'
      else speedMultiplier s' = v /\ virtualTime s' = vt'
           /\ ballPosition s' = wavePosition cfg vt' /\ isDecelerating s' = true).
Proof.
  intros Hd Hw. destruct s; cbn in Hd, Hw; subst.
  cbv zeta. rewrite tick_decel_eq. cbv zeta. cbn [decelStartPosition ballPosition virtualTime].
  split.
  - intros Hsmall Hsync. rewrite gtb_eq_false by assumption.
    rewrite Rmult_0_r, Rplus_0_r, <- Hsync, crossedZero_same.
    cbn. repeat split; reflexivity.
  - intros Hbig. rewrite gtb_eq_true by assumption.
    break_if; cbn; unfold Finished; cbn; repeat split; reflexivity.
Qed.

Lemma decel_guard_stops_without_finishing_witness :
  let d := mkState (wavePosition defaultSettings 749) false 1 (Some 0) 749 (Some 0)
                   None 0 true (wavePosition defaultSettings 749) false in
  Rabs (decelStartPosition d) <= 0.01
  /\ speedMultiplier (tickMotion defaultSettings 16 d) = 0
  /\ isDecelerating (tickMotion defaultSettings 16 d) = true.
Proof.
  cbv zeta.
  assert (Hsmall : Rabs (wavePosition defaultSettings 749) <= 0.01).
  { rewrite wave_default. pose proof sin_749_pos. pose proof sin_749_small.
    rewrite Rabs_pos_eq; lra. }
  split; [exact Hsmall|].
  destruct (decel_guard_stops_without_finishing defaultSettings 16
              (mkState (wavePosition defaultSettings 749) false 1 (Some 0) 749
                       (Some 0) None 0 true (wavePosition defaultSettings 749) false)
              eq_refl eq_refl) as [Hguard _].
  destruct (Hguard Hsmall eq_refl) as (Hs & _ & _ & Hd & _).
  split; assumption.
Defined.

(** C4 as stated fails: pause pressed just before the centre (default sine
    wave, virtualTime 749 of a 750 ms half period, position about 0.004 and
    falling) starts a deceleration whose decelStartPosition is below 0.01; the
    next tick sets speedMultiplier to 0 but does not finish: the state is
    still Decelerating, not Idle, and virtualTime is still 749. *)
Lemma decel_guard_does_not_reach_idle :
  let s := mkState (wavePosition defaultSettings 749) true 1 (Some 0) 749 (Some 0)
                   None 0 false 0 false in
  let d := togglePlayPause defaultSettings 10 s in
  let d' := tickMotion defaultSettings 16 d in
  isDecelerating d = true /\ waitingForEdge d = false
  /\ Rabs (decelStartPosition d) <= 0.01
  /\ speedMultiplier d' = 0
  /\ isDecelerating d' = true
  /\ virtualTime d' = 749
  /\ ballPosition d' <> 0
  /\ phaseState d' <> Idle.
Proof.
  cbv zeta.
  pose proof sin_749_pos as Hpos. pose proof sin_749_small as Hsmall.
  pose proof cos_749_neg as Hcos.
  rewrite pause_toward_zero_eq.
  2:{ unfold isHeadingTowardZero. rewrite velocity_default. cbn [ballPosition].
      rewrite wave_default, gtb_eq_true, ltb_eq_true by lra. reflexivity. }
  rewrite tick_decel_eq. cbv zeta. cbn [isDecelerating waitingForEdge decelStartPosition].
  rewrite !wave_default.
  rewrite (Rabs_pos_eq (sin (749 * (PI / 750)))) by lra.
  rewrite gtb_eq_false by lra.
  rewrite Rmult_0_r, Rplus_0_r, crossedZero_same.
  cbn.
  repeat split; try reflexivity; try lra.
  unfold phaseState; cbn. discriminate.
Qed.

(** C5. During RampingUp started from speedMultiplier = 0, over every sequence
    of ticks with strictly increasing timestamps, speedMultiplier is
    non-decreasing from tick to tick (and, the ticks coming after the ramp
    began, from its initial 0 on, staying within [0, 1]); every tick that
    comes RAMP_DURATION (800 ms) or more after the ramp began leaves
    speedMultiplier at exactly 1 with the ramp flag cleared (Steady), and
    every earlier tick leaves it below 1 with the ramp still on. *)
Theorem ramp_monotone_and_complete (cfg : Settings) (t0 : R) (ts : list R) (s : State) :
  Ramping t0 s -> speedMultiplier s = 0 -> Sorted Rlt ts ->
  Sorted Rle (speedTrace cfg ts s)
  /\ (Forall (Rle t0) ts ->
      Sorted Rle (speedMultiplier s :: speedTrace cfg ts s)
      /\ Forall (fun v => 0 <= v <= 1) (speedTrace cfg ts s))
  /\ (forall pre t post,
        ts = pre ++ t :: post -> t0 + RAMP_DURATION <= t ->
        let s' := runTicks cfg (pre ++ [t]) s in
        speedMultiplier s' = 1 /\ rampDirection s' = None
        /\ phaseState s' = Steady)
  /\ (forall pre t post,
        ts = pre ++ t :: post -> t < t0 + RAMP_DURATION ->
        let s' := runTicks cfg (pre ++ [t]) s in
        speedMultiplier s' < 1 /\ rampDirection s' = Some Up).
Proof.
  intros Hr Hs Hsort. split; [|split; [|split]].
  - destruct ts as [|t ts']; [constructor|].
    assert (H : Sorted Rle (rampSpeed t0 t :: speedTrace cfg (t :: ts') s)).
    { apply (speedTrace_ramping cfg t0); [assumption..|].
      intros t' [<-|Hin]; [apply Rle_refl|].
      apply rampSpeed_mono.
      apply Sorted_StronglySorted in Hsort; [|intros x y z; apply Rlt_trans].
      inversion Hsort as [|? ? _ Hall]; subst.
      rewrite Forall_forall in Hall. left. apply Hall, Hin. }
    inversion H; assumption.
  - intros Hall. split.
    + apply (speedTrace_ramping cfg t0); [assumption..|].
      intros t Hin. rewrite Hs. apply rampSpeed_nonneg.
      rewrite Forall_forall in Hall. apply Hall, Hin.
    + apply (speedTrace_bounds cfg t0); [left; exact Hr | exact Hall].
  - intros pre t post _ Ht. cbv zeta. rewrite runTicks_app. simpl.
    pose proof (runTicks_ramping_or_fullSpeed cfg t0 pre s (or_introl Hr)) as Hpre.
    assert (Hfull : FullSpeed (tickMotion cfg t (runTicks cfg pre s))).
    { destruct Hpre as [H|H].
      - apply (tick_ramping cfg t0 t _ H), Ht.
      - apply tick_fullSpeed, H. }
    destruct Hfull as (Hw & Hd & Hrd & Hsp).
    repeat split; try assumption.
    unfold phaseState. rewrite Hw, Hd, Hrd, Hsp. simpl.
    unfold Js.gtb. cmp_cases 0 1; [reflexivity|lra].
  - intros pre t post Hts Ht. cbv zeta. rewrite runTicks_app. simpl.
    assert (Hpre : Ramping t0 (runTicks cfg pre s)).
    { apply runTicks_ramping; [exact Hr|].
      rewrite Hts in Hsort. pose proof (sorted_prefix_below _ _ _ Hsort) as Hbelow.
      rewrite Forall_forall in *. intros x Hx. specialize (Hbelow x Hx). lra. }
    destruct (tick_ramping cfg t0 t _ Hpre) as (Hsp & Hlt & _).
    rewrite Hsp. split; [apply rampSpeed_lt_1, Ht | apply (Hlt Ht)].
Qed.

Lemma ramp_monotone_and_complete_witness :
  let s := togglePlayPause defaultSettings 0 initialState in
  Ramping 0 s
  /\ Sorted Rle (speedMultiplier s :: speedTrace defaultSettings [16; 32; 800] s)
  /\ speedMultiplier (runTicks defaultSettings [16; 32; 800] s) = 1.
Proof.
  cbv zeta.
  assert (Hr : Ramping 0 (togglePlayPause defaultSettings 0 initialState)).
  { unfold Ramping. cbn. repeat split; reflexivity. }
  assert (Hs : speedMultiplier (togglePlayPause defaultSettings 0 initialState) = 0)
    by reflexivity.
  assert (Hsort : Sorted Rlt [16; 32; 800]) by (repeat constructor; lra).
  assert (Hall : Forall (Rle 0) [16; 32; 800]) by (repeat constructor; lra).
  destruct (ramp_monotone_and_complete defaultSettings 0 [16; 32; 800] _
              Hr Hs Hsort) as (_ & Hmono & Hdone & _).
  split; [exact Hr|]. split; [exact (proj1 (Hmono Hall))|].
  apply (Hdone [16; 32] 800 []); [reflexivity | unfold RAMP_DURATION; lra].
Defined.

(** C6 as stated fails while the envelope is ramping up: the ramp branch
    recomputes the speed from the unclamped frame timestamp, so after a play
    press at time 0 and a first frame at time 0, a frame 5000 ms later
    advances virtualTime by 50 ms and a frame 50 ms later by 50 * 4 * (1/16)^3. *)
Lemma delta_clamp_fails_while_ramping :
  let s := tickMotion defaultSettings 0 (togglePlayPause defaultSettings 0 initialState) in
  lastTimestamp s = Some 0
  /\ virtualTime (tickMotion defaultSettings (0 + 5000) s) - virtualTime s
     <> virtualTime (tickMotion defaultSettings (0 + 50) s) - virtualTime s.
Proof.
  cbv zeta. rewrite first_frame_of_ramp. split; [reflexivity|].
  rewrite !tick_ramp_eq. cbv zeta. rewrite !frameDelta_some.
  cbn [virtualTime Js.num]. unfold RAMP_DURATION.
  replace (Rmin ((0 + 5000 - 0) / 800) 1) with 1 by (rewrite Rmin_right; lra).
  replace (Rmin ((0 + 50 - 0) / 800) 1) with (1 / 16) by (rewrite Rmin_left; lra).
  replace (Rmin (0 + 5000 - 0) 50) with 50 by (rewrite Rmin_right; lra).
  replace (Rmin (0 + 50 - 0) 50) with 50 by (rewrite Rmin_right; lra).
  rewrite easeInOutCubic_1. unfold easeInOutCubic.
  rewrite ltb_eq_true by lra. lra.
Qed.

(** C6, amended.  The frame path clamps the delta to 50 ms and the interval
    path to 100 ms.  From the same starting state, a frame whose raw delta is
    any value above 50 ms advances virtualTime (and leaves position and speed)
    exactly as a frame whose raw delta is 50 ms, whenever the tick does not
    take the ramp branch (waiting for the edge, decelerating, or no ramp up in
    progress) or the ramp is already complete at the earlier of the two
    frames; an interval tick whose raw delta is above 100 ms always leaves the
    motion state exactly as one whose raw delta is 100 ms. *)
Theorem delta_clamp_outside_ramp (cfg : Settings) (s : State) :
  (forall l raw,
      lastTimestamp s = Some l -> 50 <= raw ->
      (waitingForEdge s = true \/ isDecelerating s = true
       \/ isUp (rampDirection s) = false
       \/ Js.num (rampStartTime s) + RAMP_DURATION <= l + 50) ->
      let a := tickMotion cfg (l + raw) s in
      let b := tickMotion cfg (l + 50) s in
      virtualTime a = virtualTime b
      /\ ballPosition a = ballPosition b
      /\ speedMultiplier a = speedMultiplier b)
  /\ (forall hidden last raw,
        100 <= raw ->
        snd (audioLoopTick hidden (last + raw) last s)
        = snd (audioLoopTick hidden (last + 100) last s)).
Proof.
  split.
  - intros l raw Hl Hraw Hbranch. destruct s; cbn in Hl, Hbranch; subst.
    assert (D1 : Rmin (l + raw - l) 50 = 50) by (apply Rmin_right; lra).
    assert (D2 : Rmin (l + 50 - l) 50 = 50) by (apply Rmin_right; lra).
    cbv zeta. unfold_tick. cbn. rewrite D1, D2.
    destruct waitingForEdge0; cbn.
    { repeat (break_if; cbn); repeat split; reflexivity. }
    destruct isDecelerating0; cbn.
    { repeat (break_if; cbn); repeat split; reflexivity. }
    destruct (isUp rampDirection0) eqn:Hup; cbn.
    2:{ repeat split; reflexivity. }
    destruct Hbranch as [H|[H|[H|H]]]; try discriminate.
    unfold RAMP_DURATION in *.
    replace (Rmin ((l + raw - Js.num rampStartTime0) / 800) 1) with 1
      by (rewrite Rmin_right; lra).
    replace (Rmin ((l + 50 - Js.num rampStartTime0) / 800) 1) with 1
      by (rewrite Rmin_right; lra).
    repeat (break_if; cbn); repeat split; reflexivity.
  - intros hidden last raw Hraw. unfold audioLoopTick. cbn [snd].
    replace (Rmin (last + raw - last) 100) with 100 by (rewrite Rmin_right; lra).
    replace (Rmin (last + 100 - last) 100) with 100 by (rewrite Rmin_right; lra).
    reflexivity.
Qed.

Lemma delta_clamp_outside_ramp_witness :
  let s := mkState 0 true 1 (Some 1000) 0 (Some 0) None 0 false 0 false in
  virtualTime (tickMotion defaultSettings (1000 + 5000) s)
  = virtualTime (tickMotion defaultSettings (1000 + 50) s).
Proof.
  cbv zeta.
  apply (proj1 (delta_clamp_outside_ramp defaultSettings
                  (mkState 0 true 1 (Some 1000) 0 (Some 0) None 0 false 0 false))
               1000 5000).
  - reflexivity.
  - lra.
  - right; right; left; reflexivity.
Defined.

(** C7. On every tick while music is playing (a music source exists,
    musicIsPlaying holds and the decoded buffer is there), the playback rate
    of the source is set to the speedMultiplier the tick has just computed,
    and the logical read offset musicPausedAt is advanced by the engine
    itself: by the audio-clock time since the previous update (0 on the very
    first update) times the playback rate that was in effect over that
    interval, modulo the buffer duration.  On the following tick that rate is
    the speedMultiplier set by this one.  Nothing is read back from the audio
    engine but its clock. *)
Theorem music_rate_follows_speed
        (cfg : Settings) (timestamp now : R) (a : App) (rate0 duration : R) :
  musicSource (music a) = Some rate0 ->
  musicIsPlaying (music a) = true ->
  musicBuffer (music a) = Some duration ->
  let a' := calculateBallPosition cfg timestamp now a in
  let realDelta :=
    if Js.truthy (lastMusicUpdateTime (music a))
    then now - lastMusicUpdateTime (music a) else 0 in
  motion a' = tickMotion cfg timestamp (motion a)
  /\ musicSource (music a') = Some (speedMultiplier (motion a'))
  /\ musicPausedAt (music a')
     = Js.fmod (musicPausedAt (music a) + realDelta * rate0) duration
  /\ lastMusicUpdateTime (music a') = now
  /\ musicIsPlaying (music a') = true
  /\ (forall timestamp2 now2,
        now <> 0 ->
        let a'' := calculateBallPosition cfg timestamp2 now2 a' in
        musicSource (music a'') = Some (speedMultiplier (motion a''))
        /\ musicPausedAt (music a'')
           = Js.fmod (musicPausedAt (music a')
                      + (now2 - now) * speedMultiplier (motion a')) duration).
Proof.
  intros Hsrc Hplay Hbuf. cbv zeta.
  unfold calculateBallPosition. cbn [motion music].
  set (s1 := tickMotion cfg timestamp (motion a)).
  assert (Hm : updateMusicPlaybackRate now (speedMultiplier s1) (music a)
               = mkMusic (Some duration) (Some (speedMultiplier s1))
                   (Js.fmod (musicPausedAt (music a)
                             + (if Js.truthy (lastMusicUpdateTime (music a))
                                then now - lastMusicUpdateTime (music a) else 0)
                               * rate0) duration)
                   true now).
  { unfold updateMusicPlaybackRate. rewrite Hsrc, Hplay, Hbuf. reflexivity. }
  rewrite Hm.
  cbn [musicSource musicPausedAt lastMusicUpdateTime musicIsPlaying musicBuffer].
  split; [reflexivity|]. split; [reflexivity|]. split; [reflexivity|].
  split; [reflexivity|]. split; [reflexivity|].
  intros timestamp2 now2 Hnow.
  set (s2 := tickMotion cfg timestamp2 s1).
  unfold updateMusicPlaybackRate.
  cbn [musicSource musicPausedAt lastMusicUpdateTime musicIsPlaying musicBuffer].
  unfold Js.truthy. destruct (Req_dec_T now 0) as [H0|_]; [contradiction|].
  cbn [musicSource musicPausedAt lastMusicUpdateTime musicIsPlaying musicBuffer].
  split; reflexivity.
Qed.

Lemma music_rate_follows_speed_witness :
  let a := mkApp (mkState 0 true 1 (Some 0) 0 (Some 0) None 0 false 0 false)
                 (mkMusic (Some 180) (Some 1) 3 true 10) in
  musicSource (music (calculateBallPosition defaultSettings 16 10.016 a))
  = Some (speedMultiplier (motion (calculateBallPosition defaultSettings 16 10.016 a))).
Proof.
  cbv zeta.
  exact (proj1 (proj2
           (music_rate_follows_speed defaultSettings 16 10.016
              (mkApp (mkState 0 true 1 (Some 0) 0 (Some 0) None 0 false 0 false)
                     (mkMusic (Some 180) (Some 1) 3 true 10)) 1 180
              eq_refl eq_refl eq_refl))).
Defined.

(** C8. For every virtual time (in particular every virtualTime >= 0), every
    cyclesPerMinute > 0 and both motion types, the position derived from
    virtual time lies in [-1, 1]; so does each of the two shapes on its own,
    the triangle through every one of its linear segments. *)
Theorem position_within_unit_interval (cfg : Settings) (vt : R) :
  0 < cyclesPerMinute cfg ->
  (-1 <= wavePosition cfg vt <= 1)
  /\ (-1 <= sinePosition cfg vt <= 1)
  /\ (-1 <= trianglePosition cfg vt <= 1).
Proof.
  intros Hc. repeat split;
    try apply (wavePosition_range cfg vt Hc);
    try apply (trianglePosition_range cfg vt Hc);
    apply SIN_bound.
Qed.

Lemma position_within_unit_interval_witness :
  0 < cyclesPerMinute defaultSettings
  /\ -1 <= wavePosition (mkSettings 40 "triangle") 1234 <= 1.
Proof.
  split; [simpl; lra|].
  apply (position_within_unit_interval (mkSettings 40 "triangle") 1234).
  simpl; lra.
Defined.
(** C9, amended.  Whenever a reverb-worker response arrives and the audio
    context and the convolver exist, the handler asks the context for a
    two-channel buffer of the response's length and sample rate.  When the
    context grants it (a length from 1 up, at a rate it supports), the handler
    copies the received channel data into it and installs it as the
    convolver's buffer: that buffer has the response's length, the rate of
    the context, for which the response was generated, and exactly the two
    received channels.  The handler does this whatever id the
    response carries and whatever the id of the most recent request is, which
    it leaves untouched; so whatever responses came before, in whatever
    order, the buffer after a delivery is the one of the last response
    delivered, a stale one included.  When the context refuses the buffer,
    the handler ends with that exception and the convolver keeps the buffer it
    had. *)
Theorem reverb_response_always_applied
        (e : Response) (r : Reverb) (ctx : AudioContext) (conv : option AudioBuffer)
        (c0 c1 : list R) (n : Z) :
  audioContext r = Some ctx -> reverbConvolver r = Some conv ->
  resp_channels e = [c0; c1] ->
  Z.of_nat (List.length c0) = n -> Z.of_nat (List.length c1) = n ->
  resp_length e = Double.Integer n -> (1 <= n < 2 ^ 32)%Z ->
  resp_sampleRate e = ctx_sampleRate ctx ->
  is_finite (ctx_sampleRate ctx) = true ->
  ctx_supports ctx n (ctx_sampleRate ctx) = true ->
  let impulse := mkAudioBuffer n (ctx_sampleRate ctx) [c0; c1] in
  reverbOnMessage e r
  = Normal (mkReverb (Some ctx) (Some (Some impulse))
                     (reverbWorker r) (reverbRequestId r))
  /\ (forall id latest,
        reverbOnMessage
          (mkResponse id (resp_channels e) (resp_length e) (resp_sampleRate e))
          (mkReverb (audioContext r) (reverbConvolver r) (reverbWorker r) latest)
        = Normal (mkReverb (Some ctx) (Some (Some impulse)) (reverbWorker r) latest))
  /\ (forall earlier,
        deliver (earlier ++ [e]) r
        = mkReverb (Some ctx) (Some (Some impulse))
                   (reverbWorker r) (reverbRequestId r))
  /\ (forall refused err,
        createBuffer ctx 2 (resp_length refused) (resp_sampleRate refused) = Throw err ->
        reverbOnMessage refused r = Throw err
        /\ forall earlier, deliver (earlier ++ [refused]) r = deliver earlier r).
Proof.
  intros Hc Hv Hch L0 L1 Hlen Hn Hrate Hfin Hs. cbv zeta.
  assert (Hframes : Double.toUnsignedLong (resp_length e) = n)
    by (rewrite Hlen; apply toUnsignedLong_small; lia).
  assert (Himp : forall id,
             impulseOfResponse ctx
               (mkResponse id (resp_channels e) (resp_length e) (resp_sampleRate e))
             = Normal (mkAudioBuffer n (ctx_sampleRate ctx) [c0; c1])).
  { intros id.
    rewrite (impulseOfResponse_granted ctx _ c0 c1 []);
      cbn [resp_channels resp_length resp_sampleRate]; rewrite ?Hframes, ?Hrate;
      try assumption; try lia.
    rewrite !overwrite_full by (rewrite repeat_length; lia). reflexivity. }
  assert (Himp' : impulseOfResponse ctx e
                  = Normal (mkAudioBuffer n (ctx_sampleRate ctx) [c0; c1])).
  { destruct e. apply (Himp resp_id0). }
  pose proof (setBuffer_own_rate ctx n c0 c1 Hfin) as Hset.
  split; [|split; [|split]].
  - apply (reverbOnMessage_granted e r ctx conv); assumption.
  - intros id latest.
    apply (reverbOnMessage_granted
             (mkResponse id (resp_channels e) (resp_length e) (resp_sampleRate e))
             (mkReverb (audioContext r) (reverbConvolver r) (reverbWorker r) latest)
             ctx conv); [exact Hc | exact Hv | apply Himp | exact Hset].
  - intros earlier. apply (deliver_last_granted earlier e r ctx conv); assumption.
  - intros refused err Href.
    pose proof (impulseOfResponse_refused ctx refused err Href) as Hthrow.
    split.
    + apply (reverbOnMessage_refused refused r ctx conv); assumption.
    + intros earlier.
      apply (deliver_last_refused earlier refused r ctx conv err); assumption.
Qed.

Lemma reverb_response_always_applied_witness :
  let ctx := mkAudioContext 48000 (fun _ _ => true) in
  let r := mkReverb (Some ctx) (Some None) true 2 in
  let fresh := mkResponse 2 [[0.5; 0.25]; [0.5; 0.125]] (Double.Integer 2) 48000 in
  let stale := mkResponse 1 [[1; 0; 0]; [1; 0; 0]] (Double.Integer 3) 48000 in
  deliver ([fresh] ++ [stale]) r
  = mkReverb (Some ctx)
             (Some (Some (mkAudioBuffer 3 48000 [[1; 0; 0]; [1; 0; 0]]))) true 2.
Proof.
  cbv zeta.
  refine (proj1 (proj2 (proj2
    (reverb_response_always_applied
       (mkResponse 1 [[1; 0; 0]; [1; 0; 0]] (Double.Integer 3) 48000)
       (mkReverb (Some (mkAudioContext 48000 (fun _ _ => true))) (Some None) true 2)
       (mkAudioContext 48000 (fun _ _ => true)) None [1; 0; 0] [1; 0; 0] 3
       eq_refl eq_refl eq_refl eq_refl eq_refl eq_refl _ eq_refl eq_refl eq_refl))) _).
  lia.
Defined.

(** C9 as stated fails for a response without samples: the response that the
    worker sends for a decay of 0 has length 0; the context refuses a buffer
    of that length, the handler ends with the exception, and the convolver
    keeps the buffer of the response before. *)
Lemma zero_length_response_is_not_applied :
  let ctx := mkAudioContext 44100 (fun _ _ => true) in
  let previous := mkAudioBuffer 2 44100 [[0.5; 0.25]; [0.5; 0.125]] in
  let r := mkReverb (Some ctx) (Some (Some previous)) true 2 in
  let last := mkResponse 2 [[]; []] (Double.Integer 0) 44100 in
  workerOnMessage (fun _ => 0.5) (mkRequest 2 44100 "room" 0) = Normal last
  /\ reverbOnMessage last r = Throw NotSupportedError
  /\ reverbConvolver (deliver [last] r) = Some (Some previous).
Proof.
  cbv zeta. split; [|split].
  - unfold workerOnMessage, generateImpulse. cbv zeta.
    cbn [req_sampleRate req_type req_decay req_id].
    replace (Double.Math_floor
               (44100 * Double.Math_min (durationMult (presetFor "room") * 0) 6))
      with (Double.Integer 0) by (vm_compute; reflexivity).
    reflexivity.
  - reflexivity.
  - reflexivity.
Qed.
(** C10 as stated fails at the page's defaults, 44100 Hz, room, decay 2, if
    its formula is read in exact arithmetic: the doubles give
    0.7 * 2 = 1.4 and 44100 * 1.4 = 61739.99999999999, so the worker allocates
    61739 samples per channel, one less than the floor of the exact product
    0.7 * 2 * 44100 = 61740.  With a decay of 0 the length is 0: the worker
    returns two empty channels and the fallback is refused its buffer.  With a
    negative decay the worker's allocation is a RangeError and there is no
    impulse at all. *)
Lemma impulse_length_is_not_the_exact_floor :
  let ctx := mkAudioContext 44100 (fun _ _ => true) in
  let rnd : Noise := fun _ => 0.5 in
  (exists c0 c1,
      generateImpulse rnd 44100 "room" 2
      = Normal (mkImpulse [c0; c1] (Double.Integer 61739) 44100)
      /\ Z.of_nat (List.length c0) = 61739%Z /\ Z.of_nat (List.length c1) = 61739%Z
      /\ createReverbImpulseFallback rnd ctx "room" 2
         = Normal (mkAudioBuffer 61739 44100 [c0; c1]))
  /\ exactLength 44100 0.7 2 = 61740%Z
  /\ generateImpulse rnd 44100 "room" 0
     = Normal (mkImpulse [[]; []] (Double.Integer 0) 44100)
  /\ createReverbImpulseFallback rnd ctx "room" 0 = Throw NotSupportedError
  /\ generateImpulse rnd 44100 "room" (-1) = Throw RangeError.
Proof.
  cbv zeta.
  set (ctx := mkAudioContext 44100 (fun _ _ => true)).
  set (rnd := fun _ : nat => 0.5).
  assert (Hlen : forall decay n,
             Double.Math_floor (44100 * Double.Math_min (0.7 * decay) 6)
             = Double.Integer n ->
             Double.Math_floor
               (ctx_sampleRate ctx
                * Double.Math_min (durationMult (presetFor "room") * decay) 6)
             = Double.Integer n) by (intros decay n H; exact H).
  split; [|split; [|split; [|split]]].
  - destruct (impulse_and_fallback rnd ctx "room" 2 61739)
      as (c0 & c1 & Hgen & L0 & L1 & Hfb).
    { rewrite (Hlen 2%float 61739%Z) by (vm_compute; reflexivity). reflexivity. }
    rewrite (Hlen 2%float 61739%Z) in Hgen, Hfb by (vm_compute; reflexivity).
    exists c0, c1. split; [exact Hgen|].
    split; [rewrite L0; reflexivity|]. split; [rewrite L1; reflexivity|].
    rewrite Hfb.
    change (createBuffer ctx 2 (Double.Integer 61739) (ctx_sampleRate ctx))
      with (Normal (mkAudioBuffer 61739 44100
                      [repeat 0 (Z.to_nat 61739); repeat 0 (Z.to_nat 61739)])).
    cbn [bind].
    change (Double.toUnsignedLong (Double.Integer 61739)) with 61739%Z.
    rewrite !overwrite_full by (rewrite repeat_length; assumption).
    reflexivity.
  - unfold exactLength, Js.floor. symmetry. apply Int_part_spec.
    rewrite Rmin_left by lra. lra.
  - destruct (impulse_and_fallback rnd ctx "room" 0 0)
      as (c0 & c1 & Hgen & L0 & L1 & _).
    { rewrite (Hlen 0%float 0%Z) by (vm_compute; reflexivity). reflexivity. }
    rewrite (Hlen 0%float 0%Z) in Hgen by (vm_compute; reflexivity).
    destruct c0; [|discriminate]. destruct c1; [|discriminate]. exact Hgen.
  - pose proof (fallback_shape rnd ctx "room" 0) as H. cbv zeta in H.
    rewrite (Hlen 0%float 0%Z) in H by (vm_compute; reflexivity).
    exact H.
  - apply generateImpulse_throws.
    change (durationMult (presetFor "room")) with 0.7%float.
    replace (Double.Math_floor (44100 * Double.Math_min (0.7 * -1) 6))
      with (Double.Integer (-30870)) by (vm_compute; reflexivity).
    reflexivity.
Qed.

(** C10, amended.  For every sample rate and decay, and for each of the
    four reverb types and every type that names no property of the presets
    table at all, the worker computes
    length = floor(min(presetDurationMultiplier * decay, 6) * sampleRate),
    each operation being JavaScript's on doubles, the multiplier being 0.7 for
    room, 1.2 for hall, 0.9 for plate, 1.5 for cathedral and the room value for
    an unrecognized type.  When that length is a non-negative integer (or NaN,
    which allocates nothing) the worker returns it with exactly two channels
    of that many samples; when it is negative or infinite the allocation
    throws a RangeError and there is no impulse.  The main-thread fallback
    computes the same length and asks the context for a two-channel buffer of
    it: refused (a length of 0 or NaN is always refused) the fallback ends
    with that exception; granted, it returns a buffer of two channels of that
    length, and for a length from 1 up these hold, in exact arithmetic and
    from the same random draws, the worker's samples. *)
Theorem impulse_length_formula (rnd : Noise) (ctx : AudioContext) (type : string)
        (decay : float) :
  PRESETS type <> Inherited ->
  let rate := ctx_sampleRate ctx in
  let len := specifiedLength rate type decay in
  let frames := Double.toUnsignedLong len in
  match Double.toIndex len with
  | Normal n =>
      exists c0 c1,
        generateImpulse rnd rate type decay = Normal (mkImpulse [c0; c1] len rate)
        /\ Z.of_nat (List.length c0) = n /\ Z.of_nat (List.length c1) = n
  | Throw err => generateImpulse rnd rate type decay = Throw err
  end
  /\ match createBuffer ctx 2 len rate with
     | Normal _ =>
         exists d0 d1,
           createReverbImpulseFallback rnd ctx type decay
           = Normal (mkAudioBuffer frames rate [d0; d1])
           /\ Z.of_nat (List.length d0) = frames
           /\ Z.of_nat (List.length d1) = frames
     | Throw err => createReverbImpulseFallback rnd ctx type decay = Throw err
     end
  /\ (Double.toUnsignedLong len = 0%Z -> is_finite rate = true ->
      createReverbImpulseFallback rnd ctx type decay = Throw NotSupportedError)
  /\ (forall n,
        len = Double.Integer n -> (1 <= n < 2 ^ 32)%Z ->
        is_finite rate = true -> ctx_supports ctx n rate = true ->
        exists c0 c1,
          generateImpulse rnd rate type decay = Normal (mkImpulse [c0; c1] len rate)
          /\ createReverbImpulseFallback rnd ctx type decay
             = Normal (mkAudioBuffer n rate [c0; c1])
          /\ Z.of_nat (List.length c0) = n /\ Z.of_nat (List.length c1) = n)
  /\ presetDurationMultiplier "room" = 0.7%float
  /\ presetDurationMultiplier "hall" = 1.2%float
  /\ presetDurationMultiplier "plate" = 0.9%float
  /\ presetDurationMultiplier "cathedral" = 1.5%float
  /\ (PRESETS type = Missing -> presetDurationMultiplier type = 0.7%float).
Proof.
  intros Hown. cbv zeta.
  pose proof (impulseLength_specified (ctx_sampleRate ctx) type decay Hown) as Hlen.
  pose proof (fallback_shape rnd ctx type decay) as Hfb. cbv zeta in Hfb.
  rewrite Hlen in Hfb.
  set (len := specifiedLength (ctx_sampleRate ctx) type decay) in *.
  pose proof (toUnsignedLong_range len) as Hrange.
  split; [|split; [|split; [|split]]].
  - destruct (Double.toIndex len) as [n|err] eqn:Hn.
    + destruct (impulse_and_fallback rnd ctx type decay n)
        as (c0 & c1 & Hgen & L0 & L1 & _); [rewrite Hlen; exact Hn|].
      rewrite Hlen in Hgen. exists c0, c1. split; [exact Hgen|].
      destruct (toIndex_normal len n Hn) as (Hn0 & _). split; lia.
    + apply generateImpulse_throws. rewrite Hlen. exact Hn.
  - destruct (createBuffer ctx 2 len (ctx_sampleRate ctx)) as [b|err]; [|exact Hfb].
    destruct Hfb as (d0 & d1 & Hfb & L0 & L1).
    exists d0, d1. split; [exact Hfb|]. split; lia.
  - intros Hzero Hfin.
    rewrite (createBuffer_empty ctx len _ Hzero Hfin) in Hfb. exact Hfb.
  - intros n Hint Hn Hfin Hs.
    destruct (impulse_and_fallback rnd ctx type decay n)
      as (c0 & c1 & Hgen & L0 & L1 & Hfb');
      [rewrite Hlen, Hint; apply toIndex_integer; lia|].
    rewrite Hlen in Hgen, Hfb'.
    assert (Hframes : Double.toUnsignedLong len = n)
      by (rewrite Hint; apply toUnsignedLong_small; lia).
    rewrite Hframes in Hfb'.
    rewrite (createBuffer_granted ctx len (ctx_sampleRate ctx)) in Hfb'
      by (rewrite ?Hframes; assumption || lia).
    cbn [bind] in Hfb'.
    rewrite !overwrite_full in Hfb' by (rewrite repeat_length; assumption).
    exists c0, c1. split; [exact Hgen|]. split; [exact Hfb'|]. split; lia.
  - do 4 (split; [reflexivity|]).
    unfold presetDurationMultiplier, PRESETS, lookup.
    repeat (destruct (String.eqb type _); [discriminate|]). reflexivity.
Qed.

Lemma impulse_length_formula_witness :
  let ctx := mkAudioContext 44100 (fun _ _ => true) in
  let rnd : Noise := fun _ => 0.5 in
  specifiedLength 44100 "room" 2 = Double.Integer 61739
  /\ exists c0 c1,
       generateImpulse rnd 44100 "room" 2
       = Normal (mkImpulse [c0; c1] (Double.Integer 61739) 44100)
       /\ createReverbImpulseFallback rnd ctx "room" 2
          = Normal (mkAudioBuffer 61739 44100 [c0; c1])
       /\ Z.of_nat (List.length c0) = 61739%Z /\ Z.of_nat (List.length c1) = 61739%Z.
Proof.
  cbv zeta.
  assert (Hlen : specifiedLength 44100 "room" 2 = Double.Integer 61739)
    by (vm_compute; reflexivity).
  split; [exact Hlen|].
  destruct (impulse_length_formula (fun _ => 0.5)
              (mkAudioContext 44100 (fun _ _ => true)) "room" 2)
    as (_ & _ & _ & Hsame & _); [discriminate|].
  cbn [ctx_sampleRate] in Hsame. rewrite Hlen in Hsame.
  exact (Hsame 61739%Z eq_refl ltac:(lia) eq_refl eq_refl).
Defined.

(** * Further properties of the code *)

(** ** The position stays in sync with virtual time *)

Lemma crossedZero_from_zero (b : R) : crossedZero 0 b = false.
Proof.
  unfold crossedZero. rewrite gtb_eq_false, ltb_eq_false by lra. reflexivity.
Qed.

Lemma wavePosition_at_zero (cfg : Settings) :
  0 < cyclesPerMinute cfg -> wavePosition cfg 0 = 0.
Proof.
  intros Hc. pose proof (period_pos cfg Hc) as Hp. unfold wavePosition.
  destruct (isSine cfg).
  - unfold sinePosition. replace (0 / period cfg * PI * 2) with 0
      by (unfold Rdiv; ring). apply sin_0.
  - unfold trianglePosition, cycleProgress. cbv zeta.
    rewrite (fmod_small 0 (period cfg)) by lra.
    rewrite (fmod_one_period 0 (period cfg)) by lra.
    replace (0 / period cfg) with 0 by (unfold Rdiv; ring).
    rewrite ltb_eq_true by lra. ring.
Qed.

Lemma finishDeceleration_in_sync (cfg : Settings) (prev : R) (s : State) :
  0 < cyclesPerMinute cfg -> InSync cfg s -> InSync cfg (finishDeceleration prev s).
Proof.
  intros Hc Hs. unfold finishDeceleration, InSync in *.
  destruct (isDecelerating s); [|exact Hs].
  destruct (crossedZero prev (ballPosition s)); [|exact Hs].
  cbn. symmetry. apply wavePosition_at_zero, Hc.
Qed.

Lemma tick_in_sync (cfg : Settings) (t : R) (s : State) :
  0 < cyclesPerMinute cfg -> InSync cfg (tickMotion cfg t s).
Proof.
  intros Hc. unfold tickMotion. cbv zeta.
  apply finishDeceleration_in_sync; [exact Hc|]. reflexivity.
Qed.

Lemma press_in_sync (cfg : Settings) (now : R) (s : State) :
  InSync cfg s -> InSync cfg (togglePlayPause cfg now s).
Proof.
  unfold InSync, togglePlayPause. destruct s. cbn.
  destruct isPlaying0; cbn; [|auto].
  destruct (isHeadingTowardZero _ _); cbn; auto.
Qed.

(** X1. After every frame tick, and in every state reached from the freshly
    loaded page by presses and frames, the stored ball position is the
    waveform's value at the stored virtual time (also on the tick that resets
    both to 0), so it lies in [-1, 1]. *)
Theorem position_in_sync_when_reachable (cfg : Settings) :
  0 < cyclesPerMinute cfg ->
  (forall t s, InSync cfg (tickMotion cfg t s))
  /\ (forall es,
        let s := run cfg es initialState in
        InSync cfg s /\ -1 <= ballPosition s <= 1).
Proof.
  intros Hc. split; [intros t s; apply tick_in_sync, Hc|].
  intros es. cbv zeta.
  assert (Hinv : forall s0, InSync cfg s0 -> InSync cfg (run cfg es s0)).
  { induction es as [|e es IH]; intros s0 H0; cbn [run]; [exact H0|].
    apply IH. destruct e as [now|t]; cbn [step].
    - apply press_in_sync, H0.
    - destruct (needsTick s0); [apply tick_in_sync, Hc | exact H0]. }
  assert (H : InSync cfg (run cfg es initialState)).
  { apply Hinv. unfold InSync. cbn. symmetry. apply wavePosition_at_zero, Hc. }
  split; [exact H|]. rewrite H. apply wavePosition_range, Hc.
Qed.

Lemma position_in_sync_when_reachable_witness :
  let s := run defaultSettings [Press 0; Frame 16; Frame 32; Press 40; Frame 48]
               initialState in
  -1 <= ballPosition s <= 1.
Proof.
  cbv zeta.
  assert (Hc : 0 < cyclesPerMinute defaultSettings) by (cbn; lra).
  exact (proj2 (proj2 (position_in_sync_when_reachable defaultSettings Hc)
                      [Press 0; Frame 16; Frame 32; Press 40; Frame 48])).
Defined.

(** ** Restarting the ramp from any speed *)

Lemma tick_rampingFrom (cfg : Settings) (r0 t0 t : R) (s : State) :
  RampingFrom r0 t0 s ->
  let s' := tickMotion cfg t s in
  speedMultiplier s' = r0 + (1 - r0) * rampSpeed t0 t
  /\ (t < t0 + RAMP_DURATION -> RampingFrom r0 t0 s')
  /\ (t0 + RAMP_DURATION <= t -> FullSpeed s').
Proof.
  intros (Hw & Hd & Hr & Ht & Hs). destruct s.
  cbn [waitingForEdge isDecelerating rampDirection rampStartTime rampStartSpeed]
    in Hw, Hd, Hr, Ht, Hs. subst.
  cbv zeta. rewrite tick_ramp_eq. cbv zeta. cbn [Js.num].
  fold (rampSpeed t0 t).
  set (p := Rmin ((t - t0) / RAMP_DURATION) 1).
  assert (Hp : t0 + RAMP_DURATION <= t -> p = 1).
  { intros H. unfold p, RAMP_DURATION in *. apply Rmin_right. lra. }
  assert (Hq : t < t0 + RAMP_DURATION -> p < 1).
  { intros H. unfold p, RAMP_DURATION in *.
    apply Rle_lt_trans with ((t - t0) / 800); [apply Rmin_l | lra]. }
  split; [reflexivity|]. split.
  - intros H. rewrite geb_eq_false by (apply Hq, H).
    unfold RampingFrom. cbn. repeat split; reflexivity.
  - intros H. rewrite geb_eq_true by (rewrite (Hp H); lra).
    unfold FullSpeed. cbn. rewrite (rampSpeed_done t0 t H).
    repeat split; try reflexivity. ring.
Qed.

Lemma speedTrace_rampingFrom (cfg : Settings) (r0 t0 : R) (ts : list R) :
  r0 <= 1 ->
  forall s v,
    RampingFrom r0 t0 s -> Sorted Rlt ts ->
    (forall t, In t ts -> v <= r0 + (1 - r0) * rampSpeed t0 t) ->
    Sorted Rle (v :: speedTrace cfg ts s).
Proof.
  intros Hr0. induction ts as [|t ts IH]; intros s v Hr Hsort Hv; simpl.
  - repeat constructor.
  - destruct (tick_rampingFrom cfg r0 t0 t s Hr) as (Hs & Hlt & Hge).
    rewrite Hs.
    assert (Hlater : forall t', In t' ts -> t < t').
    { apply Sorted_StronglySorted in Hsort; [|intros x y z; apply Rlt_trans].
      inversion Hsort as [|? ? _ Hall]; subst.
      intros t' Hin. rewrite Forall_forall in Hall. apply Hall, Hin. }
    constructor; [|constructor; apply Hv; left; reflexivity].
    destruct (Rlt_le_dec t (t0 + RAMP_DURATION)) as [Hc|Hc].
    + apply IH; [apply Hlt, Hc | inversion Hsort; assumption |].
      intros t' Hin.
      assert (Hm : rampSpeed t0 t <= rampSpeed t0 t')
        by (apply rampSpeed_mono; left; apply Hlater, Hin).
      nra.
    + rewrite (rampSpeed_done t0 t Hc).
      replace (r0 + (1 - r0) * 1) with 1 by ring.
      apply speedTrace_fullSpeed, Hge, Hc.
Qed.

Lemma speedTrace_fullSpeed_down (cfg : Settings) (ts : list R) :
  forall s, FullSpeed s -> Sorted Rge (1 :: speedTrace cfg ts s).
Proof.
  induction ts as [|t ts IH]; intros s H; simpl.
  - repeat constructor.
  - pose proof (tick_fullSpeed cfg t s H) as H'.
    assert (Hs : speedMultiplier (tickMotion cfg t s) = 1) by apply H'.
    rewrite Hs. constructor; [apply IH, H'|constructor; lra].
Qed.

Lemma speedTrace_rampingFrom_down (cfg : Settings) (r0 t0 : R) (ts : list R) :
  1 <= r0 ->
  forall s v,
    RampingFrom r0 t0 s -> Sorted Rlt ts ->
    (forall t, In t ts -> r0 + (1 - r0) * rampSpeed t0 t <= v) ->
    Sorted Rge (v :: speedTrace cfg ts s).
Proof.
  intros Hr0. induction ts as [|t ts IH]; intros s v Hr Hsort Hv; simpl.
  - repeat constructor.
  - destruct (tick_rampingFrom cfg r0 t0 t s Hr) as (Hs & Hlt & Hge).
    rewrite Hs.
    assert (Hlater : forall t', In t' ts -> t < t').
    { apply Sorted_StronglySorted in Hsort; [|intros x y z; apply Rlt_trans].
      inversion Hsort as [|? ? _ Hall]; subst.
      intros t' Hin. rewrite Forall_forall in Hall. apply Hall, Hin. }
    constructor; [|constructor; apply Rle_ge, Hv; left; reflexivity].
    destruct (Rlt_le_dec t (t0 + RAMP_DURATION)) as [Hc|Hc].
    + apply IH; [apply Hlt, Hc | inversion Hsort; assumption |].
      intros t' Hin.
      assert (Hm : rampSpeed t0 t <= rampSpeed t0 t')
        by (apply rampSpeed_mono; left; apply Hlater, Hin).
      nra.
    + rewrite (rampSpeed_done t0 t Hc).
      replace (r0 + (1 - r0) * 1) with 1 by ring.
      apply speedTrace_fullSpeed_down, Hge, Hc.
Qed.

Lemma speedTrace_rampingFrom_bounds (cfg : Settings) (r0 t0 : R) (ts : list R) :
  forall s, RampingFrom r0 t0 s \/ FullSpeed s -> Forall (Rle t0) ts ->
            Forall (fun v => Rmin r0 1 <= v <= Rmax r0 1) (speedTrace cfg ts s).
Proof.
  induction ts as [|t ts IH]; intros s Hs Hall; cbn; [constructor|].
  inversion Hall as [|? ? Ht Hall']; subst.
  constructor.
  - destruct Hs as [H|H].
    + destruct (tick_rampingFrom cfg r0 t0 t s H) as (-> & _).
      pose proof (rampSpeed_nonneg t0 t Ht). pose proof (rampSpeed_le_1 t0 t).
      unfold Rmin, Rmax. destruct (Rle_dec r0 1); split; nra.
    + destruct (tick_fullSpeed cfg t s H) as (_ & _ & _ & ->).
      split; [apply Rmin_r | apply Rmax_r].
  - apply IH; [|exact Hall']. destruct Hs as [H|H].
    + destruct (tick_rampingFrom cfg r0 t0 t s H) as (_ & Hlt & Hge).
      destruct (Rlt_le_dec t (t0 + RAMP_DURATION)); [left|right]; auto.
    + right. apply tick_fullSpeed, H.
Qed.

Lemma runTicks_rampingFrom_or_fullSpeed (cfg : Settings) (r0 t0 : R) (ts : list R) :
  forall s, RampingFrom r0 t0 s \/ FullSpeed s ->
            RampingFrom r0 t0 (runTicks cfg ts s) \/ FullSpeed (runTicks cfg ts s).
Proof.
  induction ts as [|t ts IH]; intros s H; simpl; [exact H|].
  apply IH. destruct H as [H|H].
  - destruct (tick_rampingFrom cfg r0 t0 t s H) as (_ & Hlt & Hge).
    destruct (Rlt_le_dec t (t0 + RAMP_DURATION)); [left|right]; auto.
  - right. apply tick_fullSpeed, H.
Qed.

Lemma play_starts_ramp (cfg : Settings) (now : R) (s : State) :
  isPlaying s = false ->
  RampingFrom (speedMultiplier s) now (togglePlayPause cfg now s)
  /\ isPlaying (togglePlayPause cfg now s) = true
  /\ speedMultiplier (togglePlayPause cfg now s) = speedMultiplier s
  /\ virtualTime (togglePlayPause cfg now s) = virtualTime s.
Proof.
  intros Hp. destruct s. cbn in Hp. subst.
  unfold togglePlayPause, RampingFrom. cbn. repeat split; reflexivity.
Qed.

(** X2. Pressing play in any paused state, also in the middle of a
    deceleration or of an edge wait and whatever the speed multiplier is at
    that moment, clears both of those flags and restarts the ramp from the
    current speed, without a jump: a frame at the instant of the press leaves
    the speed as it was, and over frames in increasing time order after the
    press the speed moves monotonically toward 1 and never leaves the range
    between its value at the press and 1.  From a value at or below 1 it never
    decreases; from a value above 1 (a pause can leave one behind when a
    deceleration was started during the ramp-up) it never increases.  Every
    frame 800 ms or more after the press leaves it at exactly 1 with the ramp
    flag cleared.  Virtual time is not touched by the press. *)
Theorem play_resumes_without_jump
        (cfg : Settings) (now : R) (ts : list R) (s : State) :
  isPlaying s = false ->
  Sorted Rlt ts -> Forall (Rle now) ts ->
  let w := togglePlayPause cfg now s in
  isDecelerating w = false /\ waitingForEdge w = false
  /\ virtualTime w = virtualTime s
  /\ speedMultiplier (tickMotion cfg now w) = speedMultiplier s
  /\ (speedMultiplier s <= 1 ->
      Sorted Rle (speedMultiplier s :: speedTrace cfg ts w)
      /\ Forall (fun v => speedMultiplier s <= v <= 1) (speedTrace cfg ts w))
  /\ (1 <= speedMultiplier s ->
      Sorted Rge (speedMultiplier s :: speedTrace cfg ts w)
      /\ Forall (fun v => 1 <= v <= speedMultiplier s) (speedTrace cfg ts w))
  /\ (forall pre t post,
        ts = pre ++ t :: post -> now + RAMP_DURATION <= t ->
        let s' := runTicks cfg (pre ++ [t]) w in
        speedMultiplier s' = 1 /\ rampDirection s' = None).
Proof.
  intros Hp Hsort Hall. cbv zeta.
  destruct (play_starts_ramp cfg now s Hp) as (Hramp & _ & _ & Hvt).
  set (w := togglePlayPause cfg now s) in *.
  set (r0 := speedMultiplier s) in *.
  pose proof (speedTrace_rampingFrom_bounds cfg r0 now ts w (or_introl Hramp) Hall)
    as Hbounds.
  split; [apply Hramp|]. split; [apply Hramp|]. split; [exact Hvt|]. split.
  { destruct (tick_rampingFrom cfg r0 now now w Hramp) as (-> & _).
    unfold rampSpeed, RAMP_DURATION.
    replace (Rmin ((now - now) / 800) 1) with 0 by (rewrite Rmin_left; lra).
    rewrite easeInOutCubic_0. ring. }
  split.
  { intros Hr0. split.
    - apply (speedTrace_rampingFrom cfg r0 now); [lra | exact Hramp | exact Hsort |].
      intros t Hin. rewrite Forall_forall in Hall.
      pose proof (rampSpeed_nonneg now t (Hall t Hin)). nra.
    - rewrite (Rmin_left r0 1 Hr0), (Rmax_right r0 1 Hr0) in Hbounds. exact Hbounds. }
  split.
  { intros Hr0. split.
    - apply (speedTrace_rampingFrom_down cfg r0 now);
        [exact Hr0 | exact Hramp | exact Hsort |].
      intros t Hin. rewrite Forall_forall in Hall.
      pose proof (rampSpeed_nonneg now t (Hall t Hin)). nra.
    - rewrite (Rmin_right r0 1 Hr0), (Rmax_left r0 1 Hr0) in Hbounds. exact Hbounds. }
  intros pre t post _ Ht. cbv zeta. rewrite runTicks_app. simpl.
  pose proof (runTicks_rampingFrom_or_fullSpeed cfg r0 now pre w (or_introl Hramp))
    as Hpre.
  assert (Hfull : FullSpeed (tickMotion cfg t (runTicks cfg pre w))).
  { destruct Hpre as [H|H].
    - apply (tick_rampingFrom cfg r0 now t _ H), Ht.
    - apply tick_fullSpeed, H. }
  destruct Hfull as (_ & _ & Hrd & Hsp). split; assumption.
Qed.

Lemma play_resumes_without_jump_witness :
  let s := mkState 0.5 false 1.00275 (Some 90) 700 (Some 0) None 0 true 0.9 false in
  Sorted Rge (1.00275 :: speedTrace defaultSettings [100; 500; 900]
                                    (togglePlayPause defaultSettings 100 s))
  /\ Forall (fun v => 1 <= v <= 1.00275)
            (speedTrace defaultSettings [100; 500; 900]
                        (togglePlayPause defaultSettings 100 s))
  /\ speedMultiplier
       (runTicks defaultSettings [100; 500; 900] (togglePlayPause defaultSettings 100 s))
     = 1.
Proof.
  cbv zeta.
  assert (Hsort : Sorted Rlt [100; 500; 900]) by (repeat constructor; lra).
  assert (Hall : Forall (Rle 100) [100; 500; 900]) by (repeat constructor; lra).
  destruct (play_resumes_without_jump defaultSettings 100 [100; 500; 900]
              (mkState 0.5 false 1.00275 (Some 90) 700 (Some 0) None 0 true 0.9 false)
              eq_refl Hsort Hall) as (_ & _ & _ & _ & _ & Hdown & Hdone).
  destruct (Hdown ltac:(cbn; lra)) as (Hmono & Hin).
  split; [exact Hmono|]. split; [exact Hin|].
  exact (proj1 (Hdone [100; 500] 900 [] eq_refl
                  ltac:(unfold RAMP_DURATION; lra))).
Defined.

(** ** Signs, crossings and the deceleration speed *)

Lemma halfSign_cases (m : nat) : halfSign m = 1 \/ halfSign m = -1.
Proof. unfold halfSign. destruct (Nat.even m); auto. Qed.

Lemma halfSign_succ (m : nat) : halfSign (S m) = - halfSign m.
Proof.
  unfold halfSign. rewrite Nat.even_succ, <- Nat.negb_even.
  destruct (Nat.even m); cbn; lra.
Qed.

Lemma crossedZero_same_side (sg a b : R) :
  sg = 1 \/ sg = -1 -> 0 <= a -> 0 < b -> crossedZero (sg * a) (sg * b) = false.
Proof.
  intros [-> | ->] Ha Hb; unfold crossedZero.
  - rewrite (leb_eq_false (1 * b) 0), (ltb_eq_false (1 * a) 0) by lra.
    rewrite andb_false_r. reflexivity.
  - rewrite (gtb_eq_false (-1 * a) 0), (geb_eq_false (-1 * b) 0) by lra.
    rewrite andb_false_r. reflexivity.
Qed.

Lemma crossedZero_other_side (sg a b : R) :
  sg = 1 \/ sg = -1 -> 0 < a -> 0 <= b -> crossedZero (sg * a) (- sg * b) = true.
Proof.
  intros [-> | ->] Ha Hb; unfold crossedZero.
  - rewrite gtb_eq_true, leb_eq_true by lra. reflexivity.
  - rewrite (gtb_eq_false (-1 * a) 0) by lra.
    rewrite ltb_eq_true, geb_eq_true by lra. reflexivity.
Qed.

Lemma decel_speed_general (p d : R) :
  0.01 < Rabs d -> Rabs p <= 1 ->
  0.08 <= Rmax 0.08 (sqrt (Rabs p / Rabs d)) <= 10.
Proof.
  intros Hd Hp. split; [apply Rmax_l|].
  apply Rmax_lub; [lra|].
  rewrite <- (sqrt_square 10) by lra. apply sqrt_le_1_alt.
  apply Rmult_le_reg_r with (Rabs d); [lra|]. unfold Rdiv.
  rewrite Rmult_assoc, Rinv_l by lra. nra.
Qed.

Lemma finished_is_quiet (cfg : Settings) (s : State) :
  Finished s -> isPlaying s = false -> needsTick s = false.
Proof.
  intros (Hd & Hw & Hr & _ & Hs & _) Hp. unfold needsTick.
  rewrite Hp, Hd, Hw, Hr, Hs. cbn. apply gtb_eq_false. lra.
Qed.

Lemma tickFixed_isPlaying (cfg : Settings) (dt : R) (n : nat) :
  forall s, isPlaying (tickFixed cfg dt n s) = isPlaying s.
Proof.
  induction n as [|n IH]; intros s; cbn; [reflexivity|].
  rewrite IH. apply tick_isPlaying.
Qed.

(** ** The circular buffer is a bounded queue *)

Lemma rem_wrap (a M : Z) :
  (0 < M)%Z -> (0 <= a < 2 * M)%Z ->
  Z.rem a M = if Z.ltb a M then a else (a - M)%Z.
Proof.
  intros HM Ha. rewrite Z.rem_mod_nonneg by lia.
  destruct (Z.ltb_spec a M) as [Hlt|Hge].
  - apply Z.mod_small. lia.
  - replace a with ((a - M) + 1 * M)%Z at 1 by ring.
    rewrite Z.mod_add by lia. apply Z.mod_small. lia.
Qed.

Lemma lastN_short {A : Type} (n : Z) (l : list A) :
  (Z.of_nat (List.length l) <= n)%Z -> CircularBuffer.lastN A n l = l.
Proof.
  intros H. unfold CircularBuffer.lastN.
  replace (List.length l - Z.to_nat n)%nat with 0%nat by lia. reflexivity.
Qed.

Lemma lastN_length {A : Type} (n : Z) (l : list A) :
  (0 <= n)%Z ->
  Z.of_nat (List.length (CircularBuffer.lastN A n l))
  = Z.min (Z.of_nat (List.length l)) n.
Proof.
  intros Hn. unfold CircularBuffer.lastN. rewrite length_skipn. lia.
Qed.

Lemma lastN_nth {A : Type} (n : Z) (l : list A) (i : nat) :
  nth_error (CircularBuffer.lastN A n l) i
  = nth_error l (List.length l - Z.to_nat n + i).
Proof. unfold CircularBuffer.lastN. apply nth_error_skipn. Qed.

Lemma fold_store {A : Type} (g : Z -> option A) (n : nat) :
  forall (start : nat) (init : Z -> option A) (k : Z),
    fold_left (fun nb i => CircularBuffer.store A nb i (g i))
              (map Z.of_nat (seq start n)) init k
    = if (Z.leb (Z.of_nat start) k && Z.ltb k (Z.of_nat (start + n)))%bool
      then g k else init k.
Proof.
  induction n as [|n IH]; intros start init k.
  - cbn [seq map fold_left].
    destruct (Z.leb_spec (Z.of_nat start) k), (Z.ltb_spec k (Z.of_nat (start + 0)));
      cbn; try reflexivity. lia.
  - cbn [seq map fold_left]. rewrite IH. unfold CircularBuffer.store.
    destruct (Z.leb_spec (Z.of_nat (S start)) k),
             (Z.ltb_spec k (Z.of_nat (S start + n))),
             (Z.leb_spec (Z.of_nat start) k),
             (Z.ltb_spec k (Z.of_nat (start + S n))),
             (Z.eqb_spec k (Z.of_nat start));
      cbn; try reflexivity; try lia. subst. reflexivity.
Qed.

Lemma holds_constructor {A : Type} (n : Z) :
  (0 < n)%Z -> CircularBuffer.Holds A (CircularBuffer.constructor A n) [].
Proof.
  intros Hn. unfold CircularBuffer.Holds. cbn.
  repeat split; try lia; intros i Hi; cbn in Hi; lia.
Qed.

Lemma holds_clear {A : Type} (b : CircularBuffer.t A) (l : list A) :
  CircularBuffer.Holds A b l -> CircularBuffer.Holds A (CircularBuffer.clear A b) [].
Proof.
  intros (HM & _ & _ & _ & _). unfold CircularBuffer.Holds. cbn.
  repeat split; try lia; intros i Hi; cbn in Hi; lia.
Qed.

Lemma holds_get {A : Type} (b : CircularBuffer.t A) (l : list A) (i : Z) :
  CircularBuffer.Holds A b l -> (0 <= i)%Z ->
  CircularBuffer.get A i b = nth_error l (Z.to_nat i).
Proof.
  intros (HM & Hsize & Hle & Hhead & Hslots) Hi. unfold CircularBuffer.get.
  destruct (Z.geb_spec i (CircularBuffer.size A b)) as [Hout|Hin].
  - symmetry. apply nth_error_None. lia.
  - rewrite <- (Z2Nat.id i) at 1 by exact Hi. apply Hslots. lia.
Qed.

Lemma holds_push {A : Type} (b : CircularBuffer.t A) (l : list A) (x : A) :
  CircularBuffer.Holds A b l ->
  CircularBuffer.Holds A (CircularBuffer.push A x b)
    (CircularBuffer.lastN A (CircularBuffer.maxSize A b) (l ++ [x])).
Proof.
  intros (HM & Hsize & Hle & Hhead & Hslots).
  destruct b as [M buf h s]. cbn [CircularBuffer.maxSize CircularBuffer.buffer
    CircularBuffer.head CircularBuffer.size] in *.
  unfold CircularBuffer.Holds, CircularBuffer.push.
  cbn [CircularBuffer.maxSize CircularBuffer.buffer CircularBuffer.head
       CircularBuffer.size].
  assert (Hlen : Z.of_nat (List.length (l ++ [x])) = (s + 1)%Z).
  { rewrite length_app. cbn. lia. }
  rewrite lastN_length by lia. rewrite Hlen.
  rewrite (rem_wrap (h + 1) M) by lia.
  split; [exact HM|].
  destruct (Z.ltb_spec s M) as [Hroom|Hfull].
  - split; [lia|]. split; [lia|]. split.
    { destruct (Z.ltb_spec (h + 1) M); lia. }
    intros i Hi. rewrite lastN_nth.
    assert (Hi' : (Z.of_nat i < s + 1)%Z).
    { apply Nat2Z.inj_lt in Hi. rewrite lastN_length in Hi by lia. lia. }
    replace (List.length (l ++ [x]) - Z.to_nat M + i)%nat with i by lia.
    unfold CircularBuffer.store.
    set (h' := if Z.ltb (h + 1) M then (h + 1)%Z else (h + 1 - M)%Z).
    assert (Hh' : ((h' = h + 1 /\ h + 1 < M) \/ (h' = 0 /\ h + 1 = M))%Z).
    { subst h'. destruct (Z.ltb_spec (h + 1) M); lia. }
    rewrite (rem_wrap (h' - (s + 1) + Z.of_nat i + M) M) by lia.
    destruct (Z.eq_dec (Z.of_nat i) s) as [Hnew|Hold].
    + replace (nth_error (l ++ [x]) i) with (Some x).
      2:{ rewrite nth_error_app2 by lia.
          replace (i - List.length l)%nat with 0%nat by lia. reflexivity. }
      destruct (Z.ltb_spec (h' - (s + 1) + Z.of_nat i + M) M);
        destruct (Z.eqb_spec (h' - (s + 1) + Z.of_nat i + M) h);
        destruct (Z.eqb_spec (h' - (s + 1) + Z.of_nat i + M - M) h);
        try reflexivity; lia.
    + assert (Hil : (i < List.length l)%nat) by lia.
      rewrite nth_error_app1 by exact Hil.
      rewrite <- (Hslots i Hil).
      rewrite (rem_wrap (h - s + Z.of_nat i + M) M) by lia.
      destruct (Z.ltb_spec (h' - (s + 1) + Z.of_nat i + M) M);
        destruct (Z.ltb_spec (h - s + Z.of_nat i + M) M);
        destruct (Z.eqb_spec (h' - (s + 1) + Z.of_nat i + M) h);
        destruct (Z.eqb_spec (h' - (s + 1) + Z.of_nat i + M - M) h);
        try lia; f_equal; lia.
  - assert (HsM : s = M) by lia.
    split; [lia|]. split; [lia|]. split.
    { destruct (Z.ltb_spec (h + 1) M); lia. }
    intros i Hi. rewrite lastN_nth.
    assert (Hi' : (Z.of_nat i < M)%Z).
    { apply Nat2Z.inj_lt in Hi. rewrite lastN_length in Hi by lia. lia. }
    replace (List.length (l ++ [x]) - Z.to_nat M + i)%nat with (S i) by lia.
    unfold CircularBuffer.store.
    set (h' := if Z.ltb (h + 1) M then (h + 1)%Z else (h + 1 - M)%Z).
    assert (Hh' : ((h' = h + 1 /\ h + 1 < M) \/ (h' = 0 /\ h + 1 = M))%Z).
    { subst h'. destruct (Z.ltb_spec (h + 1) M); lia. }
    rewrite (rem_wrap (h' - s + Z.of_nat i + M) M) by lia.
    destruct (Z.eq_dec (Z.of_nat (S i)) M) as [Hnew|Hold].
    + replace (nth_error (l ++ [x]) (S i)) with (Some x).
      2:{ rewrite nth_error_app2 by lia.
          replace (S i - List.length l)%nat with 0%nat by lia. reflexivity. }
      destruct (Z.ltb_spec (h' - s + Z.of_nat i + M) M);
        destruct (Z.eqb_spec (h' - s + Z.of_nat i + M) h);
        destruct (Z.eqb_spec (h' - s + Z.of_nat i + M - M) h);
        try reflexivity; lia.
    + assert (Hil : (S i < List.length l)%nat) by lia.
      rewrite nth_error_app1 by exact Hil.
      rewrite <- (Hslots (S i) Hil).
      rewrite (rem_wrap (h - s + Z.of_nat (S i) + M) M) by lia.
      destruct (Z.ltb_spec (h' - s + Z.of_nat i + M) M);
        destruct (Z.ltb_spec (h - s + Z.of_nat (S i) + M) M);
        destruct (Z.eqb_spec (h' - s + Z.of_nat i + M) h);
        destruct (Z.eqb_spec (h' - s + Z.of_nat i + M - M) h);
        try lia; f_equal; lia.
Qed.

Lemma holds_resize {A : Type} (b : CircularBuffer.t A) (l : list A) (n : Z) :
  CircularBuffer.Holds A b l -> (0 < n)%Z ->
  CircularBuffer.Holds A (CircularBuffer.resize A n b) (CircularBuffer.lastN A n l).
Proof.
  intros Hb Hn. unfold CircularBuffer.resize.
  destruct (Z.eqb_spec n (CircularBuffer.maxSize A b)) as [Hsame|Hdiff].
  - destruct Hb as (HM & Hsize & Hle & Hrest).
    rewrite lastN_short by lia. repeat split; try assumption; apply Hrest.
  - cbv zeta. pose proof Hb as (HM & Hsize & Hle & Hhead & Hslots).
    set (s := CircularBuffer.size A b) in *.
    set (c := Z.min s n).
    unfold CircularBuffer.Holds.
    cbn [CircularBuffer.maxSize CircularBuffer.buffer CircularBuffer.head
         CircularBuffer.size].
    rewrite lastN_length by lia. rewrite <- Hsize. fold c.
    rewrite (rem_wrap c n) by lia.
    split; [exact Hn|]. split; [reflexivity|]. split; [lia|]. split.
    { destruct (Z.ltb_spec c n); lia. }
    intros i Hi.
    assert (Hi' : (Z.of_nat i < c)%Z).
    { apply Nat2Z.inj_lt in Hi. rewrite lastN_length in Hi by lia. lia. }
    unfold CircularBuffer.upto.
    pose proof (fold_store (fun k => CircularBuffer.get A (s - c + k) b)
                  (Z.to_nat c) 0 (fun _ => None)) as Hfold.
    cbv beta in Hfold. rewrite Hfold. clear Hfold.
    set (slot := Z.rem _ n).
    assert (Hslot : slot = Z.of_nat i).
    { subst slot. rewrite rem_wrap by (destruct (Z.ltb_spec c n); lia).
      destruct (Z.ltb_spec c n);
        match goal with |- (if ?t then _ else _) = _ => destruct t eqn:E end;
        try (apply Z.ltb_lt in E); try (apply Z.ltb_ge in E); lia. }
    rewrite Hslot.
    replace (Z.leb (Z.of_nat 0) (Z.of_nat i)) with true
      by (symmetry; apply Z.leb_le; lia).
    replace (Z.ltb (Z.of_nat i) (Z.of_nat (0 + Z.to_nat c))) with true
      by (symmetry; apply Z.ltb_lt; lia).
    cbn [andb].
    rewrite (holds_get b l) by (exact Hb || lia).
    rewrite lastN_nth. f_equal. lia.
Qed.

Lemma map_nth_error_seq {A : Type} (l : list A) :
  map (nth_error l) (seq 0 (List.length l)) = map Some l.
Proof.
  induction l as [|a l IH]; [reflexivity|].
  cbn [List.length seq map nth_error]. f_equal.
  rewrite <- seq_shift, map_map. exact IH.
Qed.

Lemma holds_iterate {A : Type} (b : CircularBuffer.t A) (l : list A) :
  CircularBuffer.Holds A b l -> CircularBuffer.iterate A b = map Some l.
Proof.
  intros Hb. pose proof Hb as (_ & Hsize & _).
  unfold CircularBuffer.iterate, CircularBuffer.upto.
  rewrite Hsize, Nat2Z.id, map_map, <- map_nth_error_seq.
  apply map_ext. intros k. rewrite (holds_get b l) by (exact Hb || lia).
  rewrite Nat2Z.id. reflexivity.
Qed.

Lemma holds_apply {A : Type} (b : CircularBuffer.t A) (q : Z * list A)
      (op : CircularBuffer.Op A) :
  CircularBuffer.Holds A b (snd q) -> CircularBuffer.maxSize A b = fst q ->
  CircularBuffer.positiveResize A op ->
  CircularBuffer.Holds A (CircularBuffer.apply A b op)
    (snd (CircularBuffer.applyQueue A q op))
  /\ CircularBuffer.maxSize A (CircularBuffer.apply A b op)
     = fst (CircularBuffer.applyQueue A q op).
Proof.
  intros Hb HM Hop. destruct op as [x| |n]; cbn [CircularBuffer.apply
    CircularBuffer.applyQueue fst snd].
  - rewrite <- HM. split; [apply holds_push; exact Hb | reflexivity].
  - split; [apply (holds_clear b (snd q)); exact Hb | exact HM].
  - split; [apply holds_resize; assumption|].
    unfold CircularBuffer.resize.
    destruct (Z.eqb_spec n (CircularBuffer.maxSize A b)); [symmetry; assumption|].
    reflexivity.
Qed.

Lemma holds_run {A : Type} (ops : list (CircularBuffer.Op A)) :
  forall (b : CircularBuffer.t A) (q : Z * list A),
    CircularBuffer.Holds A b (snd q) -> CircularBuffer.maxSize A b = fst q ->
    Forall (CircularBuffer.positiveResize A) ops ->
    CircularBuffer.Holds A (fold_left (CircularBuffer.apply A) ops b)
      (snd (fold_left (CircularBuffer.applyQueue A) ops q))
    /\ CircularBuffer.maxSize A (fold_left (CircularBuffer.apply A) ops b)
       = fst (fold_left (CircularBuffer.applyQueue A) ops q).
Proof.
  induction ops as [|op ops IH]; intros b q Hb HM Hops.
  - cbn. split; assumption.
  - inversion Hops as [|? ? Hop Hrest]; subst. cbn [fold_left].
    destruct (holds_apply b q op Hb HM Hop) as [Hb' HM'].
    apply IH; assumption.
Qed.

(** X3. The circular buffer behind the motion trail behaves as a bounded
    queue.  Start from [new CircularBuffer(cap)] with a positive capacity and
    make any sequence of push, clear and resize calls (resizes to positive
    capacities).  Then the buffer agrees with a plain list that is appended
    to and trimmed to its newest maxSize items: same capacity, same length,
    never more items than the capacity, the iterator yields exactly the
    list's items oldest first, and get(i) is the i-th of them, undefined from
    the length on. *)
Theorem circular_buffer_is_bounded_queue {A : Type} (cap : Z)
        (ops : list (CircularBuffer.Op A)) :
  (0 < cap)%Z -> Forall (CircularBuffer.positiveResize A) ops ->
  let b := fold_left (CircularBuffer.apply A) ops (CircularBuffer.constructor A cap) in
  let q := fold_left (CircularBuffer.applyQueue A) ops (cap, []) in
  CircularBuffer.maxSize A b = fst q
  /\ CircularBuffer.length A b = Z.of_nat (List.length (snd q))
  /\ (CircularBuffer.length A b <= CircularBuffer.maxSize A b)%Z
  /\ CircularBuffer.iterate A b = map Some (snd q)
  /\ (forall i, (0 <= i)%Z ->
        CircularBuffer.get A i b = nth_error (snd q) (Z.to_nat i))
  /\ (forall i, (CircularBuffer.length A b <= i)%Z ->
        CircularBuffer.get A i b = None).
Proof.
  intros Hcap Hops. cbv zeta.
  destruct (holds_run ops (CircularBuffer.constructor A cap) (cap, [])
              (holds_constructor cap Hcap) eq_refl Hops) as [Hb HM].
  pose proof Hb as (_ & Hsize & Hle & _).
  split; [exact HM|]. split; [exact Hsize|]. split; [exact Hle|].
  split; [apply holds_iterate; exact Hb|]. split.
  - intros i Hi. apply holds_get; assumption.
  - intros i Hi. unfold CircularBuffer.get, CircularBuffer.length in *.
    destruct (Z.geb_spec i (CircularBuffer.size A
      (fold_left (CircularBuffer.apply A) ops (CircularBuffer.constructor A cap))));
      [reflexivity | lia].
Qed.

Lemma circular_buffer_is_bounded_queue_witness :
  CircularBuffer.iterate nat
    (fold_left (CircularBuffer.apply nat)
       [CircularBuffer.Push nat 1%nat; CircularBuffer.Push nat 2%nat;
        CircularBuffer.Push nat 3%nat; CircularBuffer.Push nat 4%nat;
        CircularBuffer.Resize nat 2; CircularBuffer.Push nat 5%nat]
       (CircularBuffer.constructor nat 3))
  = [Some 4%nat; Some 5%nat].
Proof.
  refine (proj1 (proj2 (proj2 (proj2
    (circular_buffer_is_bounded_queue 3
       [CircularBuffer.Push nat 1%nat; CircularBuffer.Push nat 2%nat;
        CircularBuffer.Push nat 3%nat; CircularBuffer.Push nat 4%nat;
        CircularBuffer.Resize nat 2; CircularBuffer.Push nat 5%nat] _ _))))).
  - lia.
  - repeat constructor.
Defined.

(** ** Colours *)

Lemma hex_char_value (c : ascii) :
  Color.isHexChar c = true ->
  exists d, Color.digitValue c = Some d /\ (0 <= d <= 15)%Z.
Proof.
  unfold Color.isHexChar, Color.digitValue. cbv zeta.
  set (n := Z.of_N (N_of_ascii c)).
  destruct (Z.leb_spec 48 n), (Z.leb_spec n 57), (Z.leb_spec 97 n),
           (Z.leb_spec n 102), (Z.leb_spec 65 n), (Z.leb_spec n 70);
    cbn; intros Hc; try discriminate Hc; eexists; (split; [reflexivity | lia]).
Qed.

Lemma hash_is_not_hex (c : ascii) :
  Color.isHexChar c = true -> Ascii.eqb c "#" = false.
Proof.
  intros H. destruct (Ascii.eqb_spec c "#"%char) as [->|]; [|reflexivity].
  vm_compute in H. discriminate H.
Qed.

Lemma parse_pair (c1 c2 : ascii) :
  Color.isHexChar c1 = true -> Color.isHexChar c2 = true ->
  exists v, Color.parseInt16 (String c1 (String c2 EmptyString)) = Some v
            /\ (0 <= v <= 255)%Z.
Proof.
  intros H1 H2.
  destruct (hex_char_value c1 H1) as (d1 & E1 & R1).
  destruct (hex_char_value c2 H2) as (d2 & E2 & R2).
  exists (16 * (16 * 0 + d1) + d2)%Z. split; [|lia].
  unfold Color.parseInt16. cbn [Color.parseDigits]. rewrite E1, E2. reflexivity.
Qed.

Lemma sixHex_some (s : string) (g1 g2 g3 : string) :
  Color.sixHex s = Some (g1, g2, g3) ->
  exists c1 c2 c3 c4 c5 c6,
    s = String c1 (String c2 (String c3 (String c4 (String c5 (String c6 EmptyString)))))
    /\ g1 = String c1 (String c2 EmptyString)
    /\ g2 = String c3 (String c4 EmptyString)
    /\ g3 = String c5 (String c6 EmptyString)
    /\ Color.isHexChar c1 = true /\ Color.isHexChar c2 = true
    /\ Color.isHexChar c3 = true /\ Color.isHexChar c4 = true
    /\ Color.isHexChar c5 = true /\ Color.isHexChar c6 = true.
Proof.
  unfold Color.sixHex.
  destruct s as [|c1 [|c2 [|c3 [|c4 [|c5 [|c6 [|c7 s]]]]]]]; try discriminate.
  cbn [forallb].
  destruct (Color.isHexChar c1) eqn:E1; [|discriminate].
  destruct (Color.isHexChar c2) eqn:E2; [|discriminate].
  destruct (Color.isHexChar c3) eqn:E3; [|discriminate].
  destruct (Color.isHexChar c4) eqn:E4; [|discriminate].
  destruct (Color.isHexChar c5) eqn:E5; [|discriminate].
  destruct (Color.isHexChar c6) eqn:E6; [|discriminate].
  cbn. intros H. injection H as <- <- <-.
  exists c1, c2, c3, c4, c5, c6. repeat split; try reflexivity; assumption.
Qed.

Lemma sixHex_length (s : string) :
  String.length s <> 6%nat -> Color.sixHex s = None.
Proof.
  intros H. destruct (Color.sixHex s) as [[[g1 g2] g3]|] eqn:E; [|reflexivity].
  destruct (sixHex_some s g1 g2 g3 E) as (c1 & c2 & c3 & c4 & c5 & c6 & -> & _).
  cbn in H. congruence.
Qed.

Lemma execHex_some (hex : string) (g1 g2 g3 : string) :
  Color.execHex hex = Some (g1, g2, g3) ->
  Color.sixHex hex = Some (g1, g2, g3)
  \/ exists rest, hex = String "#" rest /\ Color.sixHex rest = Some (g1, g2, g3).
Proof.
  unfold Color.execHex. cbv zeta.
  destruct hex as [|c rest]; [intros H; left; exact H|].
  destruct (Ascii.eqb_spec c "#"%char) as [->|Hne].
  - destruct (Color.sixHex rest) as [groups|] eqn:E.
    + intros H. injection H as ->. right. exists rest. split; [reflexivity | exact E].
    + intros H. left. exact H.
  - intros H. left. exact H.
Qed.

Lemma execHex_groups (hex : string) (g1 g2 g3 : string) :
  Color.execHex hex = Some (g1, g2, g3) ->
  exists v1 v2 v3,
    Color.parseInt16 g1 = Some v1 /\ Color.parseInt16 g2 = Some v2
    /\ Color.parseInt16 g3 = Some v3
    /\ (0 <= v1 <= 255)%Z /\ (0 <= v2 <= 255)%Z /\ (0 <= v3 <= 255)%Z.
Proof.
  intros H.
  assert (Hsix : exists s, Color.sixHex s = Some (g1, g2, g3)).
  { destruct (execHex_some hex g1 g2 g3 H) as [E|(rest & _ & E)]; eauto. }
  destruct Hsix as (s & Hs).
  destruct (sixHex_some s g1 g2 g3 Hs)
    as (c1 & c2 & c3 & c4 & c5 & c6 & _ & -> & -> & -> & H1 & H2 & H3 & H4 & H5 & H6).
  destruct (parse_pair c1 c2 H1 H2) as (v1 & E1 & R1).
  destruct (parse_pair c3 c4 H3 H4) as (v2 & E2 & R2).
  destruct (parse_pair c5 c6 H5 H6) as (v3 & E3 & R3).
  exists v1, v2, v3. repeat split; assumption || lia.
Qed.

Lemma execHex_hash_optional (s : string) :
  String.length s = 6%nat -> Color.execHex (String "#" s) = Color.execHex s.
Proof.
  intros Hlen. unfold Color.execHex at 1. cbv zeta. cbn [Ascii.eqb].
  replace (Ascii.eqb "#" "#") with true by reflexivity.
  assert (Hno : Color.sixHex (String "#" s) = None)
    by (apply sixHex_length; cbn; lia).
  assert (Hs : Color.execHex s = Color.sixHex s).
  { unfold Color.execHex. cbv zeta. destruct s as [|c rest]; [reflexivity|].
    destruct (Ascii.eqb c "#"); [|reflexivity].
    rewrite (sixHex_length rest) by (cbn in Hlen; lia). reflexivity. }
  rewrite Hs, Hno. destruct (Color.sixHex s); reflexivity.
Qed.

Lemma execHex_length (hex : string) :
  String.length hex <> 6%nat -> String.length hex <> 7%nat ->
  Color.execHex hex = None.
Proof.
  intros H6 H7.
  destruct (Color.execHex hex) as [[[g1 g2] g3]|] eqn:E; [|reflexivity].
  destruct (execHex_some hex g1 g2 g3 E) as [Hs|(rest & -> & Hs)].
  - rewrite sixHex_length in Hs by exact H6. discriminate.
  - rewrite sixHex_length in Hs; [discriminate|]. cbn in H7. lia.
Qed.

(** X4. [hexToRgb] never yields NaN or a component outside 0..255, whatever
    string it is given.  A string that is neither 6 nor 7 characters long,
    such as the three-digit short form of a colour, gives white; and for a
    string of six characters the leading [#] makes no difference. *)
Theorem hexToRgb_total_and_in_range (hex : string) :
  (exists r g b,
      Color.hexToRgb hex = Color.mkRgb (Some r) (Some g) (Some b)
      /\ (0 <= r <= 255)%Z /\ (0 <= g <= 255)%Z /\ (0 <= b <= 255)%Z)
  /\ (String.length hex <> 6%nat -> String.length hex <> 7%nat ->
      Color.hexToRgb hex = Color.white)
  /\ (String.length hex = 6%nat ->
      Color.hexToRgb (String "#" hex) = Color.hexToRgb hex).
Proof.
  split; [|split].
  - unfold Color.hexToRgb.
    destruct (Color.execHex hex) as [[[g1 g2] g3]|] eqn:E.
    + destruct (execHex_groups hex g1 g2 g3 E)
        as (v1 & v2 & v3 & -> & -> & -> & R1 & R2 & R3).
      exists v1, v2, v3. repeat split; lia.
    + exists 255%Z, 255%Z, 255%Z. repeat split; lia.
  - intros H6 H7. unfold Color.hexToRgb.
    rewrite execHex_length by assumption. reflexivity.
  - intros Hlen. unfold Color.hexToRgb.
    rewrite execHex_hash_optional by exact Hlen. reflexivity.
Qed.

Lemma hexToRgb_total_and_in_range_witness :
  Color.hexToRgb "#fff" = Color.white
  /\ Color.hexToRgb "#5661fa" = Color.hexToRgb "5661fa".
Proof.
  split.
  - apply (proj1 (proj2 (hexToRgb_total_and_in_range "#fff"))); cbn; lia.
  - apply (proj2 (proj2 (hexToRgb_total_and_in_range "5661fa"))). reflexivity.
Defined.

Lemma bytes_round_trip_table :
  forallb Color.byteRoundTrips (map Z.of_nat (seq 0 256)) = true.
Proof. vm_compute. reflexivity. Qed.

Lemma byte_round_trip (v : Z) :
  (0 <= v <= 255)%Z ->
  exists c1 c2,
    Color.padStart2 (Color.toString16 v) = String c1 (String c2 EmptyString)
    /\ Color.isHexChar c1 = true /\ Color.isHexChar c2 = true
    /\ Color.parseInt16 (String c1 (String c2 EmptyString)) = Some v.
Proof.
  intros Hv.
  assert (Hin : In v (map Z.of_nat (seq 0 256))).
  { apply in_map_iff. exists (Z.to_nat v). split; [lia|]. apply in_seq. lia. }
  pose proof (proj1 (forallb_forall _ _) bytes_round_trip_table v Hin) as Hok.
  unfold Color.byteRoundTrips in Hok.
  destruct (Color.padStart2 (Color.toString16 v)) as [|c1 [|c2 [|c3 rest]]];
    try discriminate Hok.
  exists c1, c2. split; [reflexivity|].
  destruct (Color.isHexChar c1); [|discriminate Hok].
  destruct (Color.isHexChar c2); [|discriminate Hok].
  destruct (Color.parseInt16 (String c1 (String c2 EmptyString))) as [w|];
    [|discriminate Hok].
  cbn in Hok. apply Z.eqb_eq in Hok. subst. repeat split; reflexivity.
Qed.

Lemma round_byte (x : R) : 0 <= x <= 255 -> (0 <= Math_round x <= 255)%Z.
Proof.
  intros [Hlo Hhi]. unfold Math_round, Js.floor.
  pose proof (Int_part_bounds (x + 0.5)) as [Blo Bhi].
  assert (H1 : IZR (-1) < IZR (Int_part (x + 0.5))) by lra.
  assert (H2 : IZR (Int_part (x + 0.5)) < IZR 256) by lra.
  apply lt_IZR in H1, H2. lia.
Qed.

Lemma hslChannel_range (h s l n : R) :
  0 <= s <= 100 -> 0 <= l <= 100 -> 0 <= Color.hslChannel h s l n <= 1.
Proof.
  intros Hs Hl. unfold Color.hslChannel. cbv zeta.
  set (k := Js.fmod (n + h / 30) 12).
  set (m := Rmax (Rmin (Rmin (k - 3) (9 - k)) 1) (-1)).
  assert (Hm : -1 <= m <= 1).
  { subst m. split; [apply Rmax_r|].
    apply Rmax_lub; [apply Rmin_r | lra]. }
  set (l' := l / 100). set (s' := s / 100).
  assert (Hl' : 0 <= l' <= 1) by (subst l'; lra).
  assert (Hs' : 0 <= s' <= 1) by (subst s'; lra).
  set (q := Rmin l' (1 - l')).
  assert (Hq : 0 <= q /\ q <= l' /\ q <= 1 - l').
  { subst q. split; [apply Rmin_glb; lra|]. split; [apply Rmin_l | apply Rmin_r]. }
  assert (Ha : 0 <= s' * q <= q) by nra.
  split; nra.
Qed.

Lemma hslByte_range (h s l n : R) :
  0 <= s <= 100 -> 0 <= l <= 100 -> (0 <= Color.hslByte h s l n <= 255)%Z.
Proof.
  intros Hs Hl. unfold Color.hslByte. apply round_byte.
  pose proof (hslChannel_range h s l n Hs Hl). lra.
Qed.

Lemma execHex_of_bytes (a1 a2 b1 b2 c1 c2 : ascii) :
  Color.isHexChar a1 = true -> Color.isHexChar a2 = true ->
  Color.isHexChar b1 = true -> Color.isHexChar b2 = true ->
  Color.isHexChar c1 = true -> Color.isHexChar c2 = true ->
  Color.execHex
    (String "#" (append (String a1 (String a2 EmptyString))
                  (append (String b1 (String b2 EmptyString))
                          (String c1 (String c2 EmptyString)))))
  = Some (String a1 (String a2 EmptyString),
          String b1 (String b2 EmptyString),
          String c1 (String c2 EmptyString)).
Proof.
  intros Ha1 Ha2 Hb1 Hb2 Hc1 Hc2.
  unfold Color.execHex. cbv zeta. cbn [append].
  replace (Ascii.eqb "#" "#") with true by reflexivity.
  unfold Color.sixHex at 1. cbn [forallb].
  rewrite Ha1, Ha2, Hb1, Hb2, Hc1, Hc2. reflexivity.
Qed.

(** X5. Every colour the colour wheel prints is read back exactly.  For a
    saturation and a lightness between 0 and 100 and any hue, [hslToHex]
    produces a seven-character string whose three bytes are between 0 and
    255; [hexToRgb] accepts it and returns those three bytes, never the white
    fallback by failure, and [hexToHsl] accepts it too. *)
Theorem wheel_colour_reads_back (h s l : R) :
  0 <= s <= 100 -> 0 <= l <= 100 ->
  Color.hexToRgb (Color.hslToHex h s l)
  = Color.mkRgb (Some (Color.hslByte h s l 0)) (Some (Color.hslByte h s l 8))
                (Some (Color.hslByte h s l 4))
  /\ String.length (Color.hslToHex h s l) = 7%nat
  /\ (0 <= Color.hslByte h s l 0 <= 255)%Z
  /\ (0 <= Color.hslByte h s l 8 <= 255)%Z
  /\ (0 <= Color.hslByte h s l 4 <= 255)%Z
  /\ Color.hexToHsl (Color.hslToHex h s l) <> None.
Proof.
  intros Hs Hl.
  pose proof (hslByte_range h s l 0 Hs Hl) as R0.
  pose proof (hslByte_range h s l 8 Hs Hl) as R8.
  pose proof (hslByte_range h s l 4 Hs Hl) as R4.
  destruct (byte_round_trip _ R0) as (a1 & a2 & Ea & Ha1 & Ha2 & Pa).
  destruct (byte_round_trip _ R8) as (b1 & b2 & Eb & Hb1 & Hb2 & Pb).
  destruct (byte_round_trip _ R4) as (c1 & c2 & Ec & Hc1 & Hc2 & Pc).
  unfold Color.hexToRgb, Color.hexToHsl, Color.hslToHex. cbv zeta.
  rewrite Ea, Eb, Ec.
  rewrite (execHex_of_bytes a1 a2 b1 b2 c1 c2) by assumption.
  rewrite Pa, Pb, Pc.
  split; [reflexivity|]. split; [reflexivity|].
  split; [exact R0|]. split; [exact R8|]. split; [exact R4|]. discriminate.
Qed.

Lemma wheel_colour_reads_back_witness :
  Color.hexToRgb (Color.hslToHex 0 100 50)
  = Color.mkRgb (Some (Color.hslByte 0 100 50 0)) (Some (Color.hslByte 0 100 50 8))
                (Some (Color.hslByte 0 100 50 4)).
Proof.
  refine (proj1 (wheel_colour_reads_back 0 100 50 _ _)); lra.
Defined.

Lemma quotient_in_unit (x d : R) : 0 < d -> - d <= x <= d -> -1 <= x / d <= 1.
Proof.
  intros Hd [Hlo Hhi]. unfold Rdiv.
  assert (Hi : 0 < / d) by (apply Rinv_0_lt_compat; exact Hd).
  assert (Hone : d * / d = 1) by (apply Rinv_r; lra).
  split; nra.
Qed.

Lemma quotient_sign (x d : R) :
  0 < d -> (x < 0 -> x / d < 0) /\ (0 <= x -> 0 <= x / d).
Proof.
  intros Hd. unfold Rdiv.
  assert (Hi : 0 < / d) by (apply Rinv_0_lt_compat; exact Hd).
  split; intros Hx; nra.
Qed.

Lemma rgbToHsl_range (r g b : R) :
  0 <= r <= 1 -> 0 <= g <= 1 -> 0 <= b <= 1 ->
  let c := Color.rgbToHsl r g b in
  0 <= Color.hue c < 360
  /\ 0 <= Color.saturation c <= 100
  /\ 0 <= Color.lightness c <= 100.
Proof.
  intros Hr Hg Hb. cbv zeta. unfold Color.rgbToHsl. cbv zeta.
  set (mx := Rmax (Rmax r g) b). set (mn := Rmin (Rmin r g) b).
  assert (Hmx : r <= mx /\ g <= mx /\ b <= mx /\ mx <= 1).
  { subst mx. pose proof (Rmax_l (Rmax r g) b). pose proof (Rmax_r (Rmax r g) b).
    pose proof (Rmax_l r g). pose proof (Rmax_r r g).
    repeat split; try lra. apply Rmax_lub; [apply Rmax_lub|]; lra. }
  assert (Hmn : mn <= r /\ mn <= g /\ mn <= b /\ 0 <= mn).
  { subst mn. pose proof (Rmin_l (Rmin r g) b). pose proof (Rmin_r (Rmin r g) b).
    pose proof (Rmin_l r g). pose proof (Rmin_r r g).
    repeat split; try lra. apply Rmin_glb; [apply Rmin_glb|]; lra. }
  assert (Hwhich : mx = r \/ mx = g \/ mx = b).
  { subst mx. unfold Rmax. repeat destruct (Rle_dec _ _); auto. }
  unfold Color.eqb.
  destruct (Req_dec_T mx mn) as [Hgrey|Hcol].
  { cbn [Color.hue Color.saturation Color.lightness]. lra. }
  assert (Hd : 0 < mx - mn) by lra.
  cbn [Color.hue Color.saturation Color.lightness].
  split; [|split].
  - destruct (Req_dec_T mx r) as [Er|Nr]; [|destruct (Req_dec_T mx g) as [Eg|Ng]].
    + pose proof (quotient_in_unit (g - b) (mx - mn) Hd ltac:(lra)) as Hq.
      destruct (quotient_sign (g - b) (mx - mn) Hd) as [Hneg Hpos].
      unfold Js.ltb. destruct (Rlt_dec g b) as [Hlt|Hge].
      * specialize (Hneg ltac:(lra)). lra.
      * specialize (Hpos ltac:(lra)). lra.
    + pose proof (quotient_in_unit (b - r) (mx - mn) Hd ltac:(lra)) as Hq. lra.
    + pose proof (quotient_in_unit (r - g) (mx - mn) Hd ltac:(lra)) as Hq. lra.
  - unfold Js.gtb, Js.ltb.
    destruct (Rlt_dec 0.5 ((mx + mn) / 2)) as [Hlight|Hdark].
    + assert (Hden : 0 < 2 - mx - mn) by lra.
      pose proof (quotient_in_unit (mx - mn) (2 - mx - mn) Hden ltac:(lra)) as Hq.
      destruct (quotient_sign (mx - mn) (2 - mx - mn) Hden) as [_ Hpos].
      specialize (Hpos ltac:(lra)). lra.
    + assert (Hden : 0 < mx + mn) by lra.
      pose proof (quotient_in_unit (mx - mn) (mx + mn) Hden ltac:(lra)) as Hq.
      destruct (quotient_sign (mx - mn) (mx + mn) Hden) as [_ Hpos].
      specialize (Hpos ltac:(lra)). lra.
  - lra.
Qed.

Lemma byte_fraction (v : Z) : (0 <= v <= 255)%Z -> 0 <= IZR v / 255 <= 1.
Proof.
  intros [Hlo Hhi]. apply IZR_le in Hlo, Hhi. lra.
Qed.

(** X6. Whatever string [hexToHsl] is given, it returns null exactly when the
    pattern does not match, and otherwise a hue in [0, 360), a saturation in
    [0, 100] and a lightness in [0, 100]; so [setColor] never puts a value
    outside those ranges into the wheel. *)
Theorem hexToHsl_in_range (hex : string) :
  (Color.hexToHsl hex = None <-> Color.execHex hex = None)
  /\ forall c, Color.hexToHsl hex = Some c ->
       0 <= Color.hue c < 360
       /\ 0 <= Color.saturation c <= 100
       /\ 0 <= Color.lightness c <= 100.
Proof.
  unfold Color.hexToHsl.
  destruct (Color.execHex hex) as [[[g1 g2] g3]|] eqn:E.
  - destruct (execHex_groups hex g1 g2 g3 E)
      as (v1 & v2 & v3 & -> & -> & -> & R1 & R2 & R3).
    split; [split; discriminate|].
    intros c Hc. injection Hc as <-.
    apply rgbToHsl_range; apply byte_fraction; assumption.
  - split; [split; reflexivity|]. intros c Hc. discriminate Hc.
Qed.

Lemma hexToHsl_in_range_witness :
  let c := Color.rgbToHsl (IZR 86 / 255) (IZR 97 / 255) (IZR 250 / 255) in
  0 <= Color.hue c < 360
  /\ 0 <= Color.saturation c <= 100
  /\ 0 <= Color.lightness c <= 100.
Proof.
  exact (proj2 (hexToHsl_in_range "#5661fa") _ eq_refl).
Defined.

(** ** The reverb impulse decays *)

Lemma exp_le_1 (x : R) : x <= 0 -> 0 < exp x <= 1.
Proof.
  intros Hx. split; [apply exp_pos|].
  destruct (Req_dec x 0) as [->|Hne]; [rewrite exp_0; lra|].
  rewrite <- exp_0. left. apply exp_increasing. lra.
Qed.

Lemma scaled_bound (S E D st : R) :
  Rabs S <= 1.5 -> 0 <= E -> 0 <= D <= 1 -> 0 <= st <= 1 ->
  Rabs (S * E * D * st) <= 1.5 * E.
Proof.
  intros HS HE HD Hst.
  replace (S * E * D * st) with (S * (E * D * st)) by ring.
  rewrite Rabs_mult. rewrite (Rabs_pos_eq (E * D * st)).
  2:{ apply Rmult_le_pos; [apply Rmult_le_pos|]; lra. }
  pose proof (Rabs_pos S) as HS0.
  assert (Hw : 0 <= E * D * st <= E).
  { assert (0 <= E * D <= E) by nra. nra. }
  nra.
Qed.

Ltac double_values :=
  repeat match goal with
         | |- context [Double.toR ?c] =>
             let v := eval vm_compute in (Double.toRatio c) in
             change (Double.toR c) with (IZR (fst v) / IZR (snd v));
             cbn [fst snd]
         end.

Lemma preset_bounds (type : string) :
  PRESETS type <> Inherited ->
  let p := presetFor type in
  0 < Double.toR (earlyDelay p)
  /\ 0 <= Double.toR (diffusion p) * 0.3 <= 1
  /\ 0 <= Double.toR (damping p) <= 1.
Proof.
  intros Hown. cbv zeta.
  destruct (presetFor_not_inherited type Hown) as [H|[H|[H|H]]]; rewrite H;
    cbn [earlyDelay diffusion damping
         PRESETS_room PRESETS_hall PRESETS_plate PRESETS_cathedral];
    double_values; lra.
Qed.

Lemma quotient_nonneg (x y : R) : 0 <= x -> 0 < y -> 0 <= x / y.
Proof.
  intros Hx Hy. unfold Rdiv. apply Rmult_le_pos; [exact Hx|].
  left. apply Rinv_0_lt_compat. exact Hy.
Qed.

Lemma early_bound (r1 r2 e : R) :
  -1 <= r1 <= 1 -> -1 <= r2 <= 1 -> 0 <= e <= 0.5 ->
  - (1.5) <= r1 + r2 * e <= 1.5.
Proof. intros H1 H2 He. split; nra. Qed.

Lemma mix_bound (x prev dm : R) :
  - (1.5) <= x <= 1.5 -> - (1.5) <= prev <= 1.5 -> 0 <= dm <= 1 ->
  - (1.5) <= x * (1 - dm) + prev * dm <= 1.5.
Proof. intros Hx Hp Hd. split; nra. Qed.

Lemma workerSample_bound (rnd : Noise) (type : string) (rate decay : R) (len : R)
      (st : R) (i : nat) (prev : R) (c : nat) :
  PRESETS type <> Inherited ->
  (forall k, 0 <= rnd k < 1) -> 0 < rate -> 0 < decay ->
  0 <= st <= 1 -> INR i < len -> Rabs prev <= 1.5 ->
  Rabs (fst (workerSample rnd (presetFor type) rate decay len st i prev c))
  <= 1.5 * exp (- (INR i / rate) * (1 / (decay * 0.5))).
Proof.
  intros Hown Hrnd Hrate Hdecay Hst Hi Hprev.
  destruct (preset_bounds type Hown) as (Hed & Hdm & Hdamp).
  set (p := presetFor type) in *.
  assert (Ht : 0 <= INR i / rate) by (apply quotient_nonneg; [apply pos_INR | lra]).
  assert (Hlen : 0 < len) by (pose proof (pos_INR i); lra).
  assert (Hprog : 0 <= INR i * (1 / len) <= 1).
  { replace (INR i * (1 / len)) with (INR i / len) by (unfold Rdiv; ring).
    split; [apply quotient_nonneg; [apply pos_INR | lra]|].
    apply Rmult_le_reg_r with len; [lra|]. unfold Rdiv.
    rewrite Rmult_assoc, Rinv_l by lra. lra. }
  assert (Henv : 0 < exp (- (INR i / rate) * (1 / (decay * 0.5)))) by apply exp_pos.
  assert (HD : 0 <= 1 - INR i * (1 / len) * Double.toR (damping p) <= 1) by nra.
  assert (Hearly : 0 < exp (- (INR i / rate) / Double.toR (earlyDelay p)) <= 1).
  { apply exp_le_1.
    replace (- (INR i / rate) / Double.toR (earlyDelay p))
      with (- ((INR i / rate) / Double.toR (earlyDelay p)))
      by (unfold Rdiv; ring).
    pose proof (quotient_nonneg (INR i / rate) (Double.toR (earlyDelay p)) Ht Hed).
    lra. }
  pose proof (Hrnd c) as Hc. pose proof (Hrnd (S c)) as Hc'.
  assert (Hprev' : -1.5 <= prev <= 1.5)
    by (unfold Rabs in Hprev; destruct (Rcase_abs prev); lra).
  unfold workerSample. cbv zeta. fold p.
  destruct (Js.ltb (INR i / rate) (Double.toR (earlyDelay p) * 3));
    destruct (Js.gtb (Double.toR (diffusion p)) 0.5 && (0 <? i)%nat);
    cbn [fst]; apply scaled_bound; try lra; try (left; exact Henv);
    apply Rabs_le;
    repeat first [ apply mix_bound | apply early_bound ]; lra.
Qed.

Lemma fillChannel_bound (f : nat -> R -> nat -> R * nat) (B : nat -> R) (N : nat) :
  (forall i prev c, (i < N)%nat -> Rabs prev <= 1.5 -> Rabs (fst (f i prev c)) <= B i) ->
  (forall i, B i <= 1.5) ->
  forall n i0 prev c,
    (i0 + n <= N)%nat -> Rabs prev <= 1.5 ->
    forall k, (k < n)%nat ->
      Rabs (nth k (fst (fillChannel f n i0 prev c)) 0) <= B (i0 + k)%nat.
Proof.
  intros Hf HB. induction n as [|n IH]; intros i0 prev c HN Hprev k Hk; [lia|].
  cbn [fillChannel].
  pose proof (Hf i0 prev c ltac:(lia) Hprev) as Hx.
  destruct (f i0 prev c) as [x c1]. cbn [fst] in Hx.
  assert (Hx' : Rabs x <= 1.5) by (pose proof (HB i0); lra).
  specialize (IH (S i0) x c1 ltac:(lia) Hx').
  destruct (fillChannel f n (S i0) x c1) as [rest c2]. cbn [fst] in *.
  destruct k as [|k]; cbn [nth].
  - rewrite Nat.add_0_r. exact Hx.
  - replace (i0 + S k)%nat with (S i0 + k)%nat by lia. apply IH. lia.
Qed.

Lemma envelope_le_1 (rate decay : R) (i : nat) :
  0 < rate -> 0 < decay ->
  1.5 * exp (- (INR i / rate) * (1 / (decay * 0.5))) <= 1.5.
Proof.
  intros Hrate Hdecay.
  assert (Ht : 0 <= INR i / rate) by (apply quotient_nonneg; [apply pos_INR | lra]).
  assert (Hk : 0 <= 1 / (decay * 0.5)) by (apply quotient_nonneg; lra).
  destruct (exp_le_1 (- (INR i / rate) * (1 / (decay * 0.5)))) as [_ H]; [nra | lra].
Qed.

Lemma channel_bound (rnd : Noise) (type : string) (rate decay : R) (n : nat)
      (st : R) (c : nat) (k : nat) :
  PRESETS type <> Inherited ->
  (forall j, 0 <= rnd j < 1) -> 0 < rate -> 0 < decay -> 0 <= st <= 1 ->
  (k < n)%nat ->
  Rabs (nth k (fst (fillChannel (workerSample rnd (presetFor type) rate decay (INR n) st)
                                n 0 0 c)) 0)
  <= 1.5 * exp (- (INR k / rate) * (1 / (decay * 0.5))).
Proof.
  intros Hown Hrnd Hrate Hdecay Hst Hk.
  pose proof (fillChannel_bound
                (workerSample rnd (presetFor type) rate decay (INR n) st)
                (fun i => 1.5 * exp (- (INR i / rate) * (1 / (decay * 0.5))))
                n) as Hfill.
  cbv beta in Hfill.
  apply (Hfill) with (i0 := 0%nat) (c := c) (prev := 0); try lia.
  - intros i prev c0 Hi Hprev. apply workerSample_bound; try assumption.
    apply lt_INR. exact Hi.
  - intros i. apply envelope_le_1; assumption.
  - rewrite Rabs_R0. lra.
Qed.

Lemma iterations_number (x : Double.Floor) (n : Z) :
  Double.toIndex x = Normal n ->
  (0 < Z.to_nat n)%nat -> Double.number x = INR (Z.to_nat n).
Proof.
  intros Hn Hpos. destruct (toIndex_normal x n Hn) as (Hr & _ & [ [-> ->] | -> ]).
  - cbn in Hpos. lia.
  - cbn [Double.number]. rewrite INR_IZR_INZ, Z2Nat.id by lia. reflexivity.
Qed.

(** X7. The generated reverb impulse decays.  With every draw of
    [Math.random] in [0, 1), a positive sample rate and a positive decay, each
    sample of each channel of the worker's impulse is bounded in magnitude by
    1.5 exp(-t / (decay / 2)) at its time t = i / sampleRate, hence by 1.5,
    for every reverb type; the buffer built by the main-thread fallback,
    whenever the context grants it one, satisfies the same bound. *)
Theorem reverb_impulse_decays (rnd : Noise) (ctx : AudioContext) (type : string)
        (decay : float) (imp : Impulse) :
  let rate := Double.toR (ctx_sampleRate ctx) in
  (forall j, 0 <= rnd j < 1) -> 0 < rate -> 0 < Double.toR decay ->
  generateImpulse rnd (ctx_sampleRate ctx) type decay = Normal imp ->
  forall ch,
    In ch (channels imp)
    \/ (exists b, createReverbImpulseFallback rnd ctx type decay = Normal b
                  /\ In ch (buf_data b)) ->
    forall i, (i < List.length ch)%nat ->
      Rabs (nth i ch 0)
      <= 1.5 * exp (- (INR i / rate) * (1 / (Double.toR decay * 0.5)))
      /\ Rabs (nth i ch 0) <= 1.5.
Proof.
  cbv zeta. intros Hrnd Hrate Hdecay Hgen ch Hin i Hi.
  set (rate := Double.toR (ctx_sampleRate ctx)) in *.
  set (dec := Double.toR decay) in *.
  set (B := fun k : nat => 1.5 * exp (- (INR k / rate) * (1 / (dec * 0.5)))).
  assert (HB : forall k, 0 <= B k <= 1.5).
  { intros k. unfold B. split; [pose proof (exp_pos (- (INR k / rate) * (1 / (dec * 0.5)))); lra|].
    apply envelope_le_1; assumption. }
  set (len := Double.Math_floor
                (ctx_sampleRate ctx
                 * Double.Math_min (durationMult (presetFor type) * decay) 6)).
  assert (Hworker : forall c, In c (channels imp) ->
                    forall k, (k < List.length c)%nat -> Rabs (nth k c 0) <= B k).
  { unfold generateImpulse in Hgen. cbv zeta in Hgen. fold len in Hgen.
    destruct (Double.toIndex len) as [n|err] eqn:Hn; [|discriminate].
    cbn [bind] in Hgen. fold rate dec in Hgen.
    destruct (Nat.eq_dec (Z.to_nat n) 0) as [Hz|Hnz].
    - rewrite Hz in Hgen. cbn [fillChannel] in Hgen.
      inversion Hgen; subst imp. cbn [channels].
      intros c [<-|[<-|[]]] k Hk; cbn in Hk; lia.
    - assert (Hown : PRESETS type <> Inherited).
      { intros Hinh. unfold len in Hn.
        rewrite (impulseLength_inherited _ type decay Hinh) in Hn.
        inversion Hn. subst n. apply Hnz. reflexivity. }
      rewrite (iterations_number len n Hn) in Hgen by lia.
      pose proof (fun st c k Hst => channel_bound rnd type rate dec (Z.to_nat n) st c k
                                      Hown Hrnd Hrate Hdecay Hst) as Hch.
      pose proof (Hch 1 0%nat) as H0.
      pose proof (fillChannel_length
                    (workerSample rnd (presetFor type) rate dec (INR (Z.to_nat n)) 1)
                    (Z.to_nat n) 0 0 0) as L0.
      destruct (fillChannel (workerSample rnd (presetFor type) rate dec
                                          (INR (Z.to_nat n)) 1)
                            (Z.to_nat n) 0 0 0) as [data0 c0].
      pose proof (Hch 0.97 c0) as H1.
      pose proof (fillChannel_length
                    (workerSample rnd (presetFor type) rate dec (INR (Z.to_nat n)) 0.97)
                    (Z.to_nat n) 0 0 c0) as L1.
      destruct (fillChannel (workerSample rnd (presetFor type) rate dec
                                          (INR (Z.to_nat n)) 0.97)
                            (Z.to_nat n) 0 0 c0) as [data1 c1].
      cbn [fst] in *. inversion Hgen; subst imp. cbn [channels].
      intros c [<-|[<-|[]]] k Hk; [apply H0 | apply H1]; lra || lia. }
  assert (Hmain : Rabs (nth i ch 0) <= B i).
  { destruct Hin as [Hin|(b & Hfb & Hin)]; [apply (Hworker ch Hin i Hi)|].
    assert (Hn : exists n, Double.toIndex len = Normal n).
    { unfold generateImpulse in Hgen. cbv zeta in Hgen. fold len in Hgen.
      destruct (Double.toIndex len) as [n|err]; [exists n; reflexivity|discriminate]. }
    destruct Hn as [n Hn].
    destruct (impulse_and_fallback rnd ctx type decay n Hn)
      as (c0 & c1 & Hgen' & _ & _ & Hfb').
    fold len in Hgen', Hfb'.
    rewrite Hgen in Hgen'. inversion Hgen'; subst imp. cbn [channels] in Hworker.
    rewrite Hfb in Hfb'.
    destruct (createBuffer ctx 2 len (ctx_sampleRate ctx)) as [silent|err];
      [|discriminate].
    cbn [bind] in Hfb'. inversion Hfb'; subst b. cbn [buf_data] in Hin.
    assert (Hover : forall c, In c [c0; c1] ->
                    forall F, (i < F)%nat ->
                              Rabs (nth i (overwrite c (repeat 0 F)) 0) <= B i).
    { intros c Hc F HiF. rewrite overwrite_nth by exact HiF.
      destruct (Nat.ltb_spec i (List.length c)) as [Hlt|Hge].
      - apply (Hworker c Hc i Hlt).
      - rewrite Rabs_R0. apply HB. }
    destruct Hin as [<-|[<-|[]]];
      rewrite overwrite_length, repeat_length in Hi;
      apply Hover; try exact Hi; cbn; auto. }
  split; [exact Hmain|]. pose proof (HB i). lra.
Qed.

Lemma reverb_impulse_decays_witness :
  let ctx := mkAudioContext 10 (fun _ _ => true) in
  exists imp,
    generateImpulse (fun _ => 0.5) 10 "hall" 2 = Normal imp
    /\ length imp = Double.Integer 24
    /\ forall ch, In ch (channels imp) ->
         forall i, (i < List.length ch)%nat -> Rabs (nth i ch 0) <= 1.5.
Proof.
  cbv zeta.
  assert (Hlen : Double.Math_floor
                   (10 * Double.Math_min (durationMult (presetFor "hall") * 2) 6)
                 = Double.Integer 24) by (vm_compute; reflexivity).
  destruct (impulse_and_fallback (fun _ => 0.5) (mkAudioContext 10 (fun _ _ => true))
              "hall" 2 24) as (c0 & c1 & Hgen & _).
  { cbn [ctx_sampleRate]. rewrite Hlen. reflexivity. }
  cbn [ctx_sampleRate] in Hgen. rewrite Hlen in Hgen.
  eexists. split; [exact Hgen|]. split; [reflexivity|].
  intros ch Hch i Hi.
  apply (reverb_impulse_decays (fun _ => 0.5) (mkAudioContext 10 (fun _ _ => true))
           "hall" 2 (mkImpulse [c0; c1] (Double.Integer 24) 10));
    cbn [ctx_sampleRate].
  - intros j. lra.
  - double_values. lra.
  - double_values. lra.
  - exact Hgen.
  - left. exact Hch.
  - exact Hi.
Defined.

(** ** Audio parameters *)

Lemma mix_angle (m : R) : 0 <= m <= 100 -> 0 <= m / 100 * PI / 2 <= PI / 2.
Proof. intros Hm. pose proof PI_RGT_0 as Hpi. split; nra. Qed.

(** X8. The wet/dry crossfade keeps the power constant.  For a reverb mix
    between 0 and 100 the dry gain is in [0, 1], the wet gain in [0, 1.5], and
    dry^2 + (wet / 1.5)^2 = 1; raising the mix never raises the dry gain and
    never lowers the wet gain; the mix 0 is fully dry and the mix 100 fully
    wet. *)
Theorem reverb_mix_is_equal_power (m : R) :
  0 <= m <= 100 ->
  exists dry wet,
    updateReverbMix true m = Some (dry, wet)
    /\ 0 <= dry <= 1 /\ 0 <= wet <= 1.5
    /\ dry * dry + (wet / 1.5) * (wet / 1.5) = 1
    /\ (forall m' dry' wet',
          m <= m' <= 100 -> updateReverbMix true m' = Some (dry', wet') ->
          dry' <= dry /\ wet <= wet')
    /\ updateReverbMix true 0 = Some (1, 0)
    /\ updateReverbMix true 100 = Some (0, 1.5).
Proof.
  intros Hm. pose proof PI_RGT_0 as Hpi. pose proof (mix_angle m Hm) as Ha.
  exists (cos (m / 100 * PI / 2)), (sin (m / 100 * PI / 2) * 1.5).
  split; [reflexivity|].
  pose proof (COS_bound (m / 100 * PI / 2)) as Hc.
  pose proof (SIN_bound (m / 100 * PI / 2)) as Hs.
  assert (Hc0 : 0 <= cos (m / 100 * PI / 2)) by (apply cos_ge_0; lra).
  assert (Hs0 : 0 <= sin (m / 100 * PI / 2)) by (apply sin_ge_0; lra).
  split; [lra|]. split; [lra|]. split.
  { replace (sin (m / 100 * PI / 2) * 1.5 / 1.5) with (sin (m / 100 * PI / 2))
      by lra.
    pose proof (sin2_cos2 (m / 100 * PI / 2)) as H. unfold Rsqr in H. lra. }
  split.
  { intros m' dry' wet' Hm' Hmix. unfold updateReverbMix in Hmix. cbv zeta in Hmix.
    injection Hmix as <- <-.
    pose proof (mix_angle m' ltac:(lra)) as Ha'.
    assert (Hle : m / 100 * PI / 2 <= m' / 100 * PI / 2) by nra.
    split.
    - apply cos_decr_1; lra.
    - apply Rmult_le_compat_r; [lra|]. apply sin_incr_1; lra. }
  split.
  - unfold updateReverbMix. cbv zeta.
    replace (0 / 100 * PI / 2) with 0 by field. rewrite cos_0, sin_0.
    f_equal. f_equal. ring.
  - unfold updateReverbMix. cbv zeta.
    replace (100 / 100 * PI / 2) with (PI / 2) by field. rewrite cos_PI2, sin_PI2.
    f_equal. f_equal. ring.
Qed.

Lemma reverb_mix_is_equal_power_witness :
  exists dry wet,
    updateReverbMix true 15 = Some (dry, wet)
    /\ dry * dry + (wet / 1.5) * (wet / 1.5) = 1.
Proof.
  destruct (reverb_mix_is_equal_power 15) as (dry & wet & Hmix & _ & _ & Hpow & _).
  - lra.
  - exists dry, wet. split; [exact Hmix | exact Hpow].
Defined.

Lemma scaled_pan (p amount : R) :
  -1 <= p <= 1 -> 0 <= amount <= 100 -> -1 <= p * (amount / 100) <= 1.
Proof. intros Hp Ha. split; nra. Qed.

(** X9. The pan follows the ball and stays a valid pan value.  With pan
    amounts between 0 and 100, every pan target that [updateAudio] sets, for
    the tone or for the music, lies in [-1, 1], and the tone frequency it sets
    is at least 20.  While the speed multiplier is not positive (the stopped
    state) the tone gain is sent to 0 and neither pan nor frequency is
    touched.  In a state whose position is in sync with virtualTime, as after
    every frame tick, the tone pan is the ball position scaled by the tone pan
    amount and the music pan the ball position scaled by the music pan
    amount. *)
Theorem audio_pan_follows_ball (cfg : Settings) (a : AudioSettings)
        (hasContext hasGainNode hasMusicPanner : bool) (s : State) :
  0 < cyclesPerMinute cfg ->
  0 <= tonePanAmount a <= 100 -> 0 <= musicPanAmount a <= 100 ->
  let t := updateAudio cfg a hasContext hasGainNode hasMusicPanner s in
  (forall p, panTarget t = Some p \/ musicPanTarget t = Some p -> -1 <= p <= 1)
  /\ (forall f, frequencyTarget t = Some f -> 20 <= f)
  /\ (speedMultiplier s <= 0 ->
      panTarget t = None /\ musicPanTarget t = None /\ frequencyTarget t = None
      /\ (hasContext = true -> hasGainNode = true -> gainTarget t = Some 0))
  /\ (InSync cfg s -> 0 < speedMultiplier s -> hasContext = true ->
      (hasGainNode = true -> audioEnabled a = true ->
       panTarget t = Some (ballPosition s * (tonePanAmount a / 100))
       /\ gainTarget t = Some (toneVolume a / 100 * speedMultiplier s))
      /\ (hasMusicPanner = true ->
          musicPanTarget t = Some (ballPosition s * (musicPanAmount a / 100)))).
Proof.
  intros Hc Htone Hmusic. cbv zeta.
  pose proof (wavePosition_range cfg (virtualTime s) Hc) as Hpos.
  unfold updateAudio. cbv zeta.
  destruct hasContext; cbn [negb].
  2:{ cbn. split; [intros p [H|H]; discriminate H|].
      split; [intros f H; discriminate H|].
      split; [intros _; repeat split; intros H; discriminate H
             | intros _ _ H; discriminate H]. }
  split; [|split; [|split]].
  - intros p Hp.
    destruct hasGainNode, (audioEnabled a), hasMusicPanner,
             (Js.gtb (speedMultiplier s) 0);
      cbn in Hp; destruct Hp as [Hp|Hp]; try discriminate Hp;
      injection Hp as <-; apply scaled_pan; assumption.
  - intros f Hf.
    destruct hasGainNode, (audioEnabled a), (Js.gtb (speedMultiplier s) 0);
      cbn in Hf; try discriminate Hf.
    injection Hf as <-. apply Rmax_l.
  - intros Hstop. rewrite (gtb_eq_false (speedMultiplier s) 0) by exact Hstop.
    rewrite !andb_false_r.
    destruct hasGainNode; cbn; repeat split; try reflexivity;
      intros; try reflexivity; discriminate.
  - intros Hsync Hmove _. unfold InSync in Hsync.
    rewrite (gtb_eq_true (speedMultiplier s) 0) by exact Hmove.
    rewrite !andb_true_r. split.
    + intros -> ->. cbn. rewrite Hsync. split; reflexivity.
    + intros ->. rewrite Hsync.
      destruct hasGainNode, (audioEnabled a); reflexivity.
Qed.

Lemma audio_pan_follows_ball_witness :
  gainTarget (updateAudio defaultSettings (mkAudioSettings true 30 100 110 80)
                          true true true initialState) = Some 0.
Proof.
  refine (proj2 (proj2 (proj2 (proj1 (proj2 (proj2
    (audio_pan_follows_ball defaultSettings (mkAudioSettings true 30 100 110 80)
       true true true initialState _ _ _))) _))) eq_refl eq_refl).
  - cbn. lra.
  - cbn. lra.
  - cbn. lra.
  - cbn. lra.
Defined.

Lemma round_of_integer (z : Z) : Math_round (IZR z) = z.
Proof.
  unfold Math_round, Js.floor. apply Int_part_unique. lra.
Qed.

Lemma round_nearest (x : R) : IZR (Math_round x) - 0.5 <= x < IZR (Math_round x) + 0.5.
Proof.
  unfold Math_round, Js.floor.
  pose proof (Int_part_bounds (x + 0.5)) as [Hlo Hhi]. lra.
Qed.

Lemma round_monotone (x y : R) : x <= y -> (Math_round x <= Math_round y)%Z.
Proof.
  intros Hxy. pose proof (round_nearest x) as [Hx _].
  pose proof (round_nearest y) as [_ Hy].
  assert (H : IZR (Math_round x) < IZR (Math_round y + 1)).
  { rewrite plus_IZR. lra. }
  apply lt_IZR in H. lia.
Qed.

(** X10. The frequency slider.  [freqToSlider] maps every frequency to an
    integer between 20 and 220, never decreasing with the frequency; inside
    that range the slider value is the nearest integer, at most 0.5 away.
    Reading the slider back with [sliderToFreq] returns the slider value
    itself, and a slider value between 20 and 220 survives the conversion to
    a frequency and back. *)
Theorem frequency_slider_round_trip (freq : R) :
  (FREQ_MIN <= freqToSlider freq <= FREQ_MAX)%Z
  /\ (forall freq', freq <= freq' -> (freqToSlider freq <= freqToSlider freq')%Z)
  /\ (20 <= freq <= 220 -> Rabs (IZR (freqToSlider freq) - freq) <= 0.5)
  /\ sliderToFreq (IZR (freqToSlider freq)) = freqToSlider freq
  /\ (20 <= freq <= 220 -> freqToSlider (IZR (sliderToFreq freq)) = sliderToFreq freq).
Proof.
  unfold freqToSlider, sliderToFreq, FREQ_MIN, FREQ_MAX.
  split; [lia|]. split; [|split; [|split]].
  - intros freq' Hle. pose proof (round_monotone freq freq' Hle). lia.
  - intros [Hlo Hhi].
    pose proof (round_monotone 20 freq Hlo) as H1.
    pose proof (round_monotone freq 220 Hhi) as H2.
    rewrite (round_of_integer 20) in H1. rewrite (round_of_integer 220) in H2.
    replace (Z.max 20 (Z.min 220 (Math_round freq))) with (Math_round freq) by lia.
    pose proof (round_nearest freq). apply Rabs_le. lra.
  - apply round_of_integer.
  - intros [Hlo Hhi].
    pose proof (round_monotone 20 freq Hlo) as H1.
    pose proof (round_monotone freq 220 Hhi) as H2.
    rewrite (round_of_integer 20) in H1. rewrite (round_of_integer 220) in H2.
    rewrite round_of_integer. lia.
Qed.

Lemma frequency_slider_round_trip_witness :
  Rabs (IZR (freqToSlider 56.75) - 56.75) <= 0.5.
Proof.
  apply (proj1 (proj2 (proj2 (frequency_slider_round_trip 56.75)))). lra.
Defined.

(** ** Drawing *)

Lemma run_in_sync (cfg : Settings) (es : list Event) :
  0 < cyclesPerMinute cfg -> InSync cfg (run cfg es initialState).
Proof.
  intros Hc.
  assert (Hinv : forall s0, InSync cfg s0 -> InSync cfg (run cfg es s0)).
  { induction es as [|e es IH]; intros s0 H0; cbn [run]; [exact H0|].
    apply IH. destruct e as [now|t]; cbn [step].
    - apply press_in_sync, H0.
    - destruct (needsTick s0); [apply tick_in_sync, Hc | exact H0]. }
  apply Hinv. unfold InSync. cbn. symmetry. apply wavePosition_at_zero, Hc.
Qed.

Lemma ballX_range (d : DrawSettings) (width p : R) :
  2 * (ballSize d + 50) <= width -> -1 <= p <= 1 ->
  ballSize d + 50 <= ballX d width p <= width - (ballSize d + 50).
Proof.
  intros Hw Hp. unfold ballX. cbv zeta. split; nra.
Qed.

(** X11. The ball never leaves the canvas.  On a canvas at least as wide as
    two paddings (ball size + 50 on either side), in every state reached from
    the freshly loaded page by presses and frames the ball is drawn with its
    whole disc at least 50 pixels inside the left and the right border.  Its
    travel is symmetric about the middle of the canvas, where position 0 is
    drawn, and a larger position is never drawn further left. *)
Theorem ball_stays_on_canvas (cfg : Settings) (d : DrawSettings) (width : R)
        (es : list Event) :
  0 < cyclesPerMinute cfg -> 0 <= ballSize d -> 2 * (ballSize d + 50) <= width ->
  let x := ballX d width (ballPosition (run cfg es initialState)) in
  (50 <= x - ballSize d /\ x + ballSize d <= width - 50)
  /\ ballX d width 0 = width / 2
  /\ (forall p, ballX d width p + ballX d width (- p) = width)
  /\ (forall p q, p <= q -> ballX d width p <= ballX d width q).
Proof.
  intros Hc Hsize Hw. cbv zeta.
  pose proof (run_in_sync cfg es Hc) as Hsync. unfold InSync in Hsync.
  pose proof (wavePosition_range cfg (virtualTime (run cfg es initialState)) Hc)
    as Hpos.
  rewrite <- Hsync in Hpos.
  pose proof (ballX_range d width _ Hw Hpos) as Hx.
  split; [lra|]. split; [|split].
  - unfold ballX. cbv zeta. field.
  - intros p. unfold ballX. cbv zeta. field.
  - intros p q Hpq. unfold ballX. cbv zeta. nra.
Qed.

Lemma ball_stays_on_canvas_witness :
  let x := ballX (mkDrawSettings 25 "ripple" 15) 800
             (ballPosition (run defaultSettings [Press 0; Frame 16; Frame 32]
                                initialState)) in
  50 <= x - 25 /\ x + 25 <= 800 - 50.
Proof.
  cbv zeta.
  refine (proj1 (ball_stays_on_canvas defaultSettings (mkDrawSettings 25 "ripple" 15)
                   800 [Press 0; Frame 16; Frame 32] _ _ _)).
  - cbn. lra.
  - cbn. lra.
  - cbn. lra.
Defined.

Lemma lastN_absorb {A : Type} (n : Z) (a b : list A) :
  CircularBuffer.lastN A n (CircularBuffer.lastN A n a ++ b)
  = CircularBuffer.lastN A n (a ++ b).
Proof.
  unfold CircularBuffer.lastN.
  set (k := (List.length a - Z.to_nat n)%nat).
  assert (Happ : skipn k a ++ b = skipn k (a ++ b)).
  { rewrite skipn_app. replace (k - List.length a)%nat with 0%nat by lia.
    reflexivity. }
  rewrite Happ, skipn_skipn. f_equal.
  rewrite length_skipn, !length_app. lia.
Qed.

Lemma maxSize_resize {A : Type} (n : Z) (b : CircularBuffer.t A) :
  CircularBuffer.maxSize A (CircularBuffer.resize A n b) = n.
Proof.
  unfold CircularBuffer.resize.
  destruct (Z.eqb_spec n (CircularBuffer.maxSize A b)) as [->|]; reflexivity.
Qed.

Lemma trail_step (d : DrawSettings) (width height p : R)
      (b : CircularBuffer.t (R * R)) (l : list (R * R)) :
  (0 < trailLength d)%Z -> String.eqb (trailStyle d) "none" = false ->
  CircularBuffer.Holds (R * R) b l ->
  CircularBuffer.Holds (R * R) (updateTrail d width height p b)
    (CircularBuffer.lastN (R * R) (trailLength d)
       (l ++ [(ballX d width p, ballY height)])).
Proof.
  intros Hn Hstyle Hb. unfold updateTrail. rewrite Hstyle. cbn [negb].
  pose proof (holds_resize b l (trailLength d) Hb Hn) as Hr.
  pose proof (holds_push _ _ (ballX d width p, ballY height) Hr) as Hp.
  rewrite maxSize_resize, lastN_absorb in Hp. exact Hp.
Qed.

Lemma trail_run (d : DrawSettings) (width height : R) (ps : list R) :
  (0 < trailLength d)%Z -> String.eqb (trailStyle d) "none" = false ->
  forall (b : CircularBuffer.t (R * R)) (l : list (R * R)),
    CircularBuffer.Holds (R * R) b l ->
    CircularBuffer.Holds (R * R)
      (fold_left (fun b p => updateTrail d width height p b) ps b)
      (match ps with
       | [] => l
       | _ => CircularBuffer.lastN (R * R) (trailLength d)
                (l ++ map (fun p => (ballX d width p, ballY height)) ps)
       end).
Proof.
  intros Hn Hstyle. induction ps as [|p ps IH]; intros b l Hb; [exact Hb|].
  cbn [fold_left].
  pose proof (trail_step d width height p b l Hn Hstyle Hb) as Hstep.
  specialize (IH _ _ Hstep).
  destruct ps as [|q ps]; [exact IH|].
  rewrite lastN_absorb, <- app_assoc in IH. exact IH.
Qed.

(** X12. The trail is the recent path of the ball.  With a trail style other
    than 'none' and a positive trail length n, after [draw] has run for the
    ball positions ps (oldest first), starting from the page's empty
    50-slot history, the history holds exactly the screen points of the last
    n of those positions, oldest first, and never more than n of them.  One
    call of [draw] with the style 'none' empties the history. *)
Theorem trail_holds_recent_positions (d : DrawSettings) (width height : R)
        (ps : list R) :
  (0 < trailLength d)%Z ->
  let point := fun p => (ballX d width p, ballY height) in
  let trail := fold_left (fun b p => updateTrail d width height p b) ps trailHistory0 in
  (String.eqb (trailStyle d) "none" = false ->
   CircularBuffer.iterate (R * R) trail
   = map Some (CircularBuffer.lastN (R * R) (trailLength d) (map point ps))
   /\ (CircularBuffer.length (R * R) trail <= trailLength d)%Z
   /\ CircularBuffer.length (R * R) trail
      = Z.min (Z.of_nat (List.length ps)) (trailLength d))
  /\ (String.eqb (trailStyle d) "none" = true ->
      forall b p, CircularBuffer.length (R * R) (updateTrail d width height p b) = 0%Z).
Proof.
  intros Hn. cbv zeta. split.
  - intros Hstyle.
    pose proof (trail_run d width height ps Hn Hstyle trailHistory0 []
                  (holds_constructor 50 ltac:(lia))) as Hrun.
    assert (Hl : CircularBuffer.Holds (R * R)
                   (fold_left (fun b p => updateTrail d width height p b) ps
                              trailHistory0)
                   (CircularBuffer.lastN (R * R) (trailLength d)
                      (map (fun p => (ballX d width p, ballY height)) ps))).
    { destruct ps as [|p ps]; [|exact Hrun].
      cbn [map]. unfold CircularBuffer.lastN. cbn. exact Hrun. }
    clear Hrun. split; [apply holds_iterate; exact Hl|].
    pose proof Hl as (_ & Hsize & _).
    unfold CircularBuffer.length. rewrite Hsize, lastN_length by lia.
    rewrite length_map. split; [lia | reflexivity].
  - intros Hstyle b p. unfold updateTrail. rewrite Hstyle. reflexivity.
Qed.

Lemma trail_holds_recent_positions_witness :
  CircularBuffer.iterate (R * R)
    (fold_left (fun b p => updateTrail (mkDrawSettings 25 "basic" 2) 800 600 p b)
               [0; 0.5; 1] trailHistory0)
  = [Some (ballX (mkDrawSettings 25 "basic" 2) 800 0.5, ballY 600);
     Some (ballX (mkDrawSettings 25 "basic" 2) 800 1, ballY 600)].
Proof.
  refine (proj1 (proj1 (trail_holds_recent_positions (mkDrawSettings 25 "basic" 2)
                          800 600 [0; 0.5; 1] _) _)).
  - cbn. lia.
  - reflexivity.
Defined.

(** ** Virtual time never runs backwards *)

Lemma tick_virtualTime (cfg : Settings) (t : R) (s : State) :
  virtualTime (tickMotion cfg t s) = 0
  \/ virtualTime (tickMotion cfg t s)
     = virtualTime s + frameDelta t s * speedMultiplier (tickMotion cfg t s).
Proof.
  destruct s. unfold_tick. cbn. repeat (break_if; cbn); auto.
Qed.

Lemma frameDelta_range (t : R) (s : State) :
  (forall l, lastTimestamp s = Some l -> l <= t) -> 0 <= frameDelta t s <= 50.
Proof.
  intros Hl. unfold frameDelta. cbv zeta.
  destruct (lastTimestamp s) as [l|].
  - specialize (Hl l eq_refl). split; [apply Rmin_glb; lra | apply Rmin_r].
  - split; [apply Rmin_glb; lra | apply Rmin_r].
Qed.

Lemma press_keeps_time (cfg : Settings) (now : R) (s : State) :
  lastTimestamp (togglePlayPause cfg now s) = lastTimestamp s
  /\ virtualTime (togglePlayPause cfg now s) = virtualTime s.
Proof.
  unfold togglePlayPause. destruct s. cbn.
  destruct isPlaying0; cbn; [|auto].
  destruct (isHeadingTowardZero _ _); cbn; auto.
Qed.

Lemma tick_advance (cfg : Settings) (now t : R) (s : State) :
  TimeInv now s -> now <= t ->
  let s' := tickMotion cfg t s in
  virtualTime s' = 0
  \/ (virtualTime s <= virtualTime s' <= virtualTime s + 50 * speedMultiplier s').
Proof.
  intros (Hsp & Hlast & Hvt) Ht. cbv zeta.
  pose proof (tick_speed_inv cfg now t s Hsp Ht) as (Hsp' & _).
  assert (Hd : 0 <= frameDelta t s <= 50).
  { apply frameDelta_range. intros l Hl. specialize (Hlast l Hl). lra. }
  destruct (tick_virtualTime cfg t s) as [H0|Hadv]; [left; exact H0 | right].
  rewrite Hadv. split; nra.
Qed.

Lemma tick_time_inv (cfg : Settings) (now t : R) (s : State) :
  TimeInv now s -> now <= t -> TimeInv t (tickMotion cfg t s).
Proof.
  intros Hinv Ht. pose proof (tick_advance cfg now t s Hinv Ht) as Hadv.
  destruct Hinv as (Hsp & Hlast & Hvt).
  split; [apply (tick_speed_inv cfg now); assumption|]. split.
  - intros l Hl. rewrite tick_lastTimestamp in Hl. injection Hl as <-. lra.
  - cbv zeta in Hadv. destruct Hadv as [-> | [Hlo _]]; lra.
Qed.

Lemma step_time_inv (cfg : Settings) (now : R) (e : Event) (s : State) :
  TimeInv now s -> now <= eventTime e -> TimeInv (eventTime e) (step cfg e s).
Proof.
  intros Hinv Ht. pose proof Hinv as (Hsp & Hlast & Hvt).
  pose proof (step_speed_inv cfg now e s Hsp Ht) as Hsp'.
  destruct e as [p|t]; cbn [step eventTime] in *.
  - destruct (press_keeps_time cfg p s) as [El Ev].
    split; [exact Hsp'|]. rewrite El, Ev. split; [|exact Hvt].
    intros l Hl. specialize (Hlast l Hl). lra.
  - destruct (needsTick s) eqn:Hn.
    + apply (tick_time_inv cfg now); assumption.
    + split; [exact Hsp'|]. split; [|exact Hvt].
      intros l Hl. specialize (Hlast l Hl). lra.
Qed.

Lemma run_time_inv (cfg : Settings) (es : list Event) :
  forall now s,
    TimeInv now s -> Sorted Rle (now :: map eventTime es) ->
    exists now', TimeInv now' (run cfg es s).
Proof.
  induction es as [|e es IH]; intros now s Hinv Hsort; cbn [run].
  - exists now. exact Hinv.
  - cbn [map] in Hsort. inversion Hsort as [|? ? Hrest Hhd]; subst.
    inversion Hhd; subst.
    apply (IH (eventTime e)); [apply (step_time_inv cfg now)|]; assumption.
Qed.

Lemma initial_time_inv (now : R) : TimeInv now initialState.
Proof.
  unfold TimeInv, SpeedInv, initialState; cbn.
  repeat split; try lra; discriminate.
Qed.

(** X13. Virtual time never runs backwards.  In every state reached from the
    freshly loaded page by presses and frames in time order, virtualTime is
    not negative, and the next frame either resets it to 0 (the end of a
    deceleration) or advances it, by at most 50 ms times the new speed
    multiplier however late the frame is.  The background audio loop, which
    takes over while the tab is hidden, changes nothing but virtualTime, never
    lowers it while the speed is not negative, and advances it by at most
    100 ms times the speed per call. *)
Theorem virtual_time_never_runs_backwards (cfg : Settings) (es : list Event) :
  Sorted Rle (map eventTime es) ->
  let s := run cfg es initialState in
  0 <= virtualTime s
  /\ (forall t, Forall (fun e => eventTime e <= t) es ->
        let s' := tickMotion cfg t s in
        virtualTime s' = 0
        \/ virtualTime s <= virtualTime s' <= virtualTime s + 50 * speedMultiplier s')
  /\ (forall hidden now last,
        last <= now ->
        let s' := snd (audioLoopTick hidden now last s) in
        s' = set_virtualTime (virtualTime s') s
        /\ virtualTime s <= virtualTime s' <= virtualTime s + 100 * speedMultiplier s).
Proof.
  intros Hsort. cbv zeta.
  assert (Hlast : forall t, Forall (fun e => eventTime e <= t) es ->
                    TimeInv t (run cfg es initialState)).
  { intros t Hall.
    assert (Hgen : Forall (fun e => eventTime e <= t) es ->
                   forall now s, TimeInv now s ->
                     Sorted Rle (now :: map eventTime es) ->
                     now <= t -> TimeInv t (run cfg es s)).
    { clear Hsort Hall. induction es as [|e es IH];
        intros Hall now s Hinv Hs Hnow; cbn [run].
      - destruct Hinv as ((H1 & H2 & H3) & H4 & H5).
        repeat split; try assumption.
        + intros Hup. specialize (H3 Hup). lra.
        + intros l Hl. specialize (H4 l Hl). lra.
      - cbn [map] in Hs. inversion Hs as [|? ? Hrest Hhd]; subst.
        inversion Hhd; subst. inversion Hall; subst.
        apply (IH ltac:(assumption) (eventTime e));
          [apply (step_time_inv cfg now); assumption | assumption | assumption]. }
    specialize (Hgen Hall).
    destruct es as [|e es']; [apply initial_time_inv|].
    apply (Hgen (eventTime e)).
    - apply initial_time_inv.
    - cbn [map]. constructor; [exact Hsort | constructor; apply Rle_refl].
    - inversion Hall; assumption. }
  assert (Hsome : exists now, TimeInv now (run cfg es initialState)).
  { destruct es as [|e es']; [exists 0; apply initial_time_inv|].
    apply (run_time_inv cfg (e :: es') (eventTime e)).
    - apply initial_time_inv.
    - cbn [map]. constructor; [exact Hsort | constructor; apply Rle_refl]. }
  destruct Hsome as (now0 & Hinv0).
  split; [apply Hinv0|]. split.
  - intros t Hall. apply (tick_advance cfg t t); [apply Hlast; exact Hall | lra].
  - intros hidden now last Hle. unfold audioLoopTick. cbv zeta. cbn [snd].
    destruct Hinv0 as ((Hsp & _) & _ & _).
    assert (Hd : 0 <= Rmin (now - last) 100 <= 100).
    { split; [apply Rmin_glb; lra | apply Rmin_r]. }
    destruct (hidden && isPlaying (run cfg es initialState)
              && Js.gtb (speedMultiplier (run cfg es initialState)) 0).
    + cbn. split; [reflexivity|]. split; nra.
    + split; [destruct (run cfg es initialState); reflexivity|]. split; nra.
Qed.

Lemma virtual_time_never_runs_backwards_witness :
  0 <= virtualTime (run defaultSettings [Press 0; Frame 16; Frame 32; Press 40; Frame 48]
                        initialState).
Proof.
  refine (proj1 (virtual_time_never_runs_backwards defaultSettings
                   [Press 0; Frame 16; Frame 32; Press 40; Frame 48] _)).
  cbn [map eventTime]. repeat constructor; lra.
Defined.

(** ** The waveform repeats, and both shapes agree on the landmarks *)

Lemma fmod_spec (x y : R) : exists k : Z, Js.fmod x y = x - y * IZR k.
Proof. unfold Js.fmod. eexists. reflexivity. Qed.

Lemma cycleProgress_spec (cfg : Settings) (vt : R) :
  0 < cyclesPerMinute cfg ->
  exists k : Z, vt = period cfg * (cycleProgress cfg vt + IZR k).
Proof.
  intros Hc. pose proof (period_pos cfg Hc) as Hp. unfold cycleProgress.
  destruct (fmod_spec vt (period cfg)) as [k1 E1].
  destruct (fmod_spec (Js.fmod vt (period cfg) + period cfg) (period cfg)) as [k2 E2].
  exists (k1 + k2 - 1)%Z. rewrite E2, E1, minus_IZR, plus_IZR. field. lra.
Qed.

Lemma cycleProgress_unique (cfg : Settings) (vt c : R) (k : Z) :
  0 < cyclesPerMinute cfg -> 0 <= c < 1 -> vt = period cfg * (c + IZR k) ->
  cycleProgress cfg vt = c.
Proof.
  intros Hc Hrange Hvt. pose proof (period_pos cfg Hc) as Hp.
  destruct (cycleProgress_spec cfg vt Hc) as [k' Hk'].
  pose proof (cycleProgress_range cfg vt Hc) as Hcp.
  set (cp := cycleProgress cfg vt) in *.
  assert (Heq : cp + IZR k' = c + IZR k).
  { apply Rmult_eq_reg_l with (period cfg); [|lra]. rewrite <- Hk'. exact Hvt. }
  assert (H1 : IZR (k' - k) < 1) by (rewrite minus_IZR; lra).
  assert (H2 : -1 < IZR (k' - k)) by (rewrite minus_IZR; lra).
  apply lt_IZR in H1, H2.
  assert (Hkk : k' = k) by lia. subst k'. lra.
Qed.

Lemma cycleProgress_periodic (cfg : Settings) (vt : R) :
  0 < cyclesPerMinute cfg ->
  cycleProgress cfg (vt + period cfg) = cycleProgress cfg vt.
Proof.
  intros Hc. destruct (cycleProgress_spec cfg vt Hc) as [k Hk].
  apply (cycleProgress_unique cfg _ _ (k + 1)%Z Hc).
  - apply cycleProgress_range, Hc.
  - rewrite plus_IZR. rewrite Hk at 1. ring.
Qed.

Lemma cycleProgress_first_period (cfg : Settings) (vt : R) :
  0 < cyclesPerMinute cfg -> 0 <= vt < period cfg ->
  cycleProgress cfg vt = vt / period cfg.
Proof.
  intros Hc Hvt. pose proof (period_pos cfg Hc) as Hp.
  apply (cycleProgress_unique cfg _ _ 0%Z Hc).
  - split.
    + apply quotient_nonneg; lra.
    + apply Rmult_lt_reg_r with (period cfg); [lra|]. unfold Rdiv.
      rewrite Rmult_assoc, Rinv_l by lra. lra.
  - field. lra.
Qed.

Lemma sine_periodic (cfg : Settings) (vt : R) :
  0 < cyclesPerMinute cfg ->
  sinePosition cfg (vt + period cfg) = sinePosition cfg vt.
Proof.
  intros Hc. pose proof (period_pos cfg Hc) as Hp. unfold sinePosition.
  replace ((vt + period cfg) / period cfg * PI * 2)
    with (vt / period cfg * PI * 2 + 2 * INR 1 * PI) by (cbn [INR]; field; lra).
  apply sin_period.
Qed.

Lemma sine_at_fraction (cfg : Settings) (q : R) :
  0 < cyclesPerMinute cfg ->
  sinePosition cfg (q * period cfg) = sin (q * (2 * PI)).
Proof.
  intros Hc. pose proof (period_pos cfg Hc) as Hp. unfold sinePosition.
  f_equal. field. lra.
Qed.

Lemma triangle_at_fraction (cfg : Settings) (q : R) :
  0 < cyclesPerMinute cfg -> 0 <= q < 1 ->
  trianglePosition cfg (q * period cfg)
  = if Js.ltb q 0.25 then q * 4
    else if Js.ltb q 0.75 then 1 - ((q - 0.25) * 4)
    else -1 + ((q - 0.75) * 4).
Proof.
  intros Hc Hq. pose proof (period_pos cfg Hc) as Hp. unfold trianglePosition.
  cbv zeta. rewrite cycleProgress_first_period by (exact Hc || nra).
  replace (q * period cfg / period cfg) with q by (field; lra). reflexivity.
Qed.

(** X14. The motion is periodic with the period the setting names, and the
    two shapes agree on the landmarks.  For every positive cyclesPerMinute the
    period times cyclesPerMinute is 60000 ms; the sine, the triangle and the
    selected waveform take the same value one period later, at every virtual
    time.  Both shapes are 0 at the start and at half a period, 1 a quarter
    into the period and -1 three quarters into it; both are positive
    throughout the first half of a period and negative throughout the
    second. *)
Theorem waveform_periodic_with_shared_landmarks (cfg : Settings) :
  0 < cyclesPerMinute cfg ->
  period cfg * cyclesPerMinute cfg = 60000
  /\ (forall vt,
        sinePosition cfg (vt + period cfg) = sinePosition cfg vt
        /\ trianglePosition cfg (vt + period cfg) = trianglePosition cfg vt
        /\ wavePosition cfg (vt + period cfg) = wavePosition cfg vt)
  /\ (sinePosition cfg 0 = 0 /\ trianglePosition cfg 0 = 0)
  /\ (sinePosition cfg (0.25 * period cfg) = 1
      /\ trianglePosition cfg (0.25 * period cfg) = 1)
  /\ (sinePosition cfg (0.5 * period cfg) = 0
      /\ trianglePosition cfg (0.5 * period cfg) = 0)
  /\ (sinePosition cfg (0.75 * period cfg) = -1
      /\ trianglePosition cfg (0.75 * period cfg) = -1)
  /\ (forall q, 0 < q < 0.5 ->
        0 < sinePosition cfg (q * period cfg)
        /\ 0 < trianglePosition cfg (q * period cfg))
  /\ (forall q, 0.5 < q < 1 ->
        sinePosition cfg (q * period cfg) < 0
        /\ trianglePosition cfg (q * period cfg) < 0).
Proof.
  intros Hc. pose proof (period_pos cfg Hc) as Hp. pose proof PI_RGT_0 as Hpi.
  assert (Hperiodic : forall vt,
             sinePosition cfg (vt + period cfg) = sinePosition cfg vt
             /\ trianglePosition cfg (vt + period cfg) = trianglePosition cfg vt).
  { intros vt. split; [apply sine_periodic, Hc|].
    unfold trianglePosition. cbv zeta.
    rewrite cycleProgress_periodic by exact Hc. reflexivity. }
  split; [unfold period; field; lra|].
  split.
  { intros vt. destruct (Hperiodic vt) as [Hs Ht]. split; [exact Hs|].
    split; [exact Ht|]. unfold wavePosition. destruct (isSine cfg); assumption. }
  split.
  { replace 0 with (0 * period cfg) at 1 3 by ring.
    rewrite sine_at_fraction, triangle_at_fraction by (exact Hc || lra).
    rewrite ltb_eq_true by lra.
    replace (0 * (2 * PI)) with 0 by ring. rewrite sin_0. split; [reflexivity | ring]. }
  split.
  { rewrite sine_at_fraction, triangle_at_fraction by (exact Hc || lra).
    rewrite ltb_eq_false, ltb_eq_true by lra.
    replace (0.25 * (2 * PI)) with (PI / 2) by lra. rewrite sin_PI2.
    split; [reflexivity | lra]. }
  split.
  { rewrite sine_at_fraction, triangle_at_fraction by (exact Hc || lra).
    rewrite ltb_eq_false, ltb_eq_true by lra.
    replace (0.5 * (2 * PI)) with PI by lra. rewrite sin_PI.
    split; [reflexivity | lra]. }
  split.
  { rewrite sine_at_fraction, triangle_at_fraction by (exact Hc || lra).
    rewrite !ltb_eq_false by lra.
    replace (0.75 * (2 * PI)) with (3 * (PI / 2)) by lra. rewrite sin_3PI2.
    split; [reflexivity | lra]. }
  split.
  - intros q Hq.
    rewrite sine_at_fraction, triangle_at_fraction by (exact Hc || lra).
    split; [apply sin_gt_0; nra|].
    cmp_cases q 0.25; [lra|]. rewrite ltb_eq_true by lra. lra.
  - intros q Hq.
    rewrite sine_at_fraction, triangle_at_fraction by (exact Hc || lra).
    split; [apply sin_lt_0; nra|].
    rewrite ltb_eq_false by lra. cmp_cases q 0.75; lra.
Qed.

Lemma waveform_periodic_with_shared_landmarks_witness :
  wavePosition triangleSettings (100 + period triangleSettings)
  = wavePosition triangleSettings 100.
Proof.
  refine (proj2 (proj2 (proj1 (proj2
    (waveform_periodic_with_shared_landmarks triangleSettings _)) 100))).
  cbn. lra.
Defined.

(** ** The music position stays inside the track *)

Lemma music_inv_later (now now' : R) (m : Music) :
  MusicInv now m -> now <= now' -> MusicInv now' m.
Proof.
  intros (Hrate & Hlast & Hpos) Hnow. split; [exact Hrate|]. split; [lra | exact Hpos].
Qed.

Lemma music_step (now now' rate : R) (m : Music) :
  MusicInv now m -> now <= now' -> 0 <= rate ->
  MusicInv now' (updateMusicPlaybackRate now' rate m).
Proof.
  intros Hinv Hnow Hr. pose proof (music_inv_later now now' m Hinv Hnow) as Hweak.
  destruct Hinv as (Hrate & Hlast & Hpos). unfold updateMusicPlaybackRate.
  destruct (musicSource m) as [old|] eqn:Esrc; [|exact Hweak].
  destruct (musicIsPlaying m) eqn:Eplay; [|exact Hweak].
  destruct (musicBuffer m) as [d|] eqn:Ebuf; [|exact Hweak].
  specialize (Hrate old eq_refl). destruct (Hpos d eq_refl) as [Hd Hp].
  unfold MusicInv.
  cbn [musicSource lastMusicUpdateTime musicBuffer musicPausedAt].
  split; [intros r Hr'; injection Hr' as <-; exact Hr|].
  split; [lra|].
  intros d' Hd'. injection Hd' as <-. split; [exact Hd|].
  apply fmod_nonneg; [|exact Hd].
  destruct (Js.truthy (lastMusicUpdateTime m)); nra.
Qed.

Lemma animate_inv (cfg : Settings) (t t' now now' : R) (a : App) :
  SpeedInv t (motion a) -> MusicInv now (music a) -> t <= t' -> now <= now' ->
  SpeedInv t' (motion (animate cfg t' now' a))
  /\ MusicInv now' (music (animate cfg t' now' a)).
Proof.
  intros Hs Hm Ht Hnow. unfold animate.
  destruct (needsTick (motion a)).
  - unfold calculateBallPosition. cbn [motion music].
    pose proof (tick_speed_inv cfg t t' (motion a) Hs Ht) as Hs'.
    split; [exact Hs'|]. apply (music_step now); [exact Hm | exact Hnow | apply Hs'].
  - split.
    + destruct Hs as (H1 & H2 & H3). repeat split; try assumption.
      intros Hup. specialize (H3 Hup). lra.
    + apply (music_inv_later now); assumption.
Qed.

Lemma runFrames_inv (cfg : Settings) (frames : list (R * R)) :
  forall t now a,
    SpeedInv t (motion a) -> MusicInv now (music a) ->
    Sorted Rle (t :: map fst frames) -> Sorted Rle (now :: map snd frames) ->
    exists t' now',
      SpeedInv t' (motion (runFrames cfg frames a))
      /\ MusicInv now' (music (runFrames cfg frames a)).
Proof.
  induction frames as [|f frames IH]; intros t now a Hs Hm Ht Hnow.
  - exists t, now. split; assumption.
  - cbn [map] in Ht, Hnow.
    inversion Ht as [|? ? Ht' Hhd]; subst. inversion Hhd; subst.
    inversion Hnow as [|? ? Hnow' Hhd']; subst. inversion Hhd'; subst.
    destruct (animate_inv cfg t (fst f) now (snd f) a Hs Hm) as [Hs' Hm'];
      try assumption.
    unfold runFrames. cbn [fold_left].
    apply (IH (fst f) (snd f)); assumption.
Qed.

Lemma runFrames_musicBuffer (cfg : Settings) (frames : list (R * R)) :
  forall a, musicBuffer (music (runFrames cfg frames a)) = musicBuffer (music a).
Proof.
  induction frames as [|f frames IH]; intros a; [reflexivity|].
  unfold runFrames in *. cbn [fold_left]. rewrite IH.
  unfold animate. destruct (needsTick (motion a)); [|reflexivity].
  unfold calculateBallPosition. cbn [music]. unfold updateMusicPlaybackRate.
  destruct (musicSource (music a)); [|reflexivity].
  destruct (musicIsPlaying (music a)); [|reflexivity].
  destruct (musicBuffer (music a)) eqn:E; [reflexivity | exact E].
Qed.

(** X15. The music position stays inside the track.  Start from a page state
    whose speed multiplier and ramp start speed are not negative and whose
    music bookkeeping is sound (playback rate not negative, position inside
    the track, last update not in the future).  Then after any run of
    animation frames whose timestamps and audio-clock readings do not go
    backwards, musicPausedAt is again inside the track, at least 0 and below
    the track's duration, so it is a valid start offset, and the playback
    rate is not negative. *)
Theorem music_position_stays_in_track (cfg : Settings) (frames : list (R * R))
        (t now : R) (a : App) :
  SpeedInv t (motion a) -> MusicInv now (music a) ->
  Sorted Rle (t :: map fst frames) -> Sorted Rle (now :: map snd frames) ->
  let a' := runFrames cfg frames a in
  (forall d, musicBuffer (music a') = Some d -> 0 <= musicPausedAt (music a') < d)
  /\ (forall rate, musicSource (music a') = Some rate -> 0 <= rate)
  /\ 0 <= speedMultiplier (motion a').
Proof.
  intros Hs Hm Ht Hnow. cbv zeta.
  destruct (runFrames_inv cfg frames t now a Hs Hm Ht Hnow)
    as (t' & now' & Hs' & Hrate & _ & Hpos).
  split; [intros d Hd; apply (Hpos d Hd)|]. split; [exact Hrate | apply Hs'].
Qed.

Lemma music_position_stays_in_track_witness :
  let a := mkApp (togglePlayPause defaultSettings 0 initialState)
                 (mkMusic (Some 180) (Some 0) 179.5 true 10) in
  let a' := runFrames defaultSettings [(16, 10.016); (32, 10.032)] a in
  0 <= musicPausedAt (music a') < 180.
Proof.
  cbv zeta.
  refine (proj1 (music_position_stays_in_track defaultSettings
                   [(16, 10.016); (32, 10.032)] 0 10
                   (mkApp (togglePlayPause defaultSettings 0 initialState)
                          (mkMusic (Some 180) (Some 0) 179.5 true 10)) _ _ _ _)
                180 _).
  - unfold SpeedInv. cbn. repeat split; try lra.
  - unfold MusicInv. cbn [music musicSource musicBuffer musicPausedAt
                          lastMusicUpdateTime].
    split; [intros rate H; injection H as <-; lra|]. split; [lra|].
    intros d H. injection H as <-. lra.
  - cbn [map fst]. repeat constructor; lra.
  - cbn [map snd]. repeat constructor; lra.
  - rewrite runFrames_musicBuffer. reflexivity.
Defined.

(** ** At full speed the ball follows the clock *)

Lemma last_cons_default {A : Type} (l : list A) :
  forall (x d : A), last (x :: l) d = last l x.
Proof.
  induction l as [|y l IH]; intros x d; [reflexivity|].
  change (last (x :: y :: l) d) with (last (y :: l) d).
  rewrite (IH y d), (IH y x). reflexivity.
Qed.

Lemma tick_fullSpeed_time (cfg : Settings) (l t : R) (s : State) :
  FullSpeed s -> lastTimestamp s = Some l ->
  virtualTime (tickMotion cfg t s) = virtualTime s + Rmin (t - l) 50.
Proof.
  intros (Hw & Hd & Hr & Hs) Hl. destruct s.
  cbn [waitingForEdge isDecelerating rampDirection speedMultiplier lastTimestamp
       virtualTime] in *. subst.
  rewrite tick_normal_eq by reflexivity. cbv zeta. rewrite frameDelta_some.
  cbn [virtualTime]. ring.
Qed.

Lemma runTicks_fullSpeed (cfg : Settings) (ts : list R) :
  forall l s,
    FullSpeed s -> lastTimestamp s = Some l ->
    FullSpeed (runTicks cfg ts s)
    /\ virtualTime (runTicks cfg ts s) = virtualTime s + creditedTime l ts
    /\ lastTimestamp (runTicks cfg ts s) = Some (last ts l).
Proof.
  induction ts as [|t ts IH]; intros l s Hfull Hl.
  - cbn. split; [exact Hfull|]. split; [ring | exact Hl].
  - cbn [runTicks creditedTime].
    destruct (IH t (tickMotion cfg t s) (tick_fullSpeed cfg t s Hfull)
                 (tick_lastTimestamp cfg t s)) as (H1 & H2 & H3).
    split; [exact H1|]. split.
    + rewrite H2, (tick_fullSpeed_time cfg l t s Hfull Hl). ring.
    + rewrite H3, last_cons_default. reflexivity.
Qed.

Lemma creditedTime_exact (ts : list R) :
  forall l, Sorted (fun a b => a <= b <= a + 50) (l :: ts) ->
            creditedTime l ts = last ts l - l.
Proof.
  induction ts as [|t ts IH]; intros l Hs; [cbn; ring|].
  inversion Hs as [|? ? Hrest Hhd]; subst. inversion Hhd as [|? ? Hgap]; subst.
  cbn [creditedTime]. rewrite (IH t Hrest), Rmin_left by lra.
  rewrite last_cons_default. ring.
Qed.

Lemma creditedTime_bounds (ts : list R) :
  forall l, Sorted Rle (l :: ts) ->
            0 <= creditedTime l ts <= last ts l - l
            /\ creditedTime l ts <= 50 * INR (List.length ts).
Proof.
  induction ts as [|t ts IH]; intros l Hs; [cbn; lra|].
  inversion Hs as [|? ? Hrest Hhd]; subst. inversion Hhd as [|? ? Hgap]; subst.
  destruct (IH t Hrest) as [[H1 H2] H3].
  rewrite last_cons_default.
  cbn [creditedTime]. change (List.length (t :: ts)) with (S (List.length ts)).
  rewrite S_INR.
  assert (Hm : 0 <= Rmin (t - l) 50 <= t - l)
    by (split; [apply Rmin_glb; lra | apply Rmin_l]).
  pose proof (Rmin_r (t - l) 50). lra.
Qed.

(** X16. At full speed the ball follows the clock.  In steady playback (speed
    multiplier 1, no ramp, no pause in progress) a run of frames advances
    virtualTime by the sum of the frame gaps, each counted for at most 50 ms,
    and leaves the playback steady.  When no gap is longer than 50 ms this is
    exactly the wall-clock time from the last frame before the run to its
    last frame, so the ball completes cyclesPerMinute cycles per minute; with
    timestamps in order virtualTime never advances by more than the
    wall-clock time nor by more than 50 ms per frame. *)
Theorem steady_playback_follows_clock (cfg : Settings) (l : R) (ts : list R)
        (s : State) :
  FullSpeed s -> lastTimestamp s = Some l ->
  let s' := runTicks cfg ts s in
  FullSpeed s'
  /\ virtualTime s' = virtualTime s + creditedTime l ts
  /\ (Sorted (fun a b => a <= b <= a + 50) (l :: ts) ->
      virtualTime s' = virtualTime s + (last ts l - l))
  /\ (Sorted Rle (l :: ts) ->
      virtualTime s <= virtualTime s' <= virtualTime s + (last ts l - l)
      /\ virtualTime s' <= virtualTime s + 50 * INR (List.length ts)).
Proof.
  intros Hfull Hl. cbv zeta.
  destruct (runTicks_fullSpeed cfg ts l s Hfull Hl) as (H1 & H2 & _).
  split; [exact H1|]. split; [exact H2|]. split.
  - intros Hs. rewrite H2, (creditedTime_exact ts l Hs). reflexivity.
  - intros Hs. rewrite H2. destruct (creditedTime_bounds ts l Hs) as [[B1 B2] B3].
    lra.
Qed.

Lemma steady_playback_follows_clock_witness :
  virtualTime
    (runTicks defaultSettings [816; 832; 848]
       (mkState 0 true 1 (Some 800) 0 (Some 0) None 0 false 0 false))
  = 0 + (848 - 800).
Proof.
  refine (proj1 (proj2 (proj2 (steady_playback_follows_clock defaultSettings 800
                   [816; 832; 848]
                   (mkState 0 true 1 (Some 800) 0 (Some 0) None 0 false 0 false)
                   _ _))) _).
  - unfold FullSpeed. cbn. repeat split; reflexivity.
  - reflexivity.
  - repeat constructor; lra.
Defined.

(** ** Track frequencies *)

Lemma freqToSlider_nearest (freq : R) :
  20 <= freq <= 220 ->
  (20 <= freqToSlider freq <= 220)%Z /\ Rabs (IZR (freqToSlider freq) - freq) <= 0.5.
Proof.
  intros [Hlo Hhi]. unfold freqToSlider, FREQ_MIN, FREQ_MAX.
  pose proof (round_monotone 20 freq Hlo) as H1.
  pose proof (round_monotone freq 220 Hhi) as H2.
  rewrite (round_of_integer 20) in H1. rewrite (round_of_integer 220) in H2.
  replace (Z.max 20 (Z.min 220 (Math_round freq))) with (Math_round freq) by lia.
  split; [lia|]. pose proof (round_nearest freq). apply Rabs_le. lra.
Qed.

Lemma table_frequencies_in_range (k : string) (f : R) :
  In (k, f) MUSIC_FREQUENCY_MAP -> 40 <= f <= 97.
Proof.
  unfold MUSIC_FREQUENCY_MAP. cbn [In].
  intros H. repeat (destruct H as [H|H]; [injection H as _ <-; lra|]). contradiction.
Qed.

Lemma table_entries_match_themselves (k : string) (f : R) :
  In (k, f) MUSIC_FREQUENCY_MAP -> matchingTrack k = Some (k, f).
Proof.
  unfold MUSIC_FREQUENCY_MAP at 1. cbn [In].
  intros H.
  repeat (destruct H as [H|H]; [injection H as <- <-; reflexivity|]).
  contradiction.
Qed.

Lemma table_names_not_empty (k : string) (f : R) :
  In (k, f) MUSIC_FREQUENCY_MAP -> String.eqb k EmptyString = false.
Proof.
  unfold MUSIC_FREQUENCY_MAP. cbn [In].
  intros H.
  repeat (destruct H as [H|H]; [injection H as <- _; reflexivity|]).
  contradiction.
Qed.

Lemma table_audio_entry (k : string) (f : R) :
  In (k, f) MUSIC_FREQUENCY_MAP ->
  String.eqb k "Birth of the Evening Star" = true -> f = 56.75.
Proof.
  unfold MUSIC_FREQUENCY_MAP. cbn [In].
  intros H.
  repeat (destruct H as [H|H];
          [injection H as <- <-; cbn; intros E; (reflexivity || discriminate E)|]).
  contradiction.
Qed.

(** X17. Track names are matched as substrings, first entry first, and the
    order of the table is safe.  Every name of the frequency table, used as
    the track source, gets the frequency listed for it: no entry is shadowed
    by an earlier entry that occurs inside its name (the day mix of 'Imagine
    With Me' gets 97, not the 57 of the shorter name).  Whatever the source,
    a frequency that is written comes from an entry whose name occurs in the
    source, it lies between 40 and 97, the slider value written with it is
    the nearest integer between 20 and 220, and the tone is switched on only
    by the entry of 56.75 Hz, 'Birth of the Evening Star'.  An empty source
    writes nothing. *)
Theorem track_frequency_lookup (trackSrc : string) :
  (forall f, In (trackSrc, f) MUSIC_FREQUENCY_MAP ->
     exists e, setFrequencyForTrack trackSrc = Some e /\ newFrequency e = f)
  /\ (forall e, setFrequencyForTrack trackSrc = Some e ->
        (exists k, In (k, newFrequency e) MUSIC_FREQUENCY_MAP
                   /\ includes trackSrc k = true
                   /\ enablesAudio e = String.eqb k "Birth of the Evening Star")
        /\ 40 <= newFrequency e <= 97
        /\ (20 <= newSliderValue e <= 220)%Z
        /\ Rabs (IZR (newSliderValue e) - newFrequency e) <= 0.5
        /\ (enablesAudio e = true -> newFrequency e = 56.75))
  /\ setFrequencyForTrack EmptyString = None
  /\ (exists e, setFrequencyForTrack "audio_files/Imagine With Me (Day Mix).mp3" = Some e
                /\ newFrequency e = 97).
Proof.
  split; [|split; [|split]].
  - intros f Hin. unfold setFrequencyForTrack.
    rewrite (table_names_not_empty trackSrc f Hin).
    rewrite (table_entries_match_themselves trackSrc f Hin).
    eexists. split; reflexivity.
  - intros e He. unfold setFrequencyForTrack in He.
    destruct (String.eqb trackSrc EmptyString); [discriminate|].
    destruct (matchingTrack trackSrc) as [[k f]|] eqn:Ematch; [|discriminate].
    injection He as <-. cbn [newFrequency newSliderValue enablesAudio].
    unfold matchingTrack in Ematch. apply find_some in Ematch.
    destruct Ematch as [Hin Hinc]. cbn [fst] in Hinc.
    pose proof (table_frequencies_in_range k f Hin) as Hrange.
    destruct (freqToSlider_nearest f ltac:(lra)) as [Hs1 Hs2].
    split; [exists k; repeat split; assumption|].
    split; [exact Hrange|]. split; [exact Hs1|]. split; [exact Hs2|].
    intros Haudio. apply (table_audio_entry k f Hin Haudio).
  - reflexivity.
  - eexists. split; reflexivity.
Qed.

Lemma track_frequency_lookup_witness :
  exists e, setFrequencyForTrack "Shepards_Rise" = Some e /\ newFrequency e = 48.
Proof.
  refine (proj1 (track_frequency_lookup "Shepards_Rise") 48 _).
  unfold MUSIC_FREQUENCY_MAP. cbn [In]. do 12 right. left. reflexivity.
Defined.

(** ** Which phase can follow which *)

Lemma phase_after_reset (ip : bool) (lt : option R) (rst : option R) (rss dsp : R) :
  phaseState (mkState 0 ip 0 lt 0 rst None rss false dsp false) = Idle.
Proof.
  unfold phaseState. cbn. rewrite gtb_eq_false by lra. reflexivity.
Qed.

Lemma tick_phase (cfg : Settings) (t : R) (s : State) :
  frameMayMove (phaseState s) (phaseState (tickMotion cfg t s)) = true.
Proof.
  destruct s as [bp ip sp lt vt rst rd rss dec dsp w].
  destruct w.
  { (* waiting for the edge *)
    assert (Hp : phaseState (mkState bp ip sp lt vt rst rd rss dec dsp true)
                 = WaitingForEdge) by reflexivity.
    rewrite Hp. clear Hp.
    destruct dec.
    - unfold_tick. cbn. repeat (break_if; cbn); try reflexivity;
        match goal with
        | H : Js.gtb 0 0 = true |- _ =>
            rewrite gtb_eq_false in H by lra; discriminate H
        end.
    - rewrite tick_waiting_eq. cbv zeta.
      destruct (Js.geb _ _); [destruct (crossedZero _ _)|];
        try rewrite phase_after_reset; reflexivity. }
  destruct dec.
  { assert (Hp : phaseState (mkState bp ip sp lt vt rst rd rss true dsp false)
                 = Decelerating) by reflexivity.
    rewrite Hp. clear Hp.
    rewrite tick_decel_eq. cbv zeta.
    destruct (crossedZero _ _); [rewrite phase_after_reset|]; reflexivity. }
  destruct (isUp rd) eqn:Hup.
  { assert (Hrd : rd = Some Up) by (destruct rd as [[|]|]; cbn in Hup; congruence).
    subst rd.
    assert (Hp : phaseState (mkState bp ip sp lt vt rst (Some Up) rss false dsp false)
                 = RampingUp) by reflexivity.
    rewrite Hp. clear Hp.
    rewrite tick_ramp_eq. cbv zeta.
    set (p := Rmin ((t - Js.num rst) / RAMP_DURATION) 1).
    assert (Hle : p <= 1) by apply Rmin_r.
    destruct (Rle_lt_dec 1 p) as [Hdone|Hnot].
    - assert (Hp1 : p = 1) by lra.
      rewrite (geb_eq_true p 1) by exact Hdone.
      rewrite Hp1, easeInOutCubic_1. unfold phaseState. cbn.
      rewrite gtb_eq_true by lra. reflexivity.
    - rewrite (geb_eq_false p 1) by exact Hnot. reflexivity. }
  rewrite tick_normal_eq by exact Hup. cbv zeta.
  unfold phaseState. cbn. rewrite Hup.
  destruct (Js.gtb sp 0); reflexivity.
Qed.

(** X18. Frames and presses move between the five phases only along these
    arrows.  A frame keeps Idle Idle and Steady Steady; it keeps a ramp
    RampingUp or completes it to Steady; it keeps an edge wait waiting, turns
    it into Decelerating, or ends it in Idle; it keeps a deceleration
    Decelerating or ends it in Idle.  So no frame starts a ramp or a wait, and
    Steady and Idle are left only by a press.  A press while paused always
    gives RampingUp; a press while playing gives WaitingForEdge or
    Decelerating. *)
Theorem phase_moves (cfg : Settings) (s : State) :
  (forall t, frameMayMove (phaseState s) (phaseState (tickMotion cfg t s)) = true)
  /\ (forall t, phaseState s = Idle -> phaseState (step cfg (Frame t) s) = Idle)
  /\ (forall now, isPlaying s = false ->
        phaseState (togglePlayPause cfg now s) = RampingUp)
  /\ (forall now, isPlaying s = true ->
        phaseState (togglePlayPause cfg now s) = WaitingForEdge
        \/ phaseState (togglePlayPause cfg now s) = Decelerating).
Proof.
  split; [intros t; apply tick_phase|]. split; [|split].
  - intros t Hidle. cbn [step]. destruct (needsTick s); [|exact Hidle].
    pose proof (tick_phase cfg t s) as Hmove. rewrite Hidle in Hmove.
    destruct (phaseState (tickMotion cfg t s)); try discriminate Hmove. reflexivity.
  - intros now Hp. destruct s. cbn in Hp. subst. reflexivity.
  - intros now Hp. destruct s as [bp ip sp lt vt rst rd rss dec dsp w].
    cbn in Hp. subst.
    destruct (isHeadingTowardZero cfg
                (mkState bp true sp lt vt rst rd rss dec dsp w)) eqn:Hhead.
    + rewrite pause_toward_zero_eq by exact Hhead.
      destruct w; [left | right]; reflexivity.
    + rewrite pause_toward_edge_eq by exact Hhead. left. reflexivity.
Qed.

Lemma phase_moves_witness :
  phaseState (togglePlayPause defaultSettings 0 initialState) = RampingUp.
Proof.
  exact (proj1 (proj2 (proj2 (phase_moves defaultSettings initialState))) 0 eq_refl).
Defined.

(** ** Deceleration under every setting and both shapes *)

Lemma cycleProgress_half_shift (cfg : Settings) (vt : R) :
  0 < cyclesPerMinute cfg ->
  cycleProgress cfg (vt + halfPeriod cfg)
  = if Js.ltb (cycleProgress cfg vt) 0.5
    then cycleProgress cfg vt + 0.5 else cycleProgress cfg vt - 0.5.
Proof.
  intros Hc. pose proof (period_pos cfg Hc) as Hp.
  destruct (cycleProgress_spec cfg vt Hc) as [k Hk].
  pose proof (cycleProgress_range cfg vt Hc) as Hcp.
  set (cp := cycleProgress cfg vt) in *. unfold halfPeriod.
  destruct (Rlt_le_dec cp 0.5) as [Hlo|Hhi].
  - rewrite ltb_eq_true by exact Hlo.
    apply (cycleProgress_unique cfg _ _ k Hc); [lra | nra].
  - rewrite ltb_eq_false by exact Hhi.
    apply (cycleProgress_unique cfg _ _ (k + 1)%Z Hc); [lra|].
    rewrite plus_IZR. nra.
Qed.

Lemma triangle_half_shift (cfg : Settings) (vt : R) :
  0 < cyclesPerMinute cfg ->
  trianglePosition cfg (vt + halfPeriod cfg) = - trianglePosition cfg vt.
Proof.
  intros Hc. pose proof (cycleProgress_range cfg vt Hc) as Hcp.
  unfold trianglePosition. cbv zeta. rewrite cycleProgress_half_shift by exact Hc.
  set (cp := cycleProgress cfg vt) in *.
  destruct (Rlt_le_dec cp 0.25) as [H1|H1].
  { rewrite (ltb_eq_true cp 0.5), (ltb_eq_true cp 0.25) by lra.
    rewrite (ltb_eq_false (cp + 0.5) 0.25), (ltb_eq_true (cp + 0.5) 0.75) by lra. lra. }
  destruct (Rlt_le_dec cp 0.5) as [H2|H2].
  { rewrite (ltb_eq_true cp 0.5), (ltb_eq_false cp 0.25), (ltb_eq_true cp 0.75) by lra.
    rewrite (ltb_eq_false (cp + 0.5) 0.25), (ltb_eq_false (cp + 0.5) 0.75) by lra. lra. }
  destruct (Rlt_le_dec cp 0.75) as [H3|H3].
  { rewrite (ltb_eq_false cp 0.5), (ltb_eq_false cp 0.25), (ltb_eq_true cp 0.75) by lra.
    rewrite (ltb_eq_true (cp - 0.5) 0.25) by lra. lra. }
  rewrite (ltb_eq_false cp 0.5), (ltb_eq_false cp 0.25), (ltb_eq_false cp 0.75) by lra.
  rewrite (ltb_eq_false (cp - 0.5) 0.25), (ltb_eq_true (cp - 0.5) 0.75) by lra. lra.
Qed.

Lemma sine_half_shift (cfg : Settings) (vt : R) :
  0 < cyclesPerMinute cfg ->
  sinePosition cfg (vt + halfPeriod cfg) = - sinePosition cfg vt.
Proof.
  intros Hc. pose proof (period_pos cfg Hc) as Hp. unfold sinePosition, halfPeriod.
  replace ((vt + period cfg / 2) / period cfg * PI * 2)
    with (vt / period cfg * PI * 2 + PI) by (field; lra).
  apply neg_sin.
Qed.

Lemma wave_half_shift (cfg : Settings) (vt : R) :
  0 < cyclesPerMinute cfg ->
  wavePosition cfg (vt + halfPeriod cfg) = - wavePosition cfg vt.
Proof.
  intros Hc. unfold wavePosition.
  destruct (isSine cfg); [apply sine_half_shift | apply triangle_half_shift]; exact Hc.
Qed.

Lemma wave_half_periods (cfg : Settings) (m : nat) (u : R) :
  0 < cyclesPerMinute cfg ->
  wavePosition cfg (u + halfPeriod cfg * INR m) = halfSign m * wavePosition cfg u.
Proof.
  intros Hc. induction m as [|m IH].
  - replace (u + halfPeriod cfg * INR 0) with u by (cbn; ring).
    unfold halfSign. cbn. ring.
  - rewrite S_INR.
    replace (u + halfPeriod cfg * (INR m + 1))
      with (u + halfPeriod cfg * INR m + halfPeriod cfg) by ring.
    rewrite wave_half_shift by exact Hc. rewrite IH, halfSign_succ. ring.
Qed.

Lemma wave_in_first_half (cfg : Settings) (u : R) :
  0 < cyclesPerMinute cfg -> 0 <= u < halfPeriod cfg ->
  0 <= wavePosition cfg u <= 1 /\ (0 < u -> 0 < wavePosition cfg u).
Proof.
  intros Hc Hu. pose proof (period_pos cfg Hc) as Hp. unfold halfPeriod in Hu.
  pose proof (wavePosition_range cfg u Hc) as Hrange.
  assert (Hq : u = (u / period cfg) * period cfg) by (field; lra).
  assert (Hq0 : 0 <= u / period cfg) by (apply quotient_nonneg; lra).
  assert (Hq1 : u / period cfg < 0.5).
  { apply Rmult_lt_reg_r with (period cfg); [lra|]. rewrite <- Hq. lra. }
  assert (Hpos : 0 < u -> 0 < wavePosition cfg u).
  { intros Hu0.
    assert (Hq2 : 0 < u / period cfg).
    { unfold Rdiv. apply Rmult_lt_0_compat; [lra|]. apply Rinv_0_lt_compat. lra. }
    pose proof PI_RGT_0 as Hpi.
    rewrite Hq. unfold wavePosition. destruct (isSine cfg).
    - rewrite sine_at_fraction by exact Hc. apply sin_gt_0; nra.
    - rewrite triangle_at_fraction by (exact Hc || lra).
      cmp_cases (u / period cfg) 0.25; [lra|]. rewrite ltb_eq_true by lra. lra. }
  split; [|exact Hpos]. split; [|lra].
  destruct (Req_dec u 0) as [->|Hne].
  - rewrite wavePosition_at_zero by exact Hc. lra.
  - left. apply Hpos. lra.
Qed.

Lemma half_period_long (cfg : Settings) :
  0 < cyclesPerMinute cfg <= 180 -> 160 < halfPeriod cfg.
Proof.
  intros [Hc Hmax]. unfold halfPeriod, period.
  replace (1000 / (cyclesPerMinute cfg / 60) / 2) with (30000 / cyclesPerMinute cfg)
    by (field; lra).
  apply Rmult_lt_reg_r with (cyclesPerMinute cfg); [lra|]. unfold Rdiv.
  rewrite Rmult_assoc, Rinv_l by lra. lra.
Qed.

Lemma decel_step_any (cfg : Settings) (m : nat) (u : R) (s : State) :
  0 < cyclesPerMinute cfg <= 180 ->
  DecelInHalfOf cfg m u s ->
  let s' := tickMotion cfg (Js.num (lastTimestamp s) + 16) s in
  Finished s' \/ exists m' u', u + 1.28 <= u' /\ m' = m /\ DecelInHalfOf cfg m' u' s'.
Proof.
  intros Hcfg (Hd & Hw & Hstart & [l Hl] & Hvt & Hu & Hsync).
  assert (Hc : 0 < cyclesPerMinute cfg) by lra.
  pose proof (half_period_long cfg Hcfg) as Hlong.
  unfold InSync in Hsync. destruct s.
  cbn [ballPosition isDecelerating waitingForEdge decelStartPosition
       lastTimestamp virtualTime] in Hd, Hw, Hstart, Hl, Hvt, Hsync. subst.
  cbv zeta. cbn [lastTimestamp Js.num].
  rewrite tick_decel_eq. cbv zeta. rewrite frameDelta_some.
  replace (Rmin (l + 16 - l) 50) with 16 by (rewrite Rmin_left; lra).
  rewrite gtb_eq_true by assumption.
  rewrite wave_half_periods by exact Hc.
  pose proof (halfSign_cases m) as Hsg.
  destruct (wave_in_first_half cfg u Hc Hu) as [Ha Hapos].
  assert (Habs : Rabs (halfSign m * wavePosition cfg u) <= 1).
  { destruct Hsg as [-> | ->]; [rewrite Rabs_pos_eq | rewrite Rabs_left1]; lra. }
  pose proof (decel_speed_general _ _ Hstart Habs) as Hv.
  set (v := Rmax 0.08 (sqrt (Rabs (halfSign m * wavePosition cfg u)
                             / Rabs decelStartPosition0))) in *.
  replace (u + halfPeriod cfg * INR m + 16 * v)
    with ((u + 16 * v) + halfPeriod cfg * INR m) by ring.
  destruct (Rlt_le_dec (u + 16 * v) (halfPeriod cfg)) as [Hin|Hout].
  - rewrite wave_half_periods by exact Hc.
    destruct (wave_in_first_half cfg (u + 16 * v) Hc ltac:(lra)) as [_ Hb].
    specialize (Hb ltac:(lra)).
    rewrite (crossedZero_same_side _ _ _ Hsg) by lra.
    right. exists m, (u + 16 * v). split; [lra|]. split; [reflexivity|].
    unfold DecelInHalfOf, InSync.
    cbn [ballPosition isDecelerating waitingForEdge decelStartPosition
         lastTimestamp virtualTime].
    rewrite wave_half_periods by exact Hc.
    repeat split; try reflexivity; try assumption; try lra.
    exists (l + 16). reflexivity.
  - assert (Hpos : 0 < u) by lra.
    specialize (Hapos Hpos).
    replace ((u + 16 * v) + halfPeriod cfg * INR m)
      with ((u + 16 * v - halfPeriod cfg) + halfPeriod cfg * INR (S m))
      by (rewrite S_INR; ring).
    rewrite wave_half_periods by exact Hc. rewrite halfSign_succ.
    destruct (wave_in_first_half cfg (u + 16 * v - halfPeriod cfg) Hc ltac:(lra))
      as [Hb _].
    rewrite (crossedZero_other_side _ _ _ Hsg) by lra.
    left. unfold Finished. cbn. repeat split; reflexivity.
Qed.

Lemma decel_terminates_any (cfg : Settings) (m : nat) (j : nat) :
  0 < cyclesPerMinute cfg <= 180 ->
  forall u s,
    DecelInHalfOf cfg m u s -> halfPeriod cfg - u <= 1.28 * INR j ->
    exists n, (1 <= n <= j)%nat
      /\ (forall i, (i < n)%nat -> isDecelerating (tickFixed cfg 16 i s) = true)
      /\ Finished (tickFixed cfg 16 n s).
Proof.
  intros Hcfg. induction j as [|j IH]; intros u s Hinv Hfuel.
  - cbn in Hfuel. destruct Hinv as (_ & _ & _ & _ & _ & Hu & _). lra.
  - destruct (decel_step_any cfg m u s Hcfg Hinv) as [Hfin|(m' & u' & Hu' & -> & Hinv')].
    + exists 1%nat. split; [lia|]. split; [|exact Hfin].
      intros i Hi. assert (i = 0)%nat by lia; subst. cbn. apply Hinv.
    + rewrite S_INR in Hfuel.
      destruct (IH u' _ Hinv') as (n & Hn & Hbefore & Hdone); [lra|].
      exists (S n). split; [lia|]. split; [|exact Hdone].
      intros [|i] Hi; cbn; [apply Hinv | apply Hbefore; lia].
Qed.

(** X19. Every deceleration outside the dead zone ends, for both shapes and
    every speed setting up to 180 cycles per minute.  With frames 16 ms apart,
    from any Decelerating state in sync with virtualTime whose captured
    decelStartPosition has magnitude above 0.01, the state is Decelerating up
    to a last tick, which clears the flags and zeroes virtualTime,
    speedMultiplier and the position (Idle); that tick comes within j ticks
    for every j with half a period (30000 / cyclesPerMinute ms) at most
    1.28 j ms, which is 586 ticks at the default 40 cycles per minute.  If
    the user has not pressed play in between, the animation loop then has
    nothing left to tick. *)
Theorem deceleration_completes_for_every_setting (cfg : Settings) (m j : nat)
        (u l : R) (s : State) :
  0 < cyclesPerMinute cfg <= 180 ->
  isDecelerating s = true -> waitingForEdge s = false ->
  0.01 < Rabs (decelStartPosition s) ->
  InSync cfg s ->
  virtualTime s = u + halfPeriod cfg * INR m -> 0 <= u < halfPeriod cfg ->
  lastTimestamp s = Some l ->
  halfPeriod cfg <= 1.28 * INR j ->
  halfPeriod cfg * cyclesPerMinute cfg = 30000
  /\ exists n, (1 <= n <= j)%nat
       /\ (forall i, (i < n)%nat -> isDecelerating (tickFixed cfg 16 i s) = true)
       /\ Finished (tickFixed cfg 16 n s)
       /\ phaseState (tickFixed cfg 16 n s) = Idle
       /\ (isPlaying s = false -> needsTick (tickFixed cfg 16 n s) = false).
Proof.
  intros Hcfg Hd Hw Hstart Hsync Hvt Hu Hl Hj. split.
  { unfold halfPeriod, period. field. lra. }
  assert (Hinv : DecelInHalfOf cfg m u s).
  { unfold DecelInHalfOf. repeat split; try assumption; try lra.
    exists l; assumption. }
  destruct (decel_terminates_any cfg m j Hcfg u s Hinv) as (n & Hn & Hbefore & Hdone);
    [lra|].
  exists n. repeat split; try lia; try apply Hdone.
  - exact Hbefore.
  - apply Finished_Idle, Hdone.
  - intros Hp. apply (finished_is_quiet cfg); [exact Hdone|].
    rewrite tickFixed_isPlaying. exact Hp.
Qed.

Lemma deceleration_completes_for_every_setting_witness :
  exists n, (n <= 586)%nat
    /\ Finished
         (tickFixed triangleSettings 16 n
            (mkState (wavePosition triangleSettings 1100) false 1 (Some 0) 1100
                     (Some 0) None 0 true 0.3 false)).
Proof.
  destruct (deceleration_completes_for_every_setting triangleSettings 1 586 350 0
              (mkState (wavePosition triangleSettings 1100) false 1 (Some 0) 1100
                       (Some 0) None 0 true 0.3 false))
    as (_ & n & Hn & _ & Hdone & _).
  - cbn. lra.
  - reflexivity.
  - reflexivity.
  - cbn [decelStartPosition]. rewrite Rabs_pos_eq; lra.
  - reflexivity.
  - cbn [virtualTime]. unfold halfPeriod. rewrite period_triangle. cbn. lra.
  - unfold halfPeriod. rewrite period_triangle. lra.
  - reflexivity.
  - unfold halfPeriod. rewrite period_triangle.
    replace (INR 586) with 586 by (cbn; lra). lra.
  - exists n. split; [lia | exact Hdone].
Defined.

(** ** A pause on the way in slows down and never speeds up *)

Lemma velocity_of_state (cfg : Settings) (s : State) :
  getVelocityDirection cfg s = velocityAt cfg (virtualTime s).
Proof. destruct s. reflexivity. Qed.

Lemma velocity_half_shift (cfg : Settings) (vt : R) :
  0 < cyclesPerMinute cfg ->
  velocityAt cfg (vt + halfPeriod cfg) = - velocityAt cfg vt.
Proof.
  intros Hc. pose proof (period_pos cfg Hc) as Hp.
  unfold velocityAt, getVelocityDirection. cbn [virtualTime set_virtualTime].
  destruct (isSine cfg).
  - unfold halfPeriod.
    replace ((vt + period cfg / 2) / period cfg * PI * 2)
      with (vt / period cfg * PI * 2 + PI) by (field; lra).
    apply neg_cos.
  - cbv zeta. rewrite cycleProgress_half_shift by exact Hc.
    pose proof (cycleProgress_range cfg vt Hc) as Hcp.
    set (cp := cycleProgress cfg vt) in *.
    destruct (Rlt_le_dec cp 0.25) as [H1|H1].
    { rewrite (ltb_eq_true cp 0.5), (ltb_eq_true cp 0.25) by lra.
      rewrite (ltb_eq_false (cp + 0.5) 0.25), (geb_eq_false (cp + 0.5) 0.75) by lra.
      cbn. lra. }
    destruct (Rlt_le_dec cp 0.5) as [H2|H2].
    { rewrite (ltb_eq_true cp 0.5), (ltb_eq_false cp 0.25), (geb_eq_false cp 0.75)
        by lra.
      rewrite (ltb_eq_false (cp + 0.5) 0.25), (geb_eq_true (cp + 0.5) 0.75) by lra.
      cbn. lra. }
    destruct (Rlt_le_dec cp 0.75) as [H3|H3].
    { rewrite (ltb_eq_false cp 0.5), (ltb_eq_false cp 0.25), (geb_eq_false cp 0.75)
        by lra.
      rewrite (ltb_eq_true (cp - 0.5) 0.25) by lra. cbn. lra. }
    rewrite (ltb_eq_false cp 0.5), (ltb_eq_false cp 0.25), (geb_eq_true cp 0.75) by lra.
    rewrite (ltb_eq_false (cp - 0.5) 0.25), (geb_eq_false (cp - 0.5) 0.75) by lra.
    cbn. lra.
Qed.

Lemma velocity_half_periods (cfg : Settings) (m : nat) (u : R) :
  0 < cyclesPerMinute cfg ->
  velocityAt cfg (u + halfPeriod cfg * INR m) = halfSign m * velocityAt cfg u.
Proof.
  intros Hc. induction m as [|m IH].
  - replace (u + halfPeriod cfg * INR 0) with u by (cbn; ring).
    unfold halfSign. cbn. ring.
  - rewrite S_INR.
    replace (u + halfPeriod cfg * (INR m + 1))
      with (u + halfPeriod cfg * INR m + halfPeriod cfg) by ring.
    rewrite velocity_half_shift by exact Hc. rewrite IH, halfSign_succ. ring.
Qed.

Lemma fraction_of_period (cfg : Settings) (u : R) :
  0 < cyclesPerMinute cfg -> 0 <= u < halfPeriod cfg ->
  u = (u / period cfg) * period cfg
  /\ 0 <= u / period cfg < 0.5
  /\ (u < halfPeriod cfg / 2 <-> u / period cfg < 0.25).
Proof.
  intros Hc Hu. pose proof (period_pos cfg Hc) as Hp. unfold halfPeriod in *.
  assert (Hq : u = (u / period cfg) * period cfg) by (field; lra).
  split; [exact Hq|]. split; [split|].
  - apply quotient_nonneg; lra.
  - apply Rmult_lt_reg_r with (period cfg); [lra|]. rewrite <- Hq. lra.
  - split; intros H.
    + apply Rmult_lt_reg_r with (period cfg); [lra|]. rewrite <- Hq. lra.
    + apply (Rmult_lt_compat_r (period cfg)) in H; [|lra]. rewrite <- Hq in H. lra.
Qed.

Lemma velocity_in_first_half (cfg : Settings) (u : R) :
  0 < cyclesPerMinute cfg -> 0 <= u < halfPeriod cfg ->
  (towardCentre cfg u = true -> velocityAt cfg u < 0)
  /\ (towardCentre cfg u = false -> 0 <= velocityAt cfg u).
Proof.
  intros Hc Hu. pose proof (period_pos cfg Hc) as Hp. pose proof PI_RGT_0 as Hpi.
  destruct (fraction_of_period cfg u Hc Hu) as (Hq & Hrange & Hquarter).
  set (q := u / period cfg) in *.
  unfold towardCentre, velocityAt, getVelocityDirection.
  cbn [virtualTime set_virtualTime].
  destruct (isSine cfg).
  - fold q. split; intros Hside.
    + assert (Hgt : halfPeriod cfg / 2 < u).
      { destruct (Rlt_le_dec (halfPeriod cfg / 2) u) as [H|H]; [exact H|].
        rewrite gtb_eq_false in Hside by exact H. discriminate. }
      assert (0.25 < q).
      { destruct (Rlt_le_dec 0.25 q) as [H|H]; [exact H|].
        destruct H as [H|H]; [apply Hquarter in H; lra|].
        unfold halfPeriod in Hgt. rewrite Hq, H in Hgt. lra. }
      apply cos_lt_0; nra.
    + assert (Hle : u <= halfPeriod cfg / 2).
      { destruct (Rlt_le_dec (halfPeriod cfg / 2) u) as [H|H]; [|exact H].
        rewrite gtb_eq_true in Hside by exact H. discriminate. }
      assert (q <= 0.25).
      { destruct (Rlt_le_dec 0.25 q) as [H|H]; [|exact H].
        unfold halfPeriod in Hle. rewrite Hq in Hle. nra. }
      apply cos_ge_0; nra.
  - cbv zeta. rewrite cycleProgress_first_period by (exact Hc || unfold halfPeriod in Hu; lra).
    fold q. rewrite (geb_eq_false q 0.75) by lra. rewrite orb_false_r.
    split; intros Hside.
    + assert (Hge : halfPeriod cfg / 2 <= u).
      { destruct (Rlt_le_dec u (halfPeriod cfg / 2)) as [H|H]; [|exact H].
        rewrite geb_eq_false in Hside by exact H. discriminate. }
      rewrite ltb_eq_false; [lra|].
      destruct (Rlt_le_dec q 0.25) as [H|H]; [apply Hquarter in H; lra | exact H].
    + assert (Hlt : u < halfPeriod cfg / 2).
      { destruct (Rlt_le_dec u (halfPeriod cfg / 2)) as [H|H]; [exact H|].
        rewrite geb_eq_true in Hside by exact H. discriminate. }
      rewrite ltb_eq_true by (apply Hquarter; exact Hlt). lra.
Qed.

Lemma toward_centre_position (cfg : Settings) (u : R) :
  0 < cyclesPerMinute cfg -> 0 <= u < halfPeriod cfg ->
  towardCentre cfg u = true -> halfPeriod cfg / 2 <= u /\ 0 < u.
Proof.
  intros Hc Hu Hside. pose proof (period_pos cfg Hc) as Hp.
  assert (Hh : 0 < halfPeriod cfg / 2) by (unfold halfPeriod; lra).
  assert (Hge : halfPeriod cfg / 2 <= u).
  { unfold towardCentre in Hside.
    destruct (Rlt_le_dec u (halfPeriod cfg / 2)) as [H|H]; [|exact H].
    destruct (isSine cfg).
    - rewrite gtb_eq_false in Hside by lra. discriminate.
    - rewrite geb_eq_false in Hside by exact H. discriminate. }
  split; lra.
Qed.

Lemma heading_toward_zero_any (cfg : Settings) (m : nat) (u : R) (s : State) :
  0 < cyclesPerMinute cfg ->
  InSync cfg s -> virtualTime s = u + halfPeriod cfg * INR m ->
  0 <= u < halfPeriod cfg ->
  isHeadingTowardZero cfg s = towardCentre cfg u.
Proof.
  intros Hc Hsync Hvt Hu. unfold InSync in Hsync.
  unfold isHeadingTowardZero. cbv zeta.
  rewrite velocity_of_state, Hsync, Hvt.
  rewrite wave_half_periods, velocity_half_periods by exact Hc.
  destruct (wave_in_first_half cfg u Hc Hu) as [Hw Hwpos].
  destruct (velocity_in_first_half cfg u Hc Hu) as [Hneg Hnonneg].
  destruct (towardCentre cfg u) eqn:Hside.
  - specialize (Hneg eq_refl).
    destruct (toward_centre_position cfg u Hc Hu Hside) as [_ Hupos].
    specialize (Hwpos Hupos).
    destruct (halfSign_cases m) as [-> | ->].
    + rewrite (gtb_eq_true (1 * _) 0), (ltb_eq_true (1 * _) 0) by lra. reflexivity.
    + rewrite (gtb_eq_false (-1 * wavePosition cfg u) 0) by lra.
      rewrite (ltb_eq_true (-1 * wavePosition cfg u) 0),
              (gtb_eq_true (-1 * velocityAt cfg u) 0) by lra.
      reflexivity.
  - specialize (Hnonneg eq_refl).
    destruct (halfSign_cases m) as [-> | ->].
    + rewrite (ltb_eq_false (1 * velocityAt cfg u) 0),
              (ltb_eq_false (1 * wavePosition cfg u) 0) by lra.
      rewrite andb_false_r. reflexivity.
    + rewrite (gtb_eq_false (-1 * wavePosition cfg u) 0),
              (gtb_eq_false (-1 * velocityAt cfg u) 0) by lra.
      rewrite andb_false_r. reflexivity.
Qed.

Lemma wave_decreasing_toward_centre (cfg : Settings) (a b : R) :
  0 < cyclesPerMinute cfg ->
  halfPeriod cfg / 2 <= a -> a <= b -> b < halfPeriod cfg ->
  wavePosition cfg b <= wavePosition cfg a.
Proof.
  intros Hc Ha Hab Hb. pose proof (period_pos cfg Hc) as Hp. pose proof PI_RGT_0 as Hpi.
  assert (Hh : 0 < halfPeriod cfg / 2) by (unfold halfPeriod; lra).
  destruct (fraction_of_period cfg a Hc ltac:(lra)) as (Hqa & Hra & Hquarter_a).
  destruct (fraction_of_period cfg b Hc ltac:(lra)) as (Hqb & Hrb & Hquarter_b).
  set (qa := a / period cfg) in *. set (qb := b / period cfg) in *.
  assert (Hqa_lo : 0.25 <= qa).
  { destruct (Rlt_le_dec qa 0.25) as [H|H]; [apply Hquarter_a in H; lra | exact H]. }
  assert (Hqab : qa <= qb).
  { apply Rmult_le_reg_r with (period cfg); [lra|]. rewrite <- Hqa, <- Hqb. exact Hab. }
  rewrite Hqa, Hqb. unfold wavePosition. destruct (isSine cfg).
  - rewrite !sine_at_fraction by exact Hc. apply sin_decr_1; nra.
  - rewrite !triangle_at_fraction by (exact Hc || lra).
    rewrite (ltb_eq_false qa 0.25), (ltb_eq_true qa 0.75) by lra.
    rewrite (ltb_eq_false qb 0.25), (ltb_eq_true qb 0.75) by lra. lra.
Qed.

Lemma decel_tick_speed (cfg : Settings) (t : R) (s : State) :
  isDecelerating s = true -> waitingForEdge s = false ->
  0.01 < Rabs (decelStartPosition s) ->
  let s' := tickMotion cfg t s in
  isDecelerating s' = false
  \/ (speedMultiplier s'
        = Rmax 0.08 (sqrt (Rabs (ballPosition s) / Rabs (decelStartPosition s)))
      /\ decelStartPosition s' = decelStartPosition s).
Proof.
  intros Hd Hw Hstart. destruct s.
  cbn [isDecelerating waitingForEdge decelStartPosition ballPosition] in *. subst.
  cbv zeta. rewrite tick_decel_eq. cbv zeta.
  rewrite gtb_eq_true by exact Hstart.
  destruct (crossedZero _ _); [left | right; split]; reflexivity.
Qed.

Lemma decel_toward_step (cfg : Settings) (m : nat) (u0 u : R) (s : State) :
  0 < cyclesPerMinute cfg <= 180 ->
  DecelInHalfOf cfg m u s -> halfPeriod cfg / 2 <= u0 -> u0 <= u ->
  Rabs (decelStartPosition s) = wavePosition cfg u0 ->
  let s' := tickMotion cfg (Js.num (lastTimestamp s) + 16) s in
  Finished s'
  \/ exists u', u + 1.28 <= u' /\ DecelInHalfOf cfg m u' s'
       /\ Rabs (decelStartPosition s') = wavePosition cfg u0
       /\ 0.08 <= speedMultiplier s' <= 1.
Proof.
  intros Hcfg Hinv Hu0 Hu Hstart. cbv zeta.
  assert (Hc : 0 < cyclesPerMinute cfg) by lra.
  destruct (decel_step_any cfg m u s Hcfg Hinv) as [Hfin|(m' & u' & Hu' & -> & Hinv')];
    [left; exact Hfin | right].
  exists u'. split; [exact Hu'|]. split; [exact Hinv'|].
  destruct Hinv as (Hd & Hw & Hgt & _ & Hvt & Hrange & Hsync).
  destruct (decel_tick_speed cfg (Js.num (lastTimestamp s) + 16) s Hd Hw Hgt)
    as [Hstop|[Hsp Hdsp]].
  { destruct Hinv' as (Hd' & _). rewrite Hd' in Hstop. discriminate. }
  split; [rewrite Hdsp; exact Hstart|].
  rewrite Hsp. split; [apply Rmax_l|].
  apply Rmax_lub; [lra|].
  unfold InSync in Hsync.
  rewrite Hsync, Hvt, wave_half_periods, Hstart by exact Hc.
  destruct (wave_in_first_half cfg u Hc Hrange) as [Hs _].
  assert (Hle : wavePosition cfg u <= wavePosition cfg u0)
    by (apply wave_decreasing_toward_centre; lra).
  assert (Habs : Rabs (halfSign m * wavePosition cfg u) = wavePosition cfg u).
  { destruct (halfSign_cases m) as [-> | ->];
      [rewrite Rabs_pos_eq | rewrite Rabs_left1]; lra. }
  rewrite Habs. rewrite Hstart in Hgt.
  rewrite <- sqrt_1. apply sqrt_le_1_alt.
  apply Rmult_le_reg_r with (wavePosition cfg u0); [lra|]. unfold Rdiv.
  rewrite Rmult_assoc, Rinv_l by lra. lra.
Qed.

Lemma decel_toward_terminates (cfg : Settings) (m : nat) (u0 : R) (j : nat) :
  0 < cyclesPerMinute cfg <= 180 ->
  forall u s,
    DecelInHalfOf cfg m u s -> halfPeriod cfg / 2 <= u0 -> u0 <= u ->
    Rabs (decelStartPosition s) = wavePosition cfg u0 ->
    halfPeriod cfg - u <= 1.28 * INR j ->
    exists n, (1 <= n <= j)%nat
      /\ (forall i, (1 <= i < n)%nat ->
            isDecelerating (tickFixed cfg 16 i s) = true
            /\ 0.08 <= speedMultiplier (tickFixed cfg 16 i s) <= 1)
      /\ Finished (tickFixed cfg 16 n s).
Proof.
  intros Hcfg. induction j as [|j IH]; intros u s Hinv Hu0 Hu Hstart Hfuel.
  - cbn in Hfuel. destruct Hinv as (_ & _ & _ & _ & _ & Hrange & _). lra.
  - destruct (decel_toward_step cfg m u0 u s Hcfg Hinv Hu0 Hu Hstart)
      as [Hfin|(u' & Hu' & Hinv' & Hstart' & Hsp)].
    + exists 1%nat. split; [lia|]. split; [|exact Hfin]. intros i Hi. lia.
    + rewrite S_INR in Hfuel.
      destruct (IH u' _ Hinv' Hu0 ltac:(lra) Hstart') as (n & Hn & Hbefore & Hdone);
        [lra|].
      exists (S n). split; [lia|]. split; [|exact Hdone].
      intros [|[|i]] Hi; [lia | |].
      * cbn [tickFixed]. split; [apply Hinv' | exact Hsp].
      * change (tickFixed cfg 16 (S (S i)) s)
          with (tickFixed cfg 16 (S i)
                  (tickMotion cfg (Js.num (lastTimestamp s) + 16) s)).
        apply Hbefore. lia.
Qed.

Lemma toward_centre_strict (cfg : Settings) (u : R) :
  0 < cyclesPerMinute cfg -> 0 <= u < halfPeriod cfg ->
  wavePosition cfg u < 0.99 ->
  towardCentre cfg u = Js.gtb u (halfPeriod cfg / 2).
Proof.
  intros Hc Hu Hpos. pose proof (period_pos cfg Hc) as Hp.
  unfold towardCentre, wavePosition in *.
  destruct (isSine cfg); [reflexivity|].
  destruct (Rtotal_order u (halfPeriod cfg / 2)) as [H|[H|H]].
  - rewrite geb_eq_false, gtb_eq_false by lra. reflexivity.
  - exfalso. unfold halfPeriod in H.
    replace u with (0.25 * period cfg) in Hpos by lra.
    rewrite triangle_at_fraction in Hpos by (exact Hc || lra).
    rewrite ltb_eq_false, ltb_eq_true in Hpos by lra. lra.
  - rewrite geb_eq_true, gtb_eq_true by lra. reflexivity.
Qed.

(** X20. The direction test and the pause on the way in, for both shapes and
    every speed setting up to 180 cycles per minute.  The statement is about
    a playing state in sync whose ball is more than 0.01 and less than 0.99
    away from the centre, so neither at a centre crossing nor at a peak, where
    the sign of a value that is zero up to rounding decides the test.  With
    virtualTime u + h m, h being half a period and 0 <= u < h, the pause
    handler's test answers "heading toward the centre" exactly in the second
    half of the half period, for u > h/2.  A pause pressed there captures the
    position and starts the deceleration at once; from the first tick of 16 ms
    on, the speed multiplier stays between 0.08 and 1, and the ball stops at
    the centre within j ticks for every j with h - u <= 1.28 j ms (293 ticks
    at the default 40 cycles per minute). *)
Theorem pause_toward_centre_slows_and_stops (cfg : Settings) (now l u : R)
        (m j : nat) (s : State) :
  0 < cyclesPerMinute cfg <= 180 ->
  isPlaying s = true -> waitingForEdge s = false ->
  InSync cfg s ->
  virtualTime s = u + halfPeriod cfg * INR m -> 0 <= u < halfPeriod cfg ->
  0.01 < Rabs (ballPosition s) < 0.99 ->
  lastTimestamp s = Some l ->
  isHeadingTowardZero cfg s = Js.gtb u (halfPeriod cfg / 2)
  /\ (halfPeriod cfg / 2 < u ->
      halfPeriod cfg - u <= 1.28 * INR j ->
      let w := togglePlayPause cfg now s in
      isDecelerating w = true
      /\ decelStartPosition w = ballPosition s
      /\ exists n, (1 <= n <= j)%nat
           /\ (forall i, (1 <= i < n)%nat ->
                 isDecelerating (tickFixed cfg 16 i w) = true
                 /\ 0.08 <= speedMultiplier (tickFixed cfg 16 i w) <= 1)
           /\ Finished (tickFixed cfg 16 n w)
           /\ needsTick (tickFixed cfg 16 n w) = false).
Proof.
  intros Hcfg Hp Hw Hsync Hvt Hu Hzone Hl.
  assert (Hc : 0 < cyclesPerMinute cfg) by lra.
  pose proof (heading_toward_zero_any cfg m u s Hc Hsync Hvt Hu) as Hhead.
  destruct (wave_in_first_half cfg u Hc Hu) as [Hwave Hwpos].
  assert (Habs : Rabs (ballPosition s) = wavePosition cfg u).
  { unfold InSync in Hsync. rewrite Hsync, Hvt, wave_half_periods by exact Hc.
    destruct (halfSign_cases m) as [-> | ->];
      [rewrite Rabs_pos_eq | rewrite Rabs_left1]; lra. }
  rewrite (toward_centre_strict cfg u Hc Hu) in Hhead by lra.
  split; [exact Hhead|].
  intros Hside Hj. cbv zeta.
  rewrite gtb_eq_true in Hhead by exact Hside.
  destruct s. cbn [isPlaying waitingForEdge lastTimestamp virtualTime ballPosition] in *.
  subst. rewrite pause_toward_zero_eq by exact Hhead.
  set (w := mkState _ _ _ _ _ _ _ _ _ _ _).
  split; [reflexivity|]. split; [reflexivity|].
  unfold InSync in Hsync. cbn [ballPosition virtualTime] in Hsync.
  assert (Hinv : DecelInHalfOf cfg m u w).
  { unfold DecelInHalfOf, InSync. subst w.
    cbn [ballPosition isDecelerating waitingForEdge decelStartPosition
         lastTimestamp virtualTime].
    repeat split; try reflexivity; try assumption; try lra.
    exists l. reflexivity. }
  destruct (decel_toward_terminates cfg m u j Hcfg u w Hinv) as (n & Hn & Hbefore & Hfin).
  + lra.
  + lra.
  + exact Habs.
  + exact Hj.
  + exists n. split; [lia|]. split; [exact Hbefore|]. split; [exact Hfin|].
    apply (finished_is_quiet cfg); [exact Hfin|].
    rewrite tickFixed_isPlaying. reflexivity.
Qed.

Lemma pause_toward_centre_slows_and_stops_witness :
  exists n, (n <= 98)%nat
    /\ Finished
         (tickFixed defaultSettings 16 n
            (togglePlayPause defaultSettings 1110
               (mkState (wavePosition defaultSettings 625) true 1 (Some 0) 625
                        (Some 0) None 0 false 0 false))).
Proof.
  destruct (pause_toward_centre_slows_and_stops defaultSettings 1110 0 625 0 98
              (mkState (wavePosition defaultSettings 625) true 1 (Some 0) 625
                       (Some 0) None 0 false 0 false)) as [_ Hstop].
  - cbn. lra.
  - reflexivity.
  - reflexivity.
  - reflexivity.
  - cbn [virtualTime]. unfold halfPeriod. rewrite period_default. cbn. lra.
  - unfold halfPeriod. rewrite period_default. lra.
  - cbn [ballPosition]. rewrite wave_default, sin_5PI6, Rabs_pos_eq; lra.
  - reflexivity.
  - destruct Hstop as (_ & _ & n & Hn & _ & Hfin & _).
    + unfold halfPeriod. rewrite period_default. lra.
    + unfold halfPeriod. rewrite period_default.
      replace (INR 98) with 98 by (cbn; lra). lra.
    + exists n. split; [lia | exact Hfin].
Defined.

(** ** A pause on the way out always finds the edge, and then the centre *)

Lemma half_period_decompose (cfg : Settings) (x : R) :
  0 < cyclesPerMinute cfg -> 0 <= x ->
  exists m u, x = u + halfPeriod cfg * INR m /\ 0 <= u < halfPeriod cfg.
Proof.
  intros Hc Hx. pose proof (period_pos cfg Hc) as Hp.
  assert (Hh : 0 < halfPeriod cfg) by (unfold halfPeriod; lra).
  destruct (INR_unbounded (x / halfPeriod cfg)) as [n Hn].
  assert (Hlt : x < halfPeriod cfg * INR n).
  { apply Rmult_lt_compat_l with (r := halfPeriod cfg) in Hn; [|lra].
    replace (halfPeriod cfg * (x / halfPeriod cfg)) with x in Hn by (field; lra).
    lra. }
  clear Hn. revert x Hx Hlt. induction n as [|n IH]; intros x Hx Hlt.
  - cbn in Hlt. lra.
  - rewrite S_INR in Hlt.
    destruct (Rlt_le_dec x (halfPeriod cfg * INR n)) as [Hs|Hb].
    + apply IH; assumption.
    + exists n, (x - halfPeriod cfg * INR n). split; [ring | lra].
Qed.

Lemma cos_small_angle (y : R) : Rabs y <= 0.14 -> 0.99 < cos y.
Proof.
  pose proof PI_RGT_0 as Hpi. pose proof PI2_1 as Hpi2.
  assert (Hpos : forall z, 0 <= z <= 0.14 -> 0.99 < cos z).
  { intros z [Hz0 Hz1]. destruct (Req_dec z 0) as [->|Hnz].
    - rewrite cos_0. lra.
    - destruct (cos_near_zero (z / 2)) as [Hc _]; [lra | lra |].
      replace (2 * (z / 2)) with z in Hc by field.
      assert (z / 2 <= 0.07) by lra. assert (0 < z / 2) by lra. nra. }
  intros Hy. destruct (Rle_lt_dec 0 y) as [H0|H0].
  - rewrite Rabs_pos_eq in Hy by assumption. apply Hpos; lra.
  - rewrite Rabs_left in Hy by assumption. rewrite <- cos_neg. apply Hpos; lra.
Qed.

(** The phase advanced by 16 ms at full speed, for settings up to 60 cycles
    per minute. *)
Lemma step_angle (cfg : Settings) (d : R) :
  0 < cyclesPerMinute cfg <= 60 -> 0 <= d <= 16 ->
  0 <= d / period cfg * PI * 2 <= 0.128.
Proof.
  intros [Hc Hmax] Hd. pose proof (period_pos cfg Hc) as Hp.
  pose proof PI_RGT_0 as Hpi. pose proof PI_4 as Hpi4.
  assert (Hlong : 1000 <= period cfg).
  { unfold period.
    replace (1000 / (cyclesPerMinute cfg / 60)) with (60000 / cyclesPerMinute cfg)
      by (field; lra).
    apply Rmult_le_reg_r with (cyclesPerMinute cfg); [lra|]. unfold Rdiv.
    rewrite Rmult_assoc, Rinv_l by lra. lra. }
  assert (Hq : 0 <= d / period cfg <= 0.016).
  { split; [apply quotient_nonneg; lra|].
    apply Rmult_le_reg_r with (period cfg); [lra|]. unfold Rdiv.
    rewrite Rmult_assoc, Rinv_l by lra. nra. }
  split; nra.
Qed.

Lemma sine_half_periods (cfg : Settings) (m : nat) (u : R) :
  0 < cyclesPerMinute cfg ->
  sinePosition cfg (u + halfPeriod cfg * INR m) = halfSign m * sinePosition cfg u.
Proof.
  intros Hc. induction m as [|m IH].
  - replace (u + halfPeriod cfg * INR 0) with u by (cbn; ring).
    unfold halfSign. cbn. ring.
  - rewrite S_INR.
    replace (u + halfPeriod cfg * (INR m + 1))
      with (u + halfPeriod cfg * INR m + halfPeriod cfg) by ring.
    rewrite sine_half_shift by exact Hc. rewrite IH, halfSign_succ. ring.
Qed.

Lemma edge_window (cfg : Settings) (u : R) :
  0 < cyclesPerMinute cfg <= 60 ->
  Rabs (u - halfPeriod cfg / 2) <= 16 -> 0.99 < sinePosition cfg u.
Proof.
  intros Hcfg Hu. assert (Hc : 0 < cyclesPerMinute cfg) by lra.
  pose proof (period_pos cfg Hc) as Hp.
  unfold sinePosition. rewrite <- cos_shift. apply cos_small_angle.
  replace (PI / 2 - u / period cfg * PI * 2)
    with (- ((u - halfPeriod cfg / 2) / period cfg * PI * 2))
    by (unfold halfPeriod; field; lra).
  rewrite Rabs_Ropp.
  destruct (Rle_lt_dec 0 (u - halfPeriod cfg / 2)) as [H0|H0].
  - rewrite Rabs_pos_eq in Hu by exact H0.
    pose proof (step_angle cfg (u - halfPeriod cfg / 2) Hcfg ltac:(lra)) as Ha.
    rewrite Rabs_pos_eq; lra.
  - rewrite Rabs_left in Hu by exact H0.
    pose proof (step_angle cfg (- (u - halfPeriod cfg / 2)) Hcfg ltac:(lra)) as Ha.
    replace (- (u - halfPeriod cfg / 2) / period cfg * PI * 2)
      with (- ((u - halfPeriod cfg / 2) / period cfg * PI * 2)) in Ha
      by (field; lra).
    rewrite Rabs_left1; lra.
Qed.

Lemma edge_window_any_half (cfg : Settings) (m : nat) (x : R) :
  0 < cyclesPerMinute cfg <= 60 ->
  Rabs (x - (halfPeriod cfg / 2 + halfPeriod cfg * INR m)) <= 16 ->
  0.99 < Rabs (sinePosition cfg x).
Proof.
  intros Hcfg Hx. assert (Hc : 0 < cyclesPerMinute cfg) by lra.
  replace x with ((x - halfPeriod cfg * INR m) + halfPeriod cfg * INR m) by ring.
  rewrite sine_half_periods by exact Hc.
  pose proof (edge_window cfg (x - halfPeriod cfg * INR m) Hcfg) as Hw.
  replace (x - halfPeriod cfg * INR m - halfPeriod cfg / 2)
    with (x - (halfPeriod cfg / 2 + halfPeriod cfg * INR m)) in Hw by ring.
  specialize (Hw Hx).
  destruct (halfSign_cases m) as [-> | ->].
  - rewrite Rmult_1_l, Rabs_pos_eq; lra.
  - rewrite Rabs_left; lra.
Qed.

Lemma edge_is_far_from_centre (cfg : Settings) (m : nat) (u : R) :
  0 < cyclesPerMinute cfg <= 60 -> 0 <= u < halfPeriod cfg ->
  0.99 <= Rabs (sinePosition cfg (u + halfPeriod cfg * INR m)) -> 16 <= u.
Proof.
  intros Hcfg Hu Hedge. assert (Hc : 0 < cyclesPerMinute cfg) by lra.
  destruct (Rle_lt_dec 16 u) as [Hok|Hnear]; [exact Hok | exfalso].
  rewrite sine_half_periods in Hedge by exact Hc.
  pose proof (step_angle cfg u Hcfg ltac:(lra)) as Ha.
  pose proof PI_RGT_0 as Hpi. pose proof PI2_1 as Hpi2.
  assert (Hs : 0 <= sinePosition cfg u < 0.99).
  { unfold sinePosition. split; [apply sin_ge_0; lra|].
    destruct (Req_dec (u / period cfg * PI * 2) 0) as [->|Hne];
      [rewrite sin_0; lra|].
    pose proof (sin_lt_x (u / period cfg * PI * 2) ltac:(lra)). lra. }
  destruct (halfSign_cases m) as [E|E]; rewrite E in Hedge.
  - rewrite Rmult_1_l, Rabs_pos_eq in Hedge; lra.
  - rewrite Rabs_left1 in Hedge; lra.
Qed.

Lemma waiting_step (cfg : Settings) (m : nat) (x : R) (s : State) :
  0 < cyclesPerMinute cfg <= 60 ->
  WaitingAtOf cfg x s -> 0 <= x -> x <= halfPeriod cfg / 2 + halfPeriod cfg * INR m ->
  let s' := tickMotion cfg (Js.num (lastTimestamp s) + 16) s in
  (WaitingAtOf cfg (x + 16) s'
   /\ x + 16 <= halfPeriod cfg / 2 + halfPeriod cfg * INR m)
  \/ EdgeFoundOf cfg (x + 16) s'.
Proof.
  intros Hcfg (Hw & Hd & Hsp & [l Hl] & Hvt & Hsync) Hx0 Htarget.
  assert (Hc : 0 < cyclesPerMinute cfg) by lra.
  unfold InSync in Hsync. destruct s.
  cbn [ballPosition isDecelerating waitingForEdge speedMultiplier
       lastTimestamp virtualTime] in Hd, Hw, Hsp, Hl, Hvt, Hsync. subst x. subst.
  cbv zeta. cbn [lastTimestamp Js.num].
  rewrite tick_waiting_eq. cbv zeta. rewrite frameDelta_some.
  replace (Rmin (l + 16 - l) 50) with 16 by (rewrite Rmin_left; lra).
  replace (virtualTime0 + 16 * 1) with (virtualTime0 + 16) by ring.
  change (sin ((virtualTime0 + 16) / period cfg * PI * 2))
    with (sinePosition cfg (virtualTime0 + 16)).
  destruct (Rle_lt_dec 0.99 (Rabs (sinePosition cfg (virtualTime0 + 16))))
    as [Hedge|Hnot].
  - rewrite geb_eq_true by exact Hedge.
    destruct (half_period_decompose cfg (virtualTime0 + 16) Hc ltac:(lra))
      as (m' & u' & Hdec & Hu').
    rewrite Hdec in Hedge.
    pose proof (edge_is_far_from_centre cfg m' u' Hcfg Hu' Hedge) as Hfar.
    assert (Hnc : crossedZero (wavePosition cfg virtualTime0)
                              (wavePosition cfg (virtualTime0 + 16)) = false).
    { rewrite Hdec.
      replace virtualTime0 with ((u' - 16) + halfPeriod cfg * INR m') by lra.
      replace (u' - 16 + halfPeriod cfg * INR m' + 16)
        with (u' + halfPeriod cfg * INR m') by ring.
      rewrite !wave_half_periods by exact Hc.
      destruct (wave_in_first_half cfg (u' - 16) Hc ltac:(lra)) as [Ha _].
      destruct (wave_in_first_half cfg u' Hc Hu') as [_ Hb].
      apply crossedZero_same_side; [apply halfSign_cases | lra | apply Hb; lra]. }
    rewrite Hnc.
    right. unfold EdgeFoundOf, InSync.
    cbn [ballPosition isDecelerating waitingForEdge speedMultiplier
         decelStartPosition lastTimestamp virtualTime].
    rewrite <- Hdec in Hedge.
    repeat split; try reflexivity; try assumption.
    exists (l + 16). reflexivity.
  - rewrite geb_eq_false by exact Hnot.
    left. split.
    + unfold WaitingAtOf, InSync.
      cbn [ballPosition isDecelerating waitingForEdge speedMultiplier
           lastTimestamp virtualTime].
      repeat split; try reflexivity. exists (l + 16). reflexivity.
    + destruct (Rle_lt_dec (virtualTime0 + 16)
                           (halfPeriod cfg / 2 + halfPeriod cfg * INR m))
        as [Hok|Hpast]; [exact Hok|].
      pose proof (edge_window_any_half cfg m (virtualTime0 + 16) Hcfg) as Hwin.
      rewrite Rabs_pos_eq in Hwin by lra. specialize (Hwin ltac:(lra)). lra.
Qed.

Lemma waiting_terminates (cfg : Settings) (m : nat) (j : nat) :
  0 < cyclesPerMinute cfg <= 60 ->
  forall x s,
    WaitingAtOf cfg x s -> 0 <= x ->
    x <= halfPeriod cfg / 2 + halfPeriod cfg * INR m ->
    halfPeriod cfg / 2 + halfPeriod cfg * INR m - x <= 16 * INR j ->
    exists n, (1 <= n <= S j)%nat
      /\ (forall i, (i < n)%nat ->
            waitingForEdge (tickFixed cfg 16 i s) = true
            /\ speedMultiplier (tickFixed cfg 16 i s) = 1)
      /\ EdgeFoundOf cfg (x + 16 * INR n) (tickFixed cfg 16 n s).
Proof.
  intros Hcfg. induction j as [|j IH]; intros x s Hinv Hx0 Htarget Hfuel.
  - destruct (waiting_step cfg m x s Hcfg Hinv Hx0 Htarget) as [[_ Hcontra]|Hfound].
    + cbn in Hfuel. lra.
    + exists 1%nat. split; [lia|]. split.
      * intros i Hi. assert (i = 0)%nat by lia; subst. cbn. split; apply Hinv.
      * replace (x + 16 * INR 1) with (x + 16) by (cbn; ring). exact Hfound.
  - destruct (waiting_step cfg m x s Hcfg Hinv Hx0 Htarget)
      as [[Hinv' Htarget']|Hfound].
    + rewrite S_INR in Hfuel.
      destruct (IH (x + 16) _ Hinv' ltac:(lra) Htarget')
        as (n & Hn & Hbefore & Hdone); [lra|].
      exists (S n). split; [lia|]. split.
      * intros [|i] Hi; cbn [tickFixed]; [split; apply Hinv | apply Hbefore; lia].
      * rewrite S_INR.
        replace (x + 16 * (INR n + 1)) with (x + 16 + 16 * INR n) by ring.
        exact Hdone.
    + exists 1%nat. split; [lia|]. split.
      * intros i Hi. assert (i = 0)%nat by lia; subst. cbn. split; apply Hinv.
      * replace (x + 16 * INR 1) with (x + 16) by (cbn; ring). exact Hfound.
Qed.

Lemma next_edge (cfg : Settings) (x : R) :
  0 < cyclesPerMinute cfg -> 0 <= x ->
  exists m, x <= halfPeriod cfg / 2 + halfPeriod cfg * INR m
            /\ halfPeriod cfg / 2 + halfPeriod cfg * INR m - x <= halfPeriod cfg.
Proof.
  intros Hc Hx. destruct (half_period_decompose cfg x Hc Hx) as (m & u & -> & Hu).
  destruct (Rle_lt_dec u (halfPeriod cfg / 2)) as [Hlo|Hhi].
  - exists m. lra.
  - exists (S m). rewrite S_INR. lra.
Qed.

Lemma edge_found_decelerates (cfg : Settings) (j : nat) (x : R) (s : State) :
  0 < cyclesPerMinute cfg <= 60 ->
  EdgeFoundOf cfg x s -> 0 <= x -> halfPeriod cfg <= 1.28 * INR j ->
  exists n, (1 <= n <= j)%nat
    /\ (forall i, (i < n)%nat -> isDecelerating (tickFixed cfg 16 i s) = true)
    /\ Finished (tickFixed cfg 16 n s).
Proof.
  intros Hcfg (Hd & Hw & _ & Hstart & _ & Hl & Hvt & Hsync) Hx Hj.
  assert (Hc : 0 < cyclesPerMinute cfg) by lra.
  destruct (half_period_decompose cfg x Hc Hx) as (m & u & Hxu & Hu).
  apply (decel_terminates_any cfg m j ltac:(lra) u).
  - unfold DecelInHalfOf. repeat split; try assumption; try lra.
  - lra.
Qed.

(** X21. A pause on the way out, for both shapes and every speed setting up to
    60 cycles per minute, frames 16 ms apart.  The statement is about a pause
    pressed with the ball more than 0.01 and less than 0.99 away from the
    centre, so neither at a centre crossing nor at a peak, where the sign of a
    value that is zero up to rounding decides the direction test.  When pause
    is pressed there in a playing state that is not heading toward the centre
    (position in sync with a non-negative virtualTime), the press sets
    speedMultiplier to 1 and the ball keeps moving at full speed.  The edge
    test, which uses the sine formula for both shapes, fires within j1 + 1
    ticks for every j1 with half a period at most 16 j1 ms, on a tick that
    does not cross the centre, and captures the sine value of that tick, of
    magnitude at least 0.99.  The deceleration begun there ends in the stopped
    state within j2 further ticks for every j2 with half a period at most
    1.28 j2 ms, after which the animation loop has nothing to tick.  At the
    default 40 cycles per minute that is at most 48 and 586 ticks. *)
Theorem pause_toward_edge_always_stops (cfg : Settings) (now l : R) (j1 j2 : nat)
        (s : State) :
  0 < cyclesPerMinute cfg <= 60 ->
  isPlaying s = true -> isDecelerating s = false ->
  0.01 < Rabs (ballPosition s) < 0.99 ->
  isHeadingTowardZero cfg s = false ->
  InSync cfg s -> 0 <= virtualTime s ->
  lastTimestamp s = Some l ->
  halfPeriod cfg <= 16 * INR j1 -> halfPeriod cfg <= 1.28 * INR j2 ->
  let w := togglePlayPause cfg now s in
  exists n k,
    (1 <= n <= S j1)%nat /\ (1 <= k <= j2)%nat
    /\ (forall i, (i < n)%nat ->
          waitingForEdge (tickFixed cfg 16 i w) = true
          /\ speedMultiplier (tickFixed cfg 16 i w) = 1)
    /\ EdgeFoundOf cfg (virtualTime s + 16 * INR n) (tickFixed cfg 16 n w)
    /\ (forall i, (i < k)%nat ->
          isDecelerating (tickFixed cfg 16 (n + i) w) = true)
    /\ Finished (tickFixed cfg 16 (n + k) w)
    /\ needsTick (tickFixed cfg 16 (n + k) w) = false.
Proof.
  intros Hcfg Hp Hd _ Hhead Hsync Hvt Hl Hj1 Hj2. cbv zeta.
  assert (Hc : 0 < cyclesPerMinute cfg) by lra.
  destruct s. cbn [isPlaying isDecelerating lastTimestamp virtualTime] in *. subst.
  rewrite pause_toward_edge_eq by exact Hhead.
  set (w := mkState _ _ _ _ _ _ _ _ _ _ _).
  assert (Hwait : WaitingAtOf cfg virtualTime0 w).
  { unfold WaitingAtOf, InSync in *. subst w.
    cbn [ballPosition isDecelerating waitingForEdge speedMultiplier
         lastTimestamp virtualTime] in *.
    repeat split; try reflexivity; try assumption. exists l. reflexivity. }
  destruct (next_edge cfg virtualTime0 Hc Hvt) as (m & Hm1 & Hm2).
  destruct (waiting_terminates cfg m j1 Hcfg virtualTime0 w Hwait Hvt Hm1)
    as (n & Hn & Hbefore & Hfound); [lra|].
  assert (Hx : 0 <= virtualTime0 + 16 * INR n).
  { pose proof (pos_INR n). lra. }
  destruct (edge_found_decelerates cfg j2 _ _ Hcfg Hfound Hx Hj2)
    as (k & Hk & Hdec & Hfin).
  exists n, k.
  split; [lia|]. split; [lia|]. split; [exact Hbefore|]. split; [exact Hfound|].
  rewrite !tickFixed_add.
  split; [|split].
  - intros i Hi. rewrite tickFixed_add. apply Hdec. exact Hi.
  - exact Hfin.
  - apply (finished_is_quiet cfg); [exact Hfin|].
    rewrite !tickFixed_isPlaying. reflexivity.
Qed.

Lemma pause_toward_edge_always_stops_witness :
  exists n k, (n + k <= 634)%nat
    /\ Finished
         (tickFixed defaultSettings 16 (n + k)
            (togglePlayPause defaultSettings 1110
               (mkState (wavePosition defaultSettings 125) true 1 (Some 0) 125
                        (Some 0) None 0 false 0 false))).
Proof.
  destruct (pause_toward_edge_always_stops defaultSettings 1110 0 47 586
              (mkState (wavePosition defaultSettings 125) true 1 (Some 0) 125
                       (Some 0) None 0 false 0 false))
    as (n & k & Hn & Hk & _ & _ & _ & Hfin & _).
  - cbn. lra.
  - reflexivity.
  - reflexivity.
  - cbn [ballPosition]. rewrite wave_default, sin_PI6_default, Rabs_pos_eq; lra.
  - rewrite (heading_toward_zero_any defaultSettings 0 125).
    + unfold towardCentre, halfPeriod. rewrite period_default.
      replace (isSine defaultSettings) with true by reflexivity.
      apply gtb_eq_false. lra.
    + cbn. lra.
    + reflexivity.
    + cbn [virtualTime]. cbn. lra.
    + unfold halfPeriod. rewrite period_default. lra.
  - reflexivity.
  - cbn. lra.
  - reflexivity.
  - unfold halfPeriod. rewrite period_default.
    replace (INR 47) with 47 by (cbn; lra). lra.
  - unfold halfPeriod. rewrite period_default.
    replace (INR 586) with 586 by (cbn; lra). lra.
  - exists n, k. split; [lia | exact Hfin].
Defined.
